(** * Fluxbox client/window object model: WinClient and FluxboxWindow

    A shallow embedding of the parts of [src/WinClient.cc] and
    [src/Window.cc] that maintain the transient graph, the tab groups
    (frames), focus delegation, stacking propagation and the size-hint
    arithmetic, together with the properties established for them. *)

From Stdlib Require Import ZArith Lia Floats.
From stdpp Require Import gmap list relations.

Open Scope Z_scope.

(** ** Machine integers and doubles

    [unsigned int] and [int] are 32 bits wide.  A value of either type is
    carried as a [Z]; every conversion between the two is written out. *)

(** value of an expression of type [unsigned int] *)
Definition to_unsigned (z : Z) : Z := z mod 2 ^ 32.

(** value of an expression of type [int] (also [static_cast<signed>]) *)
Definition to_signed (z : Z) : Z :=
  let u := z mod 2 ^ 32 in if u <? 2 ^ 31 then u else u - 2 ^ 32.

(** [static_cast<double>] of an unsigned value: exact below 2^53 *)
Definition double_of_unsigned (z : Z) : float :=
  PrimFloat.of_uint63 (Uint63.of_Z z).

(** [static_cast<int>] of a double: truncation toward zero.  The C++
    conversion is undefined for NaN, infinities and values out of range;
    here NaN and infinities give 0 and the caller wraps the result. *)
Definition int_of_double (f : float) : Z :=
  match Prim2SF f with
  | S754_finite s m e =>
      let v := if 0 <=? e then Z.pos m * 2 ^ e else Z.pos m / 2 ^ (- e) in
      if s then - v else v
  | _ => 0
  end.

(** ** Size hints (WinClient.hh, [m_size_hints]) *)

Record SizeHints := mkSizeHints {
  min_width : Z;  max_width : Z;
  min_height : Z; max_height : Z;
  width_inc : Z;  height_inc : Z;
  min_aspect_x : Z; min_aspect_y : Z;
  max_aspect_x : Z; max_aspect_y : Z;
  base_width : Z; base_height : Z
}.

(** [closestPointToLine] (WinClient.cc:704): returns [(ret_x, ret_y)]. *)
Definition closestPointToLine (point_x point_y gradient : float) : float * float :=
  let u := ((point_x * gradient + point_y) / (gradient * gradient + 1))%float in
  ((u * gradient)%float, u).

(** [WinClient::applySizeHints] (WinClient.cc:724).  The result is
    [(width, height, i, j)]: the two reference parameters after the call
    and the values stored through [display_width], [display_height]. *)
Definition applySizeHints (h : SizeHints) (width0 height0 : Z) (maximizing : bool)
  : Z * Z * Z * Z :=
  (* Check minimum size *)
  let width := if (width0 <? 0) || (width0 <? to_signed (min_width h))
               then to_signed (min_width h) else width0 in
  let height := if (height0 <? 0) || (height0 <? to_signed (min_height h))
                then to_signed (min_height h) else height0 in
  (* Check maximum size *)
  let width := if (0 <? max_width h) && (to_signed (max_width h) <? width)
               then to_signed (max_width h) else width in
  let height := if (0 <? max_height h) && (to_signed (max_height h) <? height)
                then to_signed (max_height h) else height in
  (* aspect ratios, applied exclusive of the base size *)
  let '(width, height) :=
    if (0 <? min_aspect_y h) && (0 <? max_aspect_y h)
       && (0 <? to_unsigned (height - base_height h))
    then
      let widthd := double_of_unsigned (to_unsigned (width - base_width h)) in
      let heightd := double_of_unsigned (to_unsigned (height - base_height h)) in
      let min := (double_of_unsigned (min_aspect_x h)
                  / double_of_unsigned (min_aspect_y h))%float in
      let max := (double_of_unsigned (max_aspect_x h)
                  / double_of_unsigned (max_aspect_y h))%float in
      let actual := (widthd / heightd)%float in
      if (0 <? max)%float && (0 <? min)%float && (0 <? actual)%float then
        let changed_to (p : float * float) :=
          (to_signed (int_of_double (fst p) + base_width h),
           to_signed (int_of_double (snd p) + base_height h)) in
        if (actual <? min)%float then
          changed_to (if maximizing then (widthd, (widthd / min)%float)
                      else closestPointToLine widthd heightd min)
        else if (max <? actual)%float then
          changed_to (if maximizing then ((heightd * max)%float, heightd)
                      else closestPointToLine widthd heightd max)
        else (width, height)
      else (width, height)
    else (width, height) in
  (* enforce incremental size limits, wrt base size *)
  let i := to_signed (Z.quot (to_signed (width - to_signed (base_width h)))
                             (to_signed (width_inc h))) in
  let width := to_signed (i * to_signed (width_inc h) + to_signed (base_width h)) in
  let j := to_signed (Z.quot (to_signed (height - to_signed (base_height h)))
                             (to_signed (height_inc h))) in
  let height := to_signed (j * to_signed (height_inc h) + to_signed (base_height h)) in
  (width, height, i, j).

(** [WinClient::checkSizeHints] (WinClient.cc:826); [width] and [height]
    are [unsigned int], so every operation below is unsigned. *)
Definition checkSizeHints (h : SizeHints) (width height : Z) : bool :=
  if (width <? min_width h) || (height <? min_height h) then false
  else if (max_width h <? width) || (max_height h <? height) then false
  else if negb (Z.rem (to_unsigned (width - base_width h)) (width_inc h) =? 0) then false
  else if negb (Z.rem (to_unsigned (height - base_height h)) (height_inc h) =? 0) then false
  else
    let ratio := (double_of_unsigned width / double_of_unsigned height)%float in
    if (0 <? min_aspect_y h)
       && (ratio <? double_of_unsigned (min_aspect_x h)
                    / double_of_unsigned (min_aspect_y h))%float then false
    else if (0 <? max_aspect_y h)
       && (double_of_unsigned (max_aspect_x h)
           / double_of_unsigned (max_aspect_y h) <? ratio)%float then false
    else true.

(** The hint set a WinClient has when the window declares no
    [WM_NORMAL_HINTS] ([updateWMNormalHints], WinClient.cc:474-482). *)
Definition default_hints : SizeHints :=
  mkSizeHints 1 0 1 0 1 1 0 0 0 0 1 1.


(** Hint sets whose fields fit an [int], with positive increments. *)
Definition hints_in_int_range (h : SizeHints) : Prop :=
  (0 <= min_width h < 2 ^ 31) /\ (0 <= max_width h < 2 ^ 31) /\
  (0 <= min_height h < 2 ^ 31) /\ (0 <= max_height h < 2 ^ 31) /\
  (0 <= base_width h < 2 ^ 31) /\ (0 <= base_height h < 2 ^ 31) /\
  (1 <= width_inc h < 2 ^ 31) /\ (1 <= height_inc h < 2 ^ 31).

(** The aspect step of [applySizeHints] is guarded by both denominators. *)
Definition no_aspect (h : SizeHints) : Prop :=
  min_aspect_y h = 0 \/ max_aspect_y h = 0.

(** One dimension of the integer path of [applySizeHints]. *)
Definition clamp (mn mx x : Z) : Z :=
  let x1 := if (x <? 0) || (x <? mn) then mn else x in
  if (0 <? mx) && (mx <? x1) then mx else x1.

Definition cells (b inc x : Z) : Z := Z.quot (x - b) inc.

(** [applySizeHints] maps its own output to itself. *)
Definition idempotent_at (h : SizeHints) (w ht : Z) (m : bool) : Prop :=
  let '(w1, h1, i, j) := applySizeHints h w ht m in
  applySizeHints h w1 h1 false = (w1, h1, i, j).

(** ** Clients, frames and the window manager state

    A [WinClient] object is named by the handle of its X window:
    [Fluxbox::saveWindowSearch (win, this)] enters every client under its
    own handle, so [Fluxbox::searchWindow] is the lookup in [clients], and
    a [WinClient *] is [Some handle] or [None] for the null pointer.  A
    [FluxboxWindow] (the frame of a tab group) is named by a number.  An
    operation returns [None] where the C++ would go through a null pointer
    or a pointer to an object that no longer exists, fail an [assert], or
    not return. *)

Abbreviation Window := Z (only parsing).
Abbreviation FbWin := nat (only parsing).

Record WinClient := mkWinClient {
  transient_for : option Window;
  transients : list Window;
  m_win : option FbWin;
  m_modal : bool;
  m_modal_count : Z;
  accepts_input : bool;
  send_focus_message : bool
}.

Record Frame := mkFrame {
  m_clientlist : list Window;
  m_client : option Window;
  iconic : bool;
  oplock : bool;
  m_layernum : Z;
  layeritem : Z
}.

(** Calls that leave the model: X requests and layer-manager requests. *)
Inductive XCall :=
| XRaiseWindow (w : Window)
| XSetInputFocus (w : Window)
| XSendTakeFocus (w : Window)
| SetFocusedWindow (f : FbWin) (w : Window)
| LayerRaise (f : FbWin)
| LayerLower (f : FbWin).

Record State := mkState {
  clients : gmap Z WinClient;
  frames : gmap nat Frame;
  s_transient_wait : gmap Z (list Z);
  x_transient_for : gmap Z Z;
  x_group_left : gmap Z Z;
  x_gone : gset Z;
  shutting_down : bool;
  x_log : list XCall
}.

(** ICCCM input models ([WinClient::getFocusMode]). *)
Inductive FocusMode := F_NOINPUT | F_PASSIVE | F_LOCALLYACTIVE | F_GLOBALLYACTIVE.

(** *** Field updates *)

Definition wc_transient_for (v : option Window) (c : WinClient) : WinClient :=
  mkWinClient v (transients c) (m_win c) (m_modal c) (m_modal_count c)
    (accepts_input c) (send_focus_message c).
Definition wc_transients (f : list Window -> list Window) (c : WinClient) : WinClient :=
  mkWinClient (transient_for c) (f (transients c)) (m_win c) (m_modal c)
    (m_modal_count c) (accepts_input c) (send_focus_message c).
Definition wc_m_win (v : option FbWin) (c : WinClient) : WinClient :=
  mkWinClient (transient_for c) (transients c) v (m_modal c) (m_modal_count c)
    (accepts_input c) (send_focus_message c).
Definition wc_modal_count (f : Z -> Z) (c : WinClient) : WinClient :=
  mkWinClient (transient_for c) (transients c) (m_win c) (m_modal c)
    (f (m_modal_count c)) (accepts_input c) (send_focus_message c).
Definition wc_no_focus (c : WinClient) : WinClient :=
  mkWinClient (transient_for c) (transients c) (m_win c) (m_modal c)
    (m_modal_count c) false false.

Definition fr_clientlist (f : list Window -> list Window) (fr : Frame) : Frame :=
  mkFrame (f (m_clientlist fr)) (m_client fr) (iconic fr) (oplock fr)
    (m_layernum fr) (layeritem fr).
Definition fr_client (v : option Window) (fr : Frame) : Frame :=
  mkFrame (m_clientlist fr) v (iconic fr) (oplock fr) (m_layernum fr) (layeritem fr).
Definition fr_oplock (v : bool) (fr : Frame) : Frame :=
  mkFrame (m_clientlist fr) (m_client fr) (iconic fr) v (m_layernum fr) (layeritem fr).
Definition fr_layeritem (v : Z) (fr : Frame) : Frame :=
  mkFrame (m_clientlist fr) (m_client fr) (iconic fr) (oplock fr) (m_layernum fr) v.
Definition fr_layernum (v : Z) (fr : Frame) : Frame :=
  mkFrame (m_clientlist fr) (m_client fr) (iconic fr) (oplock fr) v (layeritem fr).

Definition with_clients (f : gmap Z WinClient -> gmap Z WinClient) (s : State) : State :=
  mkState (f (clients s)) (frames s) (s_transient_wait s) (x_transient_for s)
    (x_group_left s) (x_gone s) (shutting_down s) (x_log s).
Definition with_frames (f : gmap nat Frame -> gmap nat Frame) (s : State) : State :=
  mkState (clients s) (f (frames s)) (s_transient_wait s) (x_transient_for s)
    (x_group_left s) (x_gone s) (shutting_down s) (x_log s).
Definition with_wait (f : gmap Z (list Z) -> gmap Z (list Z)) (s : State) : State :=
  mkState (clients s) (frames s) (f (s_transient_wait s)) (x_transient_for s)
    (x_group_left s) (x_gone s) (shutting_down s) (x_log s).
Definition with_hint (f : gmap Z Z -> gmap Z Z) (s : State) : State :=
  mkState (clients s) (frames s) (s_transient_wait s) (f (x_transient_for s))
    (x_group_left s) (x_gone s) (shutting_down s) (x_log s).
Definition with_group_left (f : gmap Z Z -> gmap Z Z) (s : State) : State :=
  mkState (clients s) (frames s) (s_transient_wait s) (x_transient_for s)
    (f (x_group_left s)) (x_gone s) (shutting_down s) (x_log s).
Definition xcall (e : XCall) (s : State) : State :=
  mkState (clients s) (frames s) (s_transient_wait s) (x_transient_for s)
    (x_group_left s) (x_gone s) (shutting_down s) (x_log s ++ [e]).

(** write through a [WinClient *] / [FluxboxWindow *] known to be valid *)
Definition upd_client (c : Window) (f : WinClient -> WinClient) : State -> State :=
  with_clients (alter f c).
Definition upd_frame (w : FbWin) (f : Frame -> Frame) : State -> State :=
  with_frames (alter f w).

(** [std::list::remove]: drops every element equal to [x] *)
Definition list_remove (x : Z) (l : list Z) : list Z := filter (λ y, y ≠ x) l.

(** a loop over a list whose body may fail *)
Fixpoint for_each {A} (body : State -> A -> option State) (l : list A) (s : State)
  : option State :=
  match l with
  | [] => Some s
  | x :: l' => s' ← body s x; for_each body l' s'
  end.

(** [c->transientFor()], [None] also when [c] is not a live object *)
Definition transientFor (s : State) (c : Window) : option Window :=
  clients s !! c ≫= transient_for.

(** the state before any window is managed *)
Definition init_state (hints : gmap Z Z) : State :=
  mkState ∅ ∅ ∅ hints ∅ ∅ false [].

(** *** The transient graph as a relation *)

Definition live (s : State) (c : Window) : Prop := is_Some (clients s !! c).

(** [c->transientList()], empty when [c] is not a live object *)
Definition transientList (s : State) (c : Window) : list Window :=
  default [] (transients <$> clients s !! c).

Definition edge (g : Z -> option Z) (a b : Z) : Prop := g a = Some b.

Definition no_cycle (g : Z -> option Z) : Prop := ∀ c, ¬ tc (edge g) c c.

(** no chain of [transient_for] links returns to its start *)
Definition acyclic (s : State) : Prop := no_cycle (transientFor s).

(** every [transient_for] pointer and every waiting client is a live object *)
Definition tf_live (s : State) : Prop :=
  ∀ c p, transientFor s c = Some p → live s p.
Definition wait_live (s : State) : Prop :=
  ∀ k l x, s_transient_wait s !! k = Some l → x ∈ l → live s x.

Definition graph_inv (s : State) : Prop := acyclic s ∧ tf_live s ∧ wait_live s.

(** two states with the same transient graph and the same waiting lists *)
Definition same_graph (s s' : State) : Prop :=
  (∀ x, transient_for <$> clients s' !! x = transient_for <$> clients s !! x) ∧
  (∀ x, transients <$> clients s' !! x = transients <$> clients s !! x) ∧
  s_transient_wait s' = s_transient_wait s.

(** the pointers that the stacking operations go through are valid:
    every frame has a live active client, every entry of a transient
    list is a live client, and the frame of every client exists *)
Definition frame_ok (s : State) (f : Frame) : Prop :=
  is_Some (m_client f ≫= λ c, clients s !! c).
Definition client_ok (s : State) (wc : WinClient) : Prop :=
  Forall (live s) (transients wc) ∧
  match m_win wc with
  | Some w => is_Some (frames s !! w)
  | None => True
  end.
Definition wf_frames (s : State) : Prop :=
  map_Forall (λ _ f, frame_ok s f) (frames s) ∧
  map_Forall (λ _ wc, client_ok s wc) (clients s).

#[global] Instance live_dec s c : Decision (live s c).
Proof. unfold live. apply _. Defined.
#[global] Instance frame_ok_dec s f : Decision (frame_ok s f).
Proof. unfold frame_ok. apply _. Defined.
#[global] Instance client_ok_dec s wc : Decision (client_ok s wc).
Proof. unfold client_ok. destruct (m_win wc); apply _. Defined.
#[global] Instance wf_frames_dec s : Decision (wf_frames s).
Proof. unfold wf_frames. apply _. Defined.

(** a link of the chain whose target is not [this]: the loop of
    [updateTransientInfo] that looks for a cycle moves on along it *)
Definition clean_edge (s : State) (this : Window) (a b : Window) : Prop :=
  transientFor s a = Some b ∧ b ≠ this.

(** ** Concrete windows for the scenarios

    A screen whose root window is 1 and whose menu layer is 0, a layer
    manager that grants every requested layer, clients whose
    [isModal] is the modal mark [m_modal] and whose focus mode follows
    the ICCCM table of [updateWMHints] (WinClient.cc:422-434). *)

Definition modal_mark (wc : WinClient) : bool := m_modal wc.

Definition icccm_mode (wc : WinClient) : FocusMode :=
  match accepts_input wc, send_focus_message wc with
  | false, false => F_NOINPUT
  | true, false => F_PASSIVE
  | true, true => F_LOCALLYACTIVE
  | false, true => F_GLOBALLYACTIVE
  end.

Definition grant_layer (current requested : Z) : Z := requested.


(** a client that takes the focus directly *)
Definition client (tf : option Window) (ts : list Window) (w : option FbWin)
    (modal : bool) : WinClient :=
  mkWinClient tf ts w modal 0 true false.

(** a frame that is neither iconic nor locked *)
Definition frame (l : list Window) (active : Window) (layer : Z) : Frame :=
  mkFrame l (Some active) false false layer layer.

(** leaf (30) is transient for mid (20), mid for root (10); every client
    has a frame of its own, on the layers 6, 4 and 2 *)
Definition chain_state : State :=
  mkState
    {[ 10 := client None [20] (Some 1%nat) false;
       20 := client (Some 10) [30] (Some 2%nat) false;
       30 := client (Some 20) [] (Some 3%nat) false ]}
    {[ 1%nat := frame [10] 10 2; 2%nat := frame [20] 20 4;
       3%nat := frame [30] 30 6 ]}
    ∅ {[ 20 := 10; 30 := 20 ]} ∅ ∅ false [].

(** client 20 names the window 10, which has no WinClient yet; in
    [mutual_state] the window 10 names 20 in turn *)
Definition waiting_state : State :=
  mkState {[ 20 := client None [] None false ]} ∅ {[ 10 := [20] ]}
    {[ 20 := 10 ]} ∅ ∅ false [].

Definition mutual_state : State :=
  mkState {[ 20 := client None [] None false ]} ∅ {[ 10 := [20] ]}
    {[ 20 := 10; 10 := 20 ]} ∅ ∅ false [].

(** clients 20 and 40 wait for the window 10; 40 has since named the
    window 50, which has no WinClient either *)
Definition crowded_state : State :=
  mkState {[ 20 := client None [] None false; 40 := client None [] None false ]}
    ∅ {[ 10 := [40; 20] ]} {[ 20 := 10; 40 := 50 ]} ∅ ∅ false [].

(** client 20 waits for the window 10, which names the client 30 *)
Definition named_state : State :=
  mkState {[ 20 := client None [] None false; 30 := client None [] None false ]}
    ∅ {[ 10 := [20] ]} {[ 20 := 10; 10 := 30 ]} ∅ ∅ false [].

(** frame 1 holds the modal client 10, frame 2 its transient 20 *)
Definition modal_state (transient_modal : bool) : State :=
  mkState
    {[ 10 := client None [20] (Some 1%nat) true;
       20 := client (Some 10) [] (Some 2%nat) transient_modal ]}
    {[ 1%nat := frame [10] 10 2; 2%nat := frame [20] 20 2 ]}
    ∅ {[ 20 := 10 ]} ∅ ∅ false [].

(** frame 1 holds the tabs 10, 20 and 30 and 10 is active; in
    [tabs_state true] 10 is modal and its modal transient 20 is one of
    the tabs *)
Definition tabs_state (modal : bool) : State :=
  mkState
    {[ 10 := client None (if modal then [20] else []) (Some 1%nat) modal;
       20 := client (if modal then Some 10 else None) [] (Some 1%nat) modal;
       30 := client None [] (Some 1%nat) false ]}
    {[ 1%nat := frame [10; 20; 30] 10 2 ]}
    ∅ ∅ {[ 20 := 10; 30 := 20 ]} ∅ false [].


(** frame 1 holds 10; frame 2 holds 20 and 30; 40 is in no frame *)
Definition attach_state : State :=
  mkState
    {[ 10 := client None [] (Some 1%nat) false;
       20 := client None [] (Some 2%nat) false;
       30 := client None [] (Some 2%nat) false;
       40 := client None [] None false ]}
    {[ 1%nat := frame [10] 10 2; 2%nat := frame [20; 30] 30 2 ]}
    ∅ ∅ {[ 30 := 20 ]} ∅ false [].

(** 20 is transient for 10 and owns the transient 30; it is the active
    tab of frame 1, next to 40, and still sits on a waiting list *)
Definition family_state : State :=
  mkState
    {[ 10 := client None [20] None false;
       20 := client (Some 10) [30] (Some 1%nat) false;
       30 := client (Some 20) [] None false;
       40 := client None [] (Some 1%nat) false ]}
    {[ 1%nat := frame [20; 40] 20 2 ]}
    {[ 5 := [20; 40] ]} {[ 20 := 10; 30 := 20; 40 := 5 ]} ∅ ∅ false [].

(** hints with the aspect ratio 3/2 and nothing else *)
Definition aspect_hints : SizeHints := mkSizeHints 1 0 1 0 1 1 3 2 3 2 0 0.

(** the hints of the scenario: minimum 100x50, increments of 10 *)
Definition grid_hints : SizeHints := mkSizeHints 100 0 50 0 10 10 0 0 0 0 0 0.

(** ** fbrun: the run dialog and its command history (util/fbrun/FbRun.cc)

    A [std::string] is the list of its characters.  The dialog is an
    [FbTk::TextBox]; of the text box the history code uses [text ()],
    [cursorPosition ()] and [setText ()], and [XBell] is the only X
    request it sends. *)

Module FbRun.

Abbreviation str := (list Ascii.ascii) (only parsing).

Definition newline : Ascii.ascii := Ascii.ascii_of_nat 10.

Record TextBox := mkTextBox {
  text : str;
  cursorPosition : nat
}.

Record FbRun := mkFbRun {
  m_history : list str;
  m_current_history_item : nat;
  m_history_file : str;
  m_end : bool;
  box : TextBox;
  bells : nat;           (* calls of [XBell] so far *)
  spawned : list str     (* commands handed to [/bin/sh -c] so far *)
}.

Definition XBell (r : FbRun) : FbRun :=
  mkFbRun (m_history r) (m_current_history_item r) (m_history_file r) (m_end r)
    (box r) (S (bells r)) (spawned r).

(** [s.find (p)] of [std::string]: the lowest position at which [p]
    occurs in [s]; [None] is [npos]. *)
Fixpoint find (s p : str) {struct s} : option nat :=
  if decide (p `prefix_of` s) then Some O
  else match s with
       | [] => None
       | _ :: s' => S <$> find s' p
       end.

(** [std::getline (stream, line)] on the unread part of a stream: the
    line, what is left unread, and whether the end of the file was met
    before a newline (the stream's eofbit). *)
Fixpoint getline (rest : str) : str * str * bool :=
  match rest with
  | [] => ([], [], true)
  | c :: rest' =>
      if decide (c = newline) then ([], rest', false)
      else let '(line, rest'', eof) := getline rest' in (c :: line, rest'', eof)
  end.

(** The loop of [loadHistory] (FbRun.cc:169-173),
    [while (!infile.eof ()) { getline (infile, line);
                              if (line.size ()) m_history.push_back (line); }] *)
Fixpoint read_history (fuel : nat) (rest : str) (eof : bool) (history : list str)
  : option (list str) :=
  if eof then Some history
  else match fuel with
       | O => None
       | S n =>
           let '(line, rest', eof') := getline rest in
           (* don't add empty lines *)
           read_history n rest' eof'
             (if (length line =? 0)%nat then history else history ++ [line])
       end.

(** [FbRun::loadHistory] (FbRun.cc:156).  [filename] is [None] for the
    null pointer and [file] is what the file of that name holds, [None]
    when it cannot be opened for reading. *)
Definition loadHistory (filename : option str) (file : option str) (r : FbRun)
  : option (bool * FbRun) :=
  match filename with
  | None => Some (false, r)
  | Some name =>
      match file with
      | None =>
          (* even though we fail to load file, we should try save to it *)
          Some (false, mkFbRun (m_history r) (m_current_history_item r) name
                         (m_end r) (box r) (bells r) (spawned r))
      | Some infile =>
          history ← read_history (S (length infile)) infile false [];
          Some (true, mkFbRun history (length history) name (m_end r) (box r)
                        (bells r) (spawned r))
      end
  end.

(** The search of [run] for a duplicate of the text (FbRun.cc:128-133):
    the first position that holds [t], the size of the history if none *)
Fixpoint first_duplicate (t : str) (history : list str) : nat :=
  match history with
  | [] => O
  | e :: history' => if decide (e = t) then O else S (first_duplicate t history')
  end.

(** FbRun.cc:124-135: where [m_current_history_item] points when the
    history is written *)
Definition duplicate (r : FbRun) : nat :=
  if (m_current_history_item r <? length (m_history r))%nat &&
     bool_decide (m_history r !! m_current_history_item r = Some (text (box r)))
  then m_current_history_item r
  else first_duplicate (text (box r)) (m_history r).

(** An [std::fstream] opened with [ios::in | ios::out] on an existing
    file: the bytes of the file, the position shared by reading and
    writing, and the state bits.  Output overwrites from the position
    on and extends the file at its end; nothing truncates it.  An
    operation on a stream that is not [good ()] only sets failbit. *)
Record fstream := mkFstream {
  contents : str;
  pos : nat;
  eofbit : bool;
  failbit : bool
}.

Definition fs_open (file : str) : fstream := mkFstream file O false false.

Definition fs_getline (f : fstream) : fstream :=
  if eofbit f || failbit f then mkFstream (contents f) (pos f) (eofbit f) true
  else
    let '(line, rest, eof) := getline (drop (pos f) (contents f)) in
    mkFstream (contents f) (length (contents f) - length rest)%nat eof
      (eof && (length line =? 0)%nat).

Definition fs_write (s : str) (f : fstream) : fstream :=
  if eofbit f || failbit f then mkFstream (contents f) (pos f) (eofbit f) true
  else
    mkFstream (take (pos f) (contents f) ++ s
               ++ drop (pos f + length s)%nat (contents f))
      (pos f + length s)%nat false false.

(** [stream << s << endl] *)
Definition write_line (s : str) (f : fstream) : fstream :=
  fs_write [newline] (fs_write s f).

(** FbRun.cc:142-143, "read past history items before current": [k]
    counts the iterations that [i < m_current_history_item] still
    allows; the result is the final value of [i]. *)
Fixpoint read_past (k i : nat) (f : fstream) : nat * fstream :=
  match k with
  | O => (i, f)
  | S k' => if eofbit f then (i, f) else read_past k' (S i) (fs_getline f)
  end.

(** FbRun.cc:140-149: the history file is rewritten in place *)
Definition save_history (history : list str) (current : nat) (t : str)
    (f : fstream) : fstream :=
  let '(i, f) := read_past current O f in
  (* write the history items that come after current *)
  let f := foldl (λ f e, write_line e f) f (drop (S i) history) in
  (* and append the current one back to the end *)
  write_line t f.

(** [FbRun::run] (FbRun.cc:106).  [file] is what the history file holds,
    [None] when it cannot be opened for reading and writing; the result
    carries what it holds afterwards.  The child process only shows as
    an entry of [spawned]. *)
Definition run (command : str) (file : option str) (r : FbRun)
  : FbRun * option str :=
  let r := mkFbRun (m_history r) (m_current_history_item r) (m_history_file r)
             true (box r) (bells r) (spawned r ++ [command]) in
  (* no need to save empty command *)
  if (length (text (box r)) =? 0)%nat then (r, file)
  else
    let current := duplicate r in
    let r := mkFbRun (m_history r) current (m_history_file r) (m_end r) (box r)
               (bells r) (spawned r) in
    match file with
    | Some inoutfile =>
        (r, Some (contents (save_history (m_history r) current (text (box r))
                              (fs_open inoutfile))))
    | None => (r, None)
    end.

(** what [run] leaves in a history file for the commands [history] *)
Definition history_file (history : list str) : str :=
  concat (map (λ line, line ++ [newline]) history).

(** a command that [loadHistory] reads back as it was written *)
Definition command_line (line : str) : Prop := line ≠ [] ∧ newline ∉ line.

Section History.

(** [FbTk::TextBox::setText] is declared outside the three source
    files. *)
Variable setText : str -> TextBox -> TextBox.

(** [m_current_history_item = i; setText (s);] *)
Definition show (i : nat) (s : str) (r : FbRun) : FbRun :=
  mkFbRun (m_history r) i (m_history_file r) (m_end r) (setText s (box r))
    (bells r) (spawned r).

(** [FbRun::prevHistoryItem] (FbRun.cc:274); [None] where [m_history[i]]
    would index past the end of the vector *)
Definition prevHistoryItem (r : FbRun) : option FbRun :=
  if (length (m_history r) =? 0)%nat || (m_current_history_item r =? 0)%nat
  then Some (XBell r)
  else
    let i := (m_current_history_item r - 1)%nat in
    e ← m_history r !! i; Some (show i e r).

(** [FbRun::nextHistoryItem] (FbRun.cc:283) *)
Definition nextHistoryItem (r : FbRun) : option FbRun :=
  if (m_current_history_item r =? length (m_history r))%nat then Some (XBell r)
  else
    let i := S (m_current_history_item r) in
    if (i =? length (m_history r))%nat then Some (show (length (m_history r)) [] r)
    else e ← m_history r !! i; Some (show i e r).

(** [FbRun::firstHistoryItem] (FbRun.cc:296) *)
Definition firstHistoryItem (r : FbRun) : option FbRun :=
  if (length (m_history r) =? 0)%nat || (m_current_history_item r =? 0)%nat
  then Some (XBell r)
  else e ← m_history r !! O; Some (show O e r).

(** [FbRun::lastHistoryItem] (FbRun.cc:305) *)
Definition lastHistoryItem (r : FbRun) : option FbRun :=
  (* actually one past the end *)
  if (length (m_history r) =? 0)%nat then Some (XBell r)
  else Some (show (length (m_history r)) [] r).

(** The loop of [tabCompleteHistory] (FbRun.cc:321-328) with
    [history_item = k - 1]; the result is [Some i] when the loop breaks
    at [i] and [None] when it ends with [history_item == -1]. *)
Fixpoint tab_scan (history : list str) (prefix : str) (k : nat)
  : option (option nat) :=
  match k with
  | O => Some None
  | S i =>
      e ← history !! i;
      if decide (find e prefix = Some O) then Some (Some i)
      else tab_scan history prefix i
  end.

(** [FbRun::tabCompleteHistory] (FbRun.cc:315) *)
Definition tabCompleteHistory (r : FbRun) : option FbRun :=
  if (m_current_history_item r =? 0)%nat then Some (XBell r)
  else
    let prefix := take (cursorPosition (box r)) (text (box r)) in
    found ← tab_scan (m_history r) prefix (m_current_history_item r);
    match found with
    | Some i => e ← m_history r !! i; Some (show i e r)
    | None => Some (XBell r)
    end.

End History.

(** the cursor of the history stays within [0 .. m_history.size ()] *)
Definition cursor_ok (r : FbRun) : Prop :=
  (m_current_history_item r <= length (m_history r))%nat.

(** the text a history position stands for: the entry, or nothing at
    the position one past the end *)
Definition entry_at (r : FbRun) (i : nat) : str := default [] (m_history r !! i).

(** what a history command may do: ring the bell and change nothing
    else, or move the cursor within the history and show what is there *)
Definition history_step (r r' : FbRun) : Prop :=
  r' = XBell r ∨
  (m_history r' = m_history r ∧ bells r' = bells r ∧ cursor_ok r' ∧
   text (box r') = entry_at r' (m_current_history_item r')).

(** a text box whose [setText] puts the cursor behind the text *)
Definition setText_end (s : str) (tb : TextBox) : TextBox := mkTextBox s (length s).

(** a string literal as a [std::string] *)
Definition lit (s : String.string) : str := String.list_ascii_of_string s.

Section Literals.
Import Stdlib.Strings.String.
Local Open Scope string_scope.

(** the three commands ls, make and man; "m" typed, nothing selected *)
Definition three_commands : FbRun :=
  mkFbRun [lit "ls"; lit "make"; lit "man"] 3 [] false (mkTextBox (lit "m") 1) O [].

(** "make" typed again *)
Definition make_again : FbRun :=
  mkFbRun [lit "ls"; lit "make"; lit "man"] 3 [] false (mkTextBox (lit "make") 4) O [].

(** "make" selected while browsing *)
Definition browsing : FbRun :=
  mkFbRun [lit "ls"; lit "make"; lit "man"] 1 [] false (mkTextBox (lit "make") 4) O [].

(** "m" typed, the text cursor moved back to the start of the line *)
Definition at_line_start : FbRun :=
  mkFbRun [lit "ls"; lit "make"; lit "man"] 3 [] false (mkTextBox (lit "m") 0) O [].

(** a history file with an empty line and no newline at its end *)
Definition old_file_lines : list str := [lit "ls"; []; lit "make"].
Definition old_file_tail : str := lit "man".

Definition cmd_make : str := lit "make".
Definition cmd_man : str := lit "man".
Definition history_name : str := lit "history".

End Literals.

End FbRun.

(** ** WM_NORMAL_HINTS (WinClient.cc:471)

    The property as [XGetWMNormalHints] returns it: the <X11/Xutil.h>
    structure [XSizeHints], whose size fields are [int], and the flag
    bits of the same header. *)

Record XSizeHints := mkXSizeHints {
  xs_flags : Z;
  xs_min_width : Z;  xs_min_height : Z;
  xs_max_width : Z;  xs_max_height : Z;
  xs_width_inc : Z;  xs_height_inc : Z;
  xs_min_aspect_x : Z; xs_min_aspect_y : Z;
  xs_max_aspect_x : Z; xs_max_aspect_y : Z;
  xs_base_width : Z; xs_base_height : Z;
  xs_win_gravity : Z
}.

Definition PMinSize : Z := 2 ^ 4.
Definition PMaxSize : Z := 2 ^ 5.
Definition PResizeInc : Z := 2 ^ 6.
Definition PAspect : Z := 2 ^ 7.
Definition PBaseSize : Z := 2 ^ 8.
Definition PWinGravity : Z := 2 ^ 9.

Definition NorthWestGravity : Z := 1.

(** [sizehint.flags & bit] as a condition *)
Definition has_flag (sizehint : XSizeHints) (bit : Z) : bool :=
  negb (Z.land (xs_flags sizehint) bit =? 0).

(** [WinClient::updateWMNormalHints] (WinClient.cc:471).  [prop] is
    [None] when [XGetWMNormalHints] fails.  The result is
    [(m_size_hints, m_win_gravity, normal_hint_flags)]; the fields of
    [m_size_hints] are [unsigned int]. *)
Definition updateWMNormalHints (m_size_hints : SizeHints) (normal_hint_flags : Z)
    (prop : option XSizeHints) : SizeHints * Z * Z :=
  match prop with
  | None =>
      (mkSizeHints 1 0 1 0 1 1 0 0 0 0 1 1, NorthWestGravity, normal_hint_flags)
  | Some sizehint =>
      let '(min_w, min_h, base_w, base_h) :=
        if has_flag sizehint PMinSize then
          if negb (has_flag sizehint PBaseSize)
          then (to_unsigned (xs_min_width sizehint), to_unsigned (xs_min_height sizehint),
                to_unsigned (xs_min_width sizehint), to_unsigned (xs_min_height sizehint))
          else (to_unsigned (xs_min_width sizehint), to_unsigned (xs_min_height sizehint),
                base_width m_size_hints, base_height m_size_hints)
        else (1, 1, 0, 0) in
      let '(min_w, min_h, base_w, base_h) :=
        if has_flag sizehint PBaseSize then
          if negb (has_flag sizehint PMinSize)
          then (to_unsigned (xs_base_width sizehint), to_unsigned (xs_base_height sizehint),
                to_unsigned (xs_base_width sizehint), to_unsigned (xs_base_height sizehint))
          else (min_w, min_h,
                to_unsigned (xs_base_width sizehint), to_unsigned (xs_base_height sizehint))
        else (min_w, min_h, base_w, base_h) in
      let '(max_w, max_h) :=
        if has_flag sizehint PMaxSize
        then (to_unsigned (xs_max_width sizehint), to_unsigned (xs_max_height sizehint))
        else (0, 0) (* unbounded *) in
      let '(inc_w, inc_h) :=
        if has_flag sizehint PResizeInc
        then (to_unsigned (xs_width_inc sizehint), to_unsigned (xs_height_inc sizehint))
        else (1, 1) in
      let inc_w := if inc_w =? 0 then 1 else inc_w in
      let inc_h := if inc_h =? 0 then 1 else inc_h in
      let '(min_ax, min_ay, max_ax, max_ay) :=
        if has_flag sizehint PAspect
        then (to_unsigned (xs_min_aspect_x sizehint), to_unsigned (xs_min_aspect_y sizehint),
              to_unsigned (xs_max_aspect_x sizehint), to_unsigned (xs_max_aspect_y sizehint))
        else (0, 0, 0, 0) in
      (mkSizeHints min_w max_w min_h max_h inc_w inc_h min_ax min_ay max_ax max_ay
         base_w base_h,
       if has_flag sizehint PWinGravity then xs_win_gravity sizehint
       else NorthWestGravity,
       xs_flags sizehint)
  end.

(** a property whose size fields are all non-negative [int]s *)
Definition natural_sizes (p : XSizeHints) : Prop :=
  Forall (λ v, 0 <= v < 2 ^ 31)
    [xs_min_width p; xs_min_height p; xs_max_width p; xs_max_height p;
     xs_width_inc p; xs_height_inc p; xs_base_width p; xs_base_height p].

(** the size a terminal asks for: 80x24 cells of 7x14 on a base of 4x4 *)
Definition terminal_hints : XSizeHints :=
  mkXSizeHints (PMinSize + PResizeInc + PBaseSize) 11 18 0 0 7 14 0 0 0 0 4 4 0.

(** hints with a maximum: between 100x50 and 400x300 in steps of 10 *)
Definition boxed_hints : SizeHints := mkSizeHints 100 400 50 300 10 10 0 0 0 0 0 0.

(** ** Edge snapping while a window is moved (Window.cc:2801-2896)

    The arithmetic is on [int]; a result that leaves the range of
    [int] wraps around. *)

(** [abs (a - b)] and [-(a - b)] on [int] *)
Definition int_distance (a b : Z) : Z := to_signed (Z.abs (to_signed (a - b))).
Definition int_offset (a b : Z) : Z := to_signed (- to_signed (a - b)).

(** [if (abs (a - b) < abs (limit)) limit = -(a - b);] *)
Definition snap_edge (limit a b : Z) : Z :=
  if int_distance a b <? to_signed (Z.abs limit) then int_offset a b else limit.

(** [snapToWindow] (Window.cc:2801): the two reference parameters
    [xlimit] and [ylimit] after the call *)
Definition snapToWindow (xlimit ylimit left right top bottom
                         oleft oright otop obottom : Z) : Z * Z :=
  (* for left + right, need to be in the right y range *)
  let xlimit :=
    if (top <=? obottom) && (bottom >=? otop) then
      let xlimit := snap_edge xlimit left oleft in
      let xlimit := snap_edge xlimit right oleft in
      let xlimit := snap_edge xlimit left oright in
      snap_edge xlimit right oright
    else xlimit in
  (* for top + bottom, need to be in the right x range *)
  let ylimit :=
    if (left <=? oright) && (right >=? oleft) then
      let ylimit := snap_edge ylimit top otop in
      let ylimit := snap_edge ylimit bottom otop in
      let ylimit := snap_edge ylimit top obottom in
      snap_edge ylimit bottom obottom
    else ylimit in
  (xlimit, ylimit).

(** What [doSnapping] reads from the screen, the frame and the current
    workspace: the snap threshold, the border width, the size of the
    window, the areas [maxLeft, maxRight, maxTop, maxBottom] of the
    Xinerama heads 1 .. numHeads (or [None] without Xinerama), the size
    of the screen, and for each window of the workspace whether it is
    this window and its [x ()], [y ()], [width ()], [height ()]. *)
Record SnapEnv := mkSnapEnv {
  edgeSnapThreshold : Z;
  borderWidth : Z;
  my_width : Z;
  my_height : Z;
  xinerama_heads : option (list (Z * Z * Z * Z));
  screen_width : Z;
  screen_height : Z;
  windowList : list (bool * (Z * Z * Z * Z))
}.

(** [FluxboxWindow::doSnapping] (Window.cc:2834): the reference
    parameters [orig_left] and [orig_top] after the call *)
Definition doSnapping (env : SnapEnv) (orig_left orig_top : Z) : Z * Z :=
  if edgeSnapThreshold env =? 0 then (orig_left, orig_top)
  else
    (* Keep track of our best offsets so far *)
    let dx := to_signed (edgeSnapThreshold env + 1) in
    let dy := to_signed (edgeSnapThreshold env + 1) in
    let borderW := to_signed (borderWidth env) in
    let top := orig_top in
    let left := orig_left in
    let right := to_signed (orig_left + my_width env + 2 * borderW) in
    let bottom := to_signed (orig_top + my_height env + 2 * borderW) in
    (* begin by checking the screen (or Xinerama head) edges *)
    let '(dx, dy) :=
      match xinerama_heads env with
      | Some heads =>
          foldl (λ '(dx, dy) '(l, r, t, b),
                   snapToWindow dx dy left right top bottom
                     (to_signed l) (to_signed r) (to_signed t) (to_signed b))
            (dx, dy) heads
      | None =>
          snapToWindow dx dy left right top bottom
            0 (to_signed (screen_width env)) 0 (to_signed (screen_height env))
      end in
    (* now check window edges *)
    let '(dx, dy) :=
      foldl (λ '(dx, dy) '(is_this, (x, y, w, h)),
               if is_this : bool then (dx, dy) (* skip myself *)
               else snapToWindow dx dy left right top bottom
                      x (to_signed (x + w + 2 * borderW))
                      y (to_signed (y + h + 2 * borderW)))
        (dx, dy) (windowList env) in
    (* commit *)
    (if dx <=? edgeSnapThreshold env then to_signed (orig_left + dx) else orig_left,
     if dy <=? edgeSnapThreshold env then to_signed (orig_top + dy) else orig_top).

(** the vertical and the horizontal lines that a window can snap to:
    the edges of the screen or of the heads, and for every other window
    its position and its position plus its size plus twice the border
    width of the moved window (Window.cc:2885 and 2887) *)
Definition x_edges (env : SnapEnv) : list Z :=
  match xinerama_heads env with
  | Some heads => flat_map (λ '(l, r, _, _), [l; r]) heads
  | None => [0; screen_width env]
  end ++
  flat_map (λ '(is_this, (x, _, w, _)),
              if is_this : bool then [] else [x; x + w + 2 * borderWidth env])
    (windowList env).

Definition y_edges (env : SnapEnv) : list Z :=
  match xinerama_heads env with
  | Some heads => flat_map (λ '(_, _, t, b), [t; b]) heads
  | None => [0; screen_height env]
  end ++
  flat_map (λ '(is_this, (_, y, _, h)),
              if is_this : bool then [] else [y; y + h + 2 * borderWidth env])
    (windowList env).

(** an offset that the search of [doSnapping] holds: the initial one
    [d0], or a shorter one that carries one of the edges [mine] of the
    moved window onto one of the edges [theirs] *)
Definition snap_offset (theirs mine : list Z) (d0 d : Z) : Prop :=
  d = d0 ∨ (Z.abs d < Z.abs d0 ∧ ∃ e a, e ∈ theirs ∧ a ∈ mine ∧ d = e - a).

(** coordinates and sizes as they occur on a screen *)
Definition on_screen (z : Z) : Prop := - 2 ^ 28 <= z < 2 ^ 28.

Definition snap_env_ok (env : SnapEnv) : Prop :=
  0 <= edgeSnapThreshold env < 2 ^ 28 ∧
  0 <= borderWidth env < 2 ^ 28 ∧
  0 <= my_width env < 2 ^ 28 ∧ 0 <= my_height env < 2 ^ 28 ∧
  0 <= screen_width env < 2 ^ 28 ∧ 0 <= screen_height env < 2 ^ 28 ∧
  (∀ heads, xinerama_heads env = Some heads →
     Forall (λ '(l, r, t, b), 0 <= l < 2 ^ 28 ∧ 0 <= r < 2 ^ 28 ∧
                              0 <= t < 2 ^ 28 ∧ 0 <= b < 2 ^ 28) heads) ∧
  Forall (λ '(_, (x, y, w, h)), on_screen x ∧ on_screen y ∧
                                0 <= w < 2 ^ 28 ∧ 0 <= h < 2 ^ 28)
    (windowList env).

(** a 1280x1024 screen without Xinerama, a threshold of 10 pixels and
    a border of 1: this window is 300x200; another window of 400x300
    lies at (500, 100) *)
Definition desk : SnapEnv :=
  mkSnapEnv 10 1 300 200 None 1280 1024
    [(true, (40, 60, 300, 200)); (false, (500, 100, 400, 300))].

(** ** Decorations (Window.cc:2556-2697)

    The [decorations] and [functions] structures of a FluxboxWindow
    and what [applyDecorations] commits to the frame. *)

Record Decorations := mkDecorations {
  dec_titlebar : bool; dec_handle : bool; dec_border : bool;
  dec_iconify : bool; dec_maximize : bool; dec_close : bool;
  dec_menu : bool; dec_sticky : bool; dec_shade : bool;
  dec_tab : bool; dec_enabled : bool
}.

Record Functions := mkFunctions {
  fun_resize : bool; fun_move : bool; fun_iconify : bool;
  fun_maximize : bool; fun_close : bool
}.

Inductive Decoration := DECOR_NONE | DECOR_NORMAL | DECOR_TINY | DECOR_TOOL.

(** the frame as far as [applyDecorations] sets it: whether titlebar
    and handle are shown, and the border width *)
Record FrameDecor := mkFrameDecor {
  titlebar_shown : bool;
  handle_shown : bool;
  frame_borderWidth : Z
}.

Record DecorWindow := mkDecorWindow {
  decorations : Decorations;
  functions : Functions;
  m_old_decoration : Decoration;
  shaded : bool;
  frame_decor : FrameDecor
}.

Definition with_decorations (d : Decorations) (w : DecorWindow) : DecorWindow :=
  mkDecorWindow d (functions w) (m_old_decoration w) (shaded w) (frame_decor w).

Definition with_dec_enabled (b : bool) (w : DecorWindow) : DecorWindow :=
  let d := decorations w in
  with_decorations
    (mkDecorations (dec_titlebar d) (dec_handle d) (dec_border d) (dec_iconify d)
       (dec_maximize d) (dec_close d) (dec_menu d) (dec_sticky d) (dec_shade d)
       (dec_tab d) b) w.

Section Decor.

(** [screen ().rootTheme ().borderWidth ()] *)
Variable theme_borderWidth : Z.

(** The mask constants of Window.hh. *)
Variables DECORM_TITLEBAR DECORM_HANDLE DECORM_BORDER DECORM_ICONIFY
  DECORM_MAXIMIZE DECORM_CLOSE DECORM_MENU DECORM_STICKY DECORM_SHADE
  DECORM_TAB DECORM_ENABLED : Z.

(** [FluxboxWindow::applyDecorations] (Window.cc:2598): the frame does
    nothing where it is asked for what it shows already *)
Definition applyDecorations (w : DecorWindow) : DecorWindow :=
  mkDecorWindow (decorations w) (functions w) (m_old_decoration w) (shaded w)
    (mkFrameDecor (dec_titlebar (decorations w)) (dec_handle (decorations w))
       (if dec_border (decorations w) then theme_borderWidth else 0)).

(** [FluxboxWindow::setDecoration] (Window.cc:2556).  Of [reconfigure]
    (Window.cc:873) only the call of [applyDecorations] touches what
    is modelled here. *)
Definition setDecoration (decoration : Decoration) (w : DecorWindow) : DecorWindow :=
  let d := decorations w in
  let f := functions w in
  let '(d, f) :=
    match decoration with
    | DECOR_NONE =>
        (mkDecorations false false false false false (dec_close d) true
           (dec_sticky d) (dec_shade d) false (dec_enabled d), f)
    | DECOR_NORMAL =>
        (mkDecorations true true true true true (dec_close d) true
           (dec_sticky d) (dec_shade d) (dec_tab d) (dec_enabled d),
         mkFunctions true true true true (fun_close f))
    | DECOR_TINY =>
        (mkDecorations true false false true false (dec_close d) true
           (dec_sticky d) (dec_shade d) (dec_tab d) (dec_enabled d),
         mkFunctions false true true false (fun_close f))
    | DECOR_TOOL =>
        (mkDecorations true false false false false (dec_close d) true
           (dec_sticky d) (dec_shade d) (dec_tab d) (dec_enabled d),
         mkFunctions false true false false (fun_close f))
    end in
  let w := mkDecorWindow d f (m_old_decoration w) (shaded w) (frame_decor w) in
  let w := applyDecorations w in
  (* is this reconfigure necessary??? *)
  applyDecorations w.

(** [FluxboxWindow::toggleDecoration] (Window.cc:2627) *)
Definition toggleDecoration (w : DecorWindow) : DecorWindow :=
  (* don't toggle decor if the window is shaded *)
  if shaded w then w
  else if dec_enabled (decorations w) then
    with_dec_enabled false (setDecoration DECOR_NONE w)
  else
    with_dec_enabled true
      (match m_old_decoration w with
       | DECOR_NONE => setDecoration DECOR_NORMAL w (* make sure something happens *)
       | d => setDecoration d w
       end).

(** [FluxboxWindow::decorationMask] (Window.cc:2657) *)
Definition decorationMask (w : DecorWindow) : Z :=
  let d := decorations w in
  let ret := 0 in
  let ret := if dec_titlebar d then Z.lor ret DECORM_TITLEBAR else ret in
  let ret := if dec_handle d then Z.lor ret DECORM_HANDLE else ret in
  let ret := if dec_border d then Z.lor ret DECORM_BORDER else ret in
  let ret := if dec_iconify d then Z.lor ret DECORM_ICONIFY else ret in
  let ret := if dec_maximize d then Z.lor ret DECORM_MAXIMIZE else ret in
  let ret := if dec_close d then Z.lor ret DECORM_CLOSE else ret in
  let ret := if dec_menu d then Z.lor ret DECORM_MENU else ret in
  let ret := if dec_sticky d then Z.lor ret DECORM_STICKY else ret in
  let ret := if dec_shade d then Z.lor ret DECORM_SHADE else ret in
  let ret := if dec_tab d then Z.lor ret DECORM_TAB else ret in
  let ret := if dec_enabled d then Z.lor ret DECORM_ENABLED else ret in
  ret.

(** [mask & bit] assigned to a [bool] *)
Definition mask_bit (mask bit : Z) : bool := negb (Z.land mask bit =? 0).

(** [FluxboxWindow::setDecorationMask] (Window.cc:2684) *)
Definition setDecorationMask (mask : Z) (w : DecorWindow) : DecorWindow :=
  applyDecorations
    (with_decorations
       (mkDecorations (mask_bit mask DECORM_TITLEBAR) (mask_bit mask DECORM_HANDLE)
          (mask_bit mask DECORM_BORDER) (mask_bit mask DECORM_ICONIFY)
          (mask_bit mask DECORM_MAXIMIZE) (mask_bit mask DECORM_CLOSE)
          (mask_bit mask DECORM_MENU) (mask_bit mask DECORM_STICKY)
          (mask_bit mask DECORM_SHADE) (mask_bit mask DECORM_TAB)
          (mask_bit mask DECORM_ENABLED))
       w).

End Decor.

(** the flags that [setDecoration] assigns for every decoration other
    than the tab flag: titlebar, handle, border, iconify, maximize and
    menu *)
Definition decoration_flags (d : Decorations) : list bool :=
  [dec_titlebar d; dec_handle d; dec_border d; dec_iconify d; dec_maximize d;
   dec_menu d].

(** masks that are different single bits, [1 << n] each *)
Definition single_bits (masks : list Z) : Prop :=
  ∃ ns, NoDup ns ∧ Forall (λ n, 0 <= n) ns ∧ masks = map (λ n, 2 ^ n) ns.

(** the window as [FluxboxWindow::init] decorates it (Window.cc:383-394),
    with a theme border of 1 *)
Definition fresh_window : DecorWindow :=
  mkDecorWindow
    (mkDecorations true true true true true true true true true true true)
    (mkFunctions true true true true true) DECOR_NORMAL false
    (mkFrameDecor true true 1).

(** the bits 0 to 10 in the order of the mask constants *)
Definition decor_positions : list Z := [0; 1; 2; 3; 4; 5; 6; 7; 8; 9; 10].

(** ** Window gravity (Window.cc:1675, 1860)

    The gravities of <X11/X.h>; the geometry of the frame as
    [frame ()] reports it: [x ()] and [y ()] are [int], the sizes are
    [unsigned int]. *)

Definition ForgetGravity : Z := 0.
Definition NorthGravity : Z := 2.
Definition NorthEastGravity : Z := 3.
Definition WestGravity : Z := 4.
Definition CenterGravity : Z := 5.
Definition EastGravity : Z := 6.
Definition SouthWestGravity : Z := 7.
Definition SouthGravity : Z := 8.
Definition SouthEastGravity : Z := 9.
Definition StaticGravity : Z := 10.

Record FrameGeometry := mkFrameGeometry {
  frame_x : Z;
  frame_y : Z;
  frame_width : Z;
  frame_height : Z;
  clientArea_width : Z;
  clientArea_height : Z
}.

(** [frame ().move (x, y)] *)
Definition frame_move (x y : Z) (fr : FrameGeometry) : FrameGeometry :=
  mkFrameGeometry x y (frame_width fr) (frame_height fr)
    (clientArea_width fr) (clientArea_height fr).

(** the cases of the two [switch] statements that translate *)
Definition eastward (win_gravity : Z) : bool :=
  (win_gravity =? NorthEastGravity) || (win_gravity =? EastGravity)
  || (win_gravity =? SouthEastGravity).
Definition southbound (win_gravity : Z) : bool :=
  (win_gravity =? SouthWestGravity) || (win_gravity =? SouthGravity)
  || (win_gravity =? SouthEastGravity).

(** [FluxboxWindow::setGravityOffsets] (Window.cc:1675) *)
Definition setGravityOffsets (win_gravity : Z) (fr : FrameGeometry) : FrameGeometry :=
  let newx :=
    if eastward win_gravity
    then to_signed (frame_x fr + clientArea_width fr - frame_width fr)
    else frame_x fr in
  let newy :=
    if southbound win_gravity
    then to_signed (frame_y fr + clientArea_height fr - frame_height fr)
    else frame_y fr in
  (* finaly move the frame *)
  if negb (frame_x fr =? newx) || negb (frame_y fr =? newy)
  then frame_move newx newy fr else fr.

(** [FluxboxWindow::restoreGravity] (Window.cc:1860): the position
    stored in [m_client->x] and [m_client->y], for a client window of
    the given size *)
Definition restoreGravity (win_gravity : Z) (fr : FrameGeometry)
    (client_width client_height : Z) : Z * Z :=
  (if eastward win_gravity
   then to_signed (frame_x fr + frame_width fr - client_width)
   else frame_x fr,
   if southbound win_gravity
   then to_signed (frame_y fr + frame_height fr - client_height)
   else frame_y fr).

(** a frame of 308x224 around a client area of 300x200 *)
Definition decorated_frame : FrameGeometry := mkFrameGeometry 100 50 308 224 300 200.

(** ** More of the transient graph *)

(** every client with a [transient_for] pointer is an entry of the
    transient list of the client it points to *)
Definition tf_listed (s : State) : Prop :=
  ∀ c p, transientFor s c = Some p → c ∈ transientList s p.

Definition wc_modal (v : bool) (c : WinClient) : WinClient :=
  mkWinClient (transient_for c) (transients c) (m_win c) v (m_modal_count c)
    (accepts_input c) (send_focus_message c).

(** the frame of the root client [wr] and the frames of those of its
    transients that are not iconic are on layer [L] in [s'], and every
    other frame (the iconic ones, and those that hold no transient of
    the root) and every client is as in [s] *)
Definition family_on_layer (s s' : State) (wr : WinClient) (L : Z) : Prop :=
  clients s' = clients s ∧
  (∀ win, m_win wr = Some win → m_layernum <$> frames s' !! win = Some L) ∧
  (∀ t wt g fg, t ∈ transients wr → clients s !! t = Some wt →
                m_win wt = Some g → frames s !! g = Some fg → iconic fg = false →
                m_layernum <$> frames s' !! g = Some L) ∧
  (∀ g, m_win wr ≠ Some g →
        (∀ t wt, t ∈ transients wr → clients s !! t = Some wt → m_win wt = Some g →
                 iconic <$> frames s !! g = Some true) →
        frames s' !! g = frames s !! g).

(** [chain_state] after the root 10 has declared itself transient for
    the leaf 30 *)
Definition relink_state : State := with_hint <[10 := 30]> chain_state.

(** ** Operations *)

Section Fluxbox.

Set Default Proof Using "Type".

(** Declared outside the three source files: the root window of the
    screen, [WinClient::isModal] and [WinClient::getFocusMode]
    (WinClient.hh), the menu layer number ([Fluxbox::getMenuLayer]), the
    layer an [XLayerItem] of a given layer ends in when
    [XLayerItem::moveToLayer] is asked for a layer number (FbTk), and
    [FluxboxWindow::deiconify], which re-maps a frame and whose details
    play no part below. *)
Variable rootWindow : Window.
Variable isModal : WinClient -> bool.
Variable getFocusMode : WinClient -> FocusMode.
Variable getMenuLayer : Z.
Variable layerItem_moveToLayer : Z -> Z -> Z.
Variable deiconify : State -> FbWin -> State.

(** *** WinClient.cc: the transient graph *)

(** [WinClient::removeTransientFromWaitingList] (WinClient.cc:850):
    [this] leaves every waiting list, and the lists that are empty
    afterwards are erased. *)
Definition removeTransientFromWaitingList (this : Window) (s : State) : State :=
  with_wait (omap (λ l, match list_remove this l with
                        | [] => None
                        | l' => Some l'
                        end)) s.

(** The loop of WinClient.cc:331-334,
    [for (w = this; w != 0; w = w->transient_for)
       if (this == w->transient_for) w->transient_for = 0;]
    started at [w].  After the assignment [w->transient_for] is null and
    the loop ends. *)
Fixpoint break_loop (fuel : nat) (s : State) (this w : Window) : option State :=
  match fuel with
  | O => None
  | S n =>
      match transientFor s w with
      | None => Some s
      | Some p =>
          if decide (p = this) then Some (upd_client w (wc_transient_for None) s)
          else break_loop n s this p
      end
  end.

(** [if (m_modal) p->addModal();] and [if (m_modal) p->removeModal();]:
    the two members are declared in WinClient.hh and step the counter
    [m_modal_count] of [p] up and down. *)
Definition modal_step (b : bool) (f : Z -> Z) (p : Window) (s : State) : State :=
  if b then upd_client p (wc_modal_count f) s else s.

(** WinClient.cc:276-283, "remove this from parent" *)
Definition leave_parent (s : State) (this : Window) : option State :=
  wc ← clients s !! this;
  s ← match transient_for wc with
      | Some p =>
          _ ← clients s !! p;
          let s := upd_client p (wc_transients (list_remove this)) s in
          Some (modal_step (m_modal wc) Z.pred p s)
      | None => Some s
      end;
  Some (upd_client this (wc_transient_for None) s).

(** WinClient.cc:308-342: look the declared window [win] up, wait for it
    if it has no WinClient yet, break a loop, enter the parent's list *)
Definition resolve_parent (s : State) (this win : Window) : option State :=
  wc ← clients s !! this;
  let found := match clients s !! win with
               | Some _ => Some win
               | None => None
               end in
  let s := upd_client this (wc_transient_for found) s in
  let s := match found with
           | Some _ => s
           | None =>
               with_wait (λ m, <[win := default [] (m !! win) ++ [this]]> m)
                 (removeTransientFromWaitingList this s)
           end in
  (* make sure we don't have deadlock loop in transient chain *)
  s ← break_loop (S (S (size (clients s)))) s this this;
  match transientFor s this with
  | Some p =>
      _ ← clients s !! p;
      let s := upd_client p (wc_transients (λ l, l ++ [this])) s in
      Some (modal_step (m_modal wc) Z.succ p s)
  | None => Some s
  end.

(** [WinClient::updateTransientInfo] (WinClient.cc:275).
    [XGetTransientForHint] reads the [WM_TRANSIENT_FOR] property of the
    client's window. *)
Definition updateTransientInfo (s : State) (this : Window) : option State :=
  s ← leave_parent s this;
  (* determine if this is a transient window *)
  match x_transient_for s !! this with
  | None => Some s
  | Some win =>
      (* we can't be transient to ourself *)
      if decide (win = this) then Some s
      (* transient for root window... *)
      else if decide (win ≠ 0 ∧ rootWindow = win) then Some s
      else resolve_parent s this win
  end.

(** One step of the walk of the constructor over the waiting list
    [waiting] of [win] (WinClient.cc:107-109): the waiter [t] is
    re-resolved.  A waiter whose hint by now names a window without
    WinClient takes itself off every waiting list (WinClient.cc:861),
    the list under iteration included, and a list that is empty
    afterwards is erased from the map (WinClient.cc:872); [for_each]
    would go on from an erased node, which C++ leaves undefined. *)
Definition walk_waiting (win : Window) (waiting : list Window) (s : State)
    (t : Window) : option State :=
  s ← updateTransientInfo s t;
  if decide (s_transient_wait s !! win = Some waiting) then Some s else None.

(** [WinClient::WinClient] (WinClient.cc:65), for a window [win] that has
    no WinClient yet.  [input] and [take_focus] stand for what
    [updateWMHints] and [updateWMProtocols] read from the X server. *)
Definition WinClient_new (s : State) (win : Window) (fbwin : option FbWin)
    (input take_focus : bool) : option State :=
  let s := with_clients
             <[win := mkWinClient None [] fbwin false 0 input take_focus]> s in
  (* search for this in transient waiting list *)
  s ← match s_transient_wait s !! win with
      | Some waiting =>
          (* For each transient that waits call updateTransientInfo *)
          s ← for_each (walk_waiting win waiting) waiting s;
          (* clear transient waiting list for this window *)
          Some (with_wait (delete win) s)
      | None => Some s
      end;
  (* also check if this window is a transient *)
  updateTransientInfo s win.

(** What the window manager does with the notifications that concern the
    transient graph: a new top-level window, a changed
    [WM_TRANSIENT_FOR] property, and the re-resolution that follows it.
    A notification for a window in the wrong state is ignored. *)
Inductive Event :=
| EvRegister (win : Window) (fbwin : option FbWin) (input take_focus : bool)
| EvHint (win : Window) (hint : option Window)
| EvRelink (win : Window).

Definition dispatch (s : State) (e : Event) : option State :=
  match e with
  | EvRegister win fbwin input take_focus =>
      match clients s !! win with
      | Some _ => Some s
      | None => WinClient_new s win fbwin input take_focus
      end
  | EvHint win hint =>
      Some (with_hint (match hint with
                       | Some h => <[win := h]>
                       | None => delete win
                       end) s)
  | EvRelink win =>
      match clients s !! win with
      | Some _ => updateTransientInfo s win
      | None => Some s
      end
  end.

Fixpoint run (s : State) (es : list Event) : option State :=
  match es with
  | [] => Some s
  | e :: es' => s' ← dispatch s e; run s' es'
  end.

(** *** Window.cc: tab groups and focus *)

(** [WinClient::sendFocus] (WinClient.cc:179) *)
Definition sendFocus (s : State) (c : Window) : option (bool * State) :=
  wc ← clients s !! c;
  if accepts_input wc then Some (true, xcall (XSetInputFocus c) s)
  else if negb (send_focus_message wc) then Some (false, s)
  else Some (true, xcall (XSendTakeFocus c) s).

(** the scan of Window.cc:1099-1104: the first transient that is modal *)
Fixpoint first_modal (s : State) (l : list Window) : option (option Window) :=
  match l with
  | [] => Some None
  | t :: l' =>
      wt ← clients s !! t;
      if isModal wt then Some (Some t) else first_modal s l'
  end.

(** [FluxboxWindow::setCurrentClient] (Window.cc:817), with the call of
    [setInputFocus] on the same frame passed as [focus] *)
Definition setCurrentClient_with (focus : State -> FbWin -> option (bool * State))
    (s : State) (this : FbWin) (client : Window) (setinput : bool)
  : option (bool * State) :=
  wc ← clients s !! client;
  _ ← frames s !! this;
  (* make sure it's in our list *)
  if decide (m_win wc = Some this) then
    let s := upd_frame this (fr_client (Some client)) s in
    let s := xcall (XRaiseWindow client) s in
    if setinput then focus s this else Some (false, s)
  else Some (false, s).

(** [FluxboxWindow::setInputFocus] (Window.cc:1064).  Lines 1067-1091
    only move a frame that lies off screen back onto it; the geometry of
    a frame is not part of the model.  [validateClient] (Window.cc:2699)
    looks for a queued DestroyNotify or UnmapNotify of the active
    client's window. *)
Fixpoint setInputFocus (fuel : nat) (s : State) (this : FbWin) : option (bool * State) :=
  match fuel with
  | O => None
  | S n =>
      f ← frames s !! this;
      a ← m_client f;
      if decide (a ∈ x_gone s) then Some (false, s)
      else
        wa ← clients s !! a;
        if negb (bool_decide (transients wa = [])) && isModal wa then
          scan ← first_modal s (transients wa);
          match scan with
          | Some t =>
              wt ← clients s !! t;
              g ← m_win wt;
              setCurrentClient_with (setInputFocus n) s g t true
          | None => Some (false, s)
          end
        else
          match getFocusMode wa with
          | F_LOCALLYACTIVE | F_PASSIVE =>
              let s := xcall (XSetInputFocus a) s in
              let s := xcall (SetFocusedWindow this a) s in
              '(_, s) ← sendFocus s a;
              Some (true, s)
          | _ => Some (false, s)
          end
  end.

Definition setCurrentClient (fuel : nat) : State -> FbWin -> Window -> bool
                                          -> option (bool * State) :=
  setCurrentClient_with (setInputFocus fuel).

(** the element that follows the first occurrence of [x], if [x] occurs *)
Fixpoint find_next (x : Window) (l : list Window) : option (option Window) :=
  match l with
  | [] => None
  | y :: l' => if decide (y = x) then Some (head l') else find_next x l'
  end.

(** the element that precedes the first occurrence of [x], if [x] occurs *)
Fixpoint find_prev (prev : option Window) (x : Window) (l : list Window)
  : option (option Window) :=
  match l with
  | [] => None
  | y :: l' => if decide (y = x) then Some prev else find_prev (Some y) x l'
  end.

(** the tail of [nextClient] and [prevClient]: raise the new active
    client, mark its tab, give it the focus *)
Definition activate (fuel : nat) (s : State) (this : FbWin) (c : option Window)
  : option State :=
  c ← c;
  let s := upd_frame this (fr_client (Some c)) s in
  let s := xcall (XRaiseWindow c) s in
  '(_, s) ← setInputFocus fuel s this;
  Some s.

(** [FluxboxWindow::nextClient] (Window.cc:778) *)
Definition nextClient (fuel : nat) (s : State) (this : FbWin) : option State :=
  f ← frames s !! this;
  if (length (m_clientlist f) <=? 1)%nat then Some s
  else
    match m_client f ≫= λ c, find_next c (m_clientlist f) with
    | None => Some (upd_frame this (fr_client (head (m_clientlist f))) s)
    | Some None => activate fuel s this (head (m_clientlist f))
    | Some (Some c) => activate fuel s this (Some c)
    end.

(** [FluxboxWindow::prevClient] (Window.cc:798) *)
Definition prevClient (fuel : nat) (s : State) (this : FbWin) : option State :=
  f ← frames s !! this;
  if (length (m_clientlist f) <=? 1)%nat then Some s
  else
    match m_client f ≫= λ c, find_prev None c (m_clientlist f) with
    | None => Some (upd_frame this (fr_client (head (m_clientlist f))) s)
    | Some None => activate fuel s this (last (m_clientlist f))
    | Some (Some c) => activate fuel s this (Some c)
    end.

(** [FluxboxWindow::removeClient] (Window.cc:716) *)
Definition removeClient (fuel : nat) (s : State) (this : FbWin) (client : Window)
  : option (bool * State) :=
  wc ← clients s !! client;
  f ← frames s !! this;
  if bool_decide (m_win wc ≠ Some this) || (length (m_clientlist f) =? 0)%nat
  then Some (false, s)
  else
    (* if it is our active client, deal with it... *)
    s ← (if decide (m_client f = Some client) then
           if decide (last (m_clientlist f) = Some client)
           then prevClient fuel s this
           else nextClient fuel s this
         else Some s);
    let s := upd_client client (wc_m_win None) s in
    let s := upd_frame this (fr_clientlist (list_remove client)) s in
    f ← frames s !! this;
    let s := if decide (m_client f = Some client)
             then upd_frame this (fr_client (last (m_clientlist f))) s
             else s in
    Some (true, s).

(** [WinClient::setGroupLeftWindow] (WinClient.cc:569) *)
Definition setGroupLeftWindow (c win : Window) (s : State) : State :=
  if shutting_down s then s else with_group_left <[c := win]> s.



(** [FluxboxWindow::attachClient] (Window.cc:548).  The donor frame is
    deleted with a null [m_client] and an empty list, so its destructor
    deletes no client. *)
Definition attachClient (s : State) (this : FbWin) (client : Window) : option State :=
  wc ← clients s !! client;
  f ← frames s !! this;
  if decide (m_win wc = Some this) then Some s
  else
    (* get the current window on the end of our client list *)
    let leftwin := default 0 (last (m_clientlist f)) in
    let s := setGroupLeftWindow client leftwin s in
    s ← match m_win wc with
        | Some old_win =>
            old ← frames s !! old_win;
            s ← for_each (λ s c, _ ← clients s !! c;
                                 Some (upd_client c (wc_m_win (Some this)) s))
                  (m_clientlist old) s;
            (* move over all attached clients from the old window *)
            let s := upd_frame this (fr_clientlist (λ l, l ++ m_clientlist old)) s in
            let s := upd_frame old_win (fr_clientlist (λ _, [])) s in
            let s := upd_frame old_win (fr_client None) s in
            Some (with_frames (delete old_win) s)
        | None =>
            let s := upd_client client (wc_m_win (Some this)) s in
            Some (upd_frame this (fr_clientlist (λ l, l ++ [client])) s)
        end;
    (* keep the current window on top *)
    f ← frames s !! this;
    c ← m_client f;
    Some (xcall (XRaiseWindow c) s).

(** The block "clear transients and transient_for" of the destructor
    (WinClient.cc:129-143) *)
Definition clear_transients (s : State) (this : Window) : option State :=
  wc ← clients s !! this;
  s ← match transient_for wc with
      | Some p =>
          if decide (p = this) then None (* assert(transient_for != this) *)
          else
            _ ← clients s !! p;
            let s := upd_client p (wc_transients (list_remove this)) s in
            let s := modal_step (m_modal wc) Z.pred p s in
            Some (upd_client this (wc_transient_for None) s)
      | None => Some s
      end;
  s ← for_each (λ s t, _ ← clients s !! t;
                       Some (upd_client t (wc_transient_for None) s))
        (reverse (transients wc)) s;
  Some (upd_client this (wc_transients (λ _, [])) s).

(** [WinClient::~WinClient] (WinClient.cc:120); the observers of
    [m_diesig] are not part of the model. *)
Definition WinClient_delete (fuel : nat) (s : State) (this : Window) : option State :=
  wc ← clients s !! this;
  s ← clear_transients s this;
  let s := upd_client this wc_no_focus s in
  s ← match m_win wc with
      | Some w => '(_, s) ← removeClient fuel s w this; Some s
      | None => Some s
      end;
  (* If transients die before the transient_for is created *)
  let s := removeTransientFromWaitingList this s in
  let s := with_wait (delete this) s in
  Some (with_clients (delete this) s).

(** *** Window.cc: stacking *)

(** [getRootTransientFor] (Window.cc:132) *)
Fixpoint getRootTransientFor (fuel : nat) (s : State) (client : Window)
  : option Window :=
  match fuel with
  | O => None
  | S n =>
      _ ← clients s !! client;
      match transientFor s client with
      | Some p =>
          if decide (client = p) then None (* assert *)
          else getRootTransientFor n s p
      | None => Some client
      end
  end.

(** [raiseFluxboxWindow] and [lowerFluxboxWindow] (Window.cc:142, 163);
    [op] is the request sent to the layer item of a frame. *)
Fixpoint restackFluxboxWindow (op : FbWin -> XCall) (fuel : nat) (s : State)
    (win : FbWin) : option State :=
  match fuel with
  | O => None
  | S n =>
      f ← frames s !! win;
      if oplock f then Some s
      else
        let s := upd_frame win (fr_oplock true) s in
        let s := if iconic f then s else xcall (op win) s in
        (* for each transient do the same *)
        c ← m_client f;
        wc ← clients s !! c;
        s ← for_each (λ s t,
                 wt ← clients s !! t;
                 match m_win wt with
                 | Some g =>
                     fg ← frames s !! g;
                     if iconic fg then Some s else restackFluxboxWindow op n s g
                 | None => Some s
                 end) (transients wc) s;
        Some (upd_frame win (fr_oplock false) s)
  end.

Definition raiseFluxboxWindow := restackFluxboxWindow LayerRaise.
Definition lowerFluxboxWindow := restackFluxboxWindow LayerLower.

(** [FluxboxWindow::raise] and [FluxboxWindow::lower] (Window.cc:1406, 1422) *)
Definition restack (op : FbWin -> XCall) (fuel : nat) (s : State) (this : FbWin)
  : option State :=
  f ← frames s !! this;
  let s := if iconic f then deiconify s this else s in
  (* get root window *)
  f ← frames s !! this;
  c ← m_client f;
  client ← getRootTransientFor (S (size (clients s))) s c;
  wc ← clients s !! client;
  match m_win wc with
  | Some w => restackFluxboxWindow op fuel s w
  | None => Some s
  end.

Definition lower := restack LayerLower.



(** *** WinClient.cc: the modal state *)

(** [WinClient::setStateModal] (WinClient.cc:602); [addModal] and
    [removeModal] step [m_modal_count] of the parent. *)
Definition setStateModal (s : State) (this : Window) (state : bool) : option State :=
  wc ← clients s !! this;
  if bool_decide (state = m_modal wc) then Some s
  else
    let s := upd_client this (wc_modal state) s in
    match transient_for wc with
    | Some p =>
        _ ← clients s !! p;
        Some (upd_client p (wc_modal_count (if state then Z.succ else Z.pred)) s)
    | None => Some s
    end.

(** *** Window.cc: one layer up, one layer down *)

(** What [raiseLayer] and [lowerLayer] share (Window.cc:1458-1486 and
    1490-1518): the root of the transient chain changes its layer by
    [step], and the frames of its transients follow. *)
Definition changeLayer (step : Z -> Z) (s : State) (this : FbWin) : option State :=
  f ← frames s !! this;
  c ← m_client f;
  (* get root window *)
  client ← getRootTransientFor (S (size (clients s))) s c;
  wc ← clients s !! client;
  match m_win wc with
  | None => Some s
  | Some win =>
      fw ← frames s !! win;
      (* remember number just in case a transient happens to revisit
         this window *)
      let layer_num := step (layeritem fw) in
      let s := upd_frame win (fr_layeritem layer_num) s in
      let s := upd_frame win (fr_layernum layer_num) s in
      for_each (λ s t,
          wt ← clients s !! t;
          match m_win wt with
          | Some g =>
              fg ← frames s !! g;
              if iconic fg then Some s
              else
                let s := upd_frame g (fr_layeritem
                            (layerItem_moveToLayer (layeritem fg) layer_num)) s in
                Some (upd_frame g (fr_layernum layer_num) s)
          | None => Some s
          end) (transients wc) s
  end.

(** [FluxboxWindow::raiseLayer] (Window.cc:1453).  [XLayerItem::raiseLayer]
    and [XLayerItem::lowerLayer] belong to FbTk: [layerItem_raiseLayer]
    and [layerItem_lowerLayer] give the layer an item of a given layer
    ends on. *)
Definition raiseLayer (layerItem_raiseLayer : Z -> Z) (s : State) (this : FbWin)
  : option State :=
  f ← frames s !! this;
  (* don't let it up to menu layer *)
  if m_layernum f =? getMenuLayer + 1 then Some s
  else changeLayer layerItem_raiseLayer s this.

(** [FluxboxWindow::lowerLayer] (Window.cc:1489) *)
Definition lowerLayer (layerItem_lowerLayer : Z -> Z) (s : State) (this : FbWin)
  : option State :=
  changeLayer layerItem_lowerLayer s this.


(** *** The waiting lists and the notifications *)

(** re-resolving [t] would put it on a waiting list: its hint names a
    window that is neither its own nor the root window and that has no
    WinClient (WinClient.cc:285-313) *)
Definition requeues (s : State) (t : Window) : Prop :=
  match x_transient_for s !! t with
  | Some h => h ≠ t ∧ ¬ (h ≠ 0 ∧ rootWindow = h) ∧ clients s !! h = None
  | None => False
  end.

(** the notification [e] registers a window whose waiting list holds a
    client that would re-queue itself for another window during the walk
    of the constructor *)
Definition walk_undefined (s : State) (e : Event) : Prop :=
  ∃ win fbwin input take_focus waiting t,
    e = EvRegister win fbwin input take_focus ∧ clients s !! win = None ∧
    s_transient_wait s !! win = Some waiting ∧ t ∈ waiting ∧
    requeues s t ∧ x_transient_for s !! t ≠ Some win.

(** every client on a waiting list names the window it waits for, or
    itself, the root window, or a window that has a WinClient *)
Definition wait_current (s : State) : Prop :=
  ∀ k l t, s_transient_wait s !! k = Some l → t ∈ l →
           requeues s t → x_transient_for s !! t = Some k.

(** every change of a hint is followed at once by the re-resolution of
    the client it belongs to *)
Fixpoint relinked (es : list Event) : Prop :=
  match es with
  | [] => True
  | EvHint win _ :: es' =>
      match es' with
      | EvRelink win' :: es'' => win' = win ∧ relinked es''
      | _ => False
      end
  | _ :: es' => relinked es'
  end.

(** [x] is transient for [y], or waits for the window [A] and declares
    to be transient for [y] *)
Definition linked_or_waiting (s : State) (A : Window) (x y : Window) : Prop :=
  transientFor s x = Some y
  ∨ (x_transient_for s !! x = Some y
     ∧ ∃ l, s_transient_wait s !! A = Some l ∧ x ∈ l).

Definition requeues_dec (s : State) (t : Window) : Decision (requeues s t).
Proof. unfold requeues. destruct (x_transient_for s !! t); apply _. Defined.

(** *** The frames a stacking request reaches *)



(** *** The chain of modal overrides *)

(** the client that a focus attempt for [a] is passed on to: the first
    modal entry of the transient list of [a], when [a] is modal
    (Window.cc:1098-1104) *)
Definition override (s : State) (a : Window) : option Window :=
  match clients s !! a with
  | Some wa =>
      if negb (bool_decide (transients wa = [])) && isModal wa
      then match first_modal s (transients wa) with
           | Some (Some t) => Some t
           | _ => None
           end
      else None
  | None => None
  end.

(** [t] is an entry of the transient list of [a] *)
Definition listed (s : State) (a t : Window) : Prop := t ∈ transientList s a.

(** the rank [r] falls along the override of [x] *)
Definition descends (s : State) (r : Window → nat) (x : Window) : Prop :=
  match override s x with
  | Some t => (r t < r x)%nat
  | None => True
  end.

#[global] Instance descends_dec s r x : Decision (descends s r x).
Proof. unfold descends. destruct (override s x); apply _. Defined.
(** ** Properties *)

(** forgets the parts of the environment that a goal does not mention *)
Ltac env_free :=
  try clear deiconify; try clear layerItem_moveToLayer; try clear getMenuLayer;
  try clear getFocusMode; try clear isModal; try clear rootWindow.

(** one step of a computation in the option monad *)
Ltac step H := rewrite H; cbn [mbind option_bind].

(** destructs the first computation of a sequence that returned *)
Ltac bind_inv H :=
  match type of H with
  | (?m ≫= _) = Some _ =>
      let E := fresh "E" in
      destruct m eqn:E; [cbn [mbind option_bind] in H|discriminate H]
  end.

(** *** Paths of a functional graph *)


Section Graph.
Implicit Types g : Z -> option Z.

Lemma edge_functional g a b b' : edge g a b → edge g a b' → b = b'.
Proof. unfold edge. congruence. Qed.

Lemma tc_sub g g' x y :
  (∀ a b, g' a = Some b → g a = Some b) → tc (edge g') x y → tc (edge g) x y.
Proof.
  intros Hsub Htc. induction Htc as [x y H|x y z H _ IH].
  - apply tc_once. apply Hsub, H.
  - eapply tc_l; [apply Hsub, H|exact IH].
Qed.

Lemma rtc_sub g g' x y :
  (∀ a b, g' a = Some b → g a = Some b) → rtc (edge g') x y → rtc (edge g) x y.
Proof. intros Hsub. apply rtc_subrel. intros a b. apply Hsub. Qed.

(** a path of [g] plus the edge [a -> b] is a path of [g] or goes
    through the new edge *)
Lemma tc_add_edge g g' a b x y :
  (∀ c, c ≠ a → g' c = g c) → g' a = Some b →
  tc (edge g') x y →
  tc (edge g) x y ∨ (rtc (edge g) x a ∧ rtc (edge g) b y).
Proof.
  intros Hother Ha Htc. induction Htc as [x y H|x y z H _ IH].
  - destruct (decide (x = a)) as [->|Hne].
    + right. unfold edge in H. rewrite Ha in H. injection H as <-.
      split; apply rtc_refl.
    + left. apply tc_once. unfold edge in *. rewrite <- Hother; auto.
  - destruct (decide (x = a)) as [->|Hne].
    + right. unfold edge in H. rewrite Ha in H. injection H as <-.
      split; [apply rtc_refl|].
      destruct IH as [IH|[_ IH]]; [apply tc_rtc, IH|exact IH].
    + assert (Hxy : edge g x y) by (unfold edge in *; rewrite <- Hother; auto).
      destruct IH as [IH|[IH1 IH2]].
      * left. eapply tc_l; eauto.
      * right. split; [|exact IH2]. eapply rtc_l; eauto.
Qed.

Lemma no_cycle_sub g g' :
  (∀ a b, g' a = Some b → g a = Some b) → no_cycle g → no_cycle g'.
Proof. intros Hsub Hac c Hc. apply (Hac c). eapply tc_sub; eauto. Qed.

Lemma no_cycle_add g g' a b :
  (∀ c, c ≠ a → g' c = g c) → g' a = Some b →
  no_cycle g → ¬ rtc (edge g) b a → no_cycle g'.
Proof.
  intros Hother Ha Hac Hba c Hc.
  destruct (tc_add_edge g g' a b c c Hother Ha Hc) as [H|[H1 H2]].
  - exact (Hac c H).
  - apply Hba. etrans; eauto.
Qed.

(** from a node without successor nothing else is reachable *)
Lemma rtc_stuck g a x : g a = None → rtc (edge g) a x → x = a.
Proof.
  intros Ha Hr. destruct (rtc_inv _ _ Hr) as [->|(y & Hy & _)]; [done|].
  unfold edge in Hy. congruence.
Qed.

(** the sources of a path of [n] edges in an acyclic graph are [n]
    different nodes that have a successor *)
Lemma nsteps_sources g n x y :
  no_cycle g → nsteps (edge g) n x y →
  ∃ l : list Z, length l = n ∧ NoDup l ∧
    ∀ z, z ∈ l → rtc (edge g) x z ∧ is_Some (g z).
Proof.
  intros Hac Hn. induction Hn as [x|n x y z Hxy Hn (l & Hlen & Hnd & Hl)].
  - exists []. split; [done|]. split; [constructor|]. intros z Hz.
    by apply elem_of_nil in Hz.
  - exists (x :: l). split; [simpl; congruence|]. split.
    + constructor; [|done]. intros Hx. destruct (Hl x Hx) as [Hr _].
      apply (Hac x). eapply tc_rtc_r; [apply tc_once, Hxy|exact Hr].
    + intros w Hw. apply elem_of_cons in Hw as [->|Hw].
      * split; [apply rtc_refl|]. exists y. exact Hxy.
      * destruct (Hl w Hw) as [Hr Hs]. split; [|done]. eapply rtc_l; eauto.
Qed.

End Graph.

(** paths of the transient graph are no longer than the number of clients *)
Lemma path_length_bound s n x y :
  acyclic s → nsteps (edge (transientFor s)) n x y → (n ≤ size (clients s))%nat.
Proof.
  intros Hac Hn.
  destruct (nsteps_sources _ n x y Hac Hn) as (l & <- & Hnd & Hl).
  rewrite <- length_map_to_list, <- (length_fmap fst).
  apply submseteq_length, NoDup_submseteq; [done|].
  intros z Hz. destruct (Hl z Hz) as [_ [p Hp]].
  unfold transientFor in Hp.
  destruct (clients s !! z) as [wc|] eqn:Hz'; [|done].
  apply list_elem_of_fmap. exists (z, wc). split; [done|].
  by apply elem_of_map_to_list.
Qed.

(** *** Reading the state after a field update *)

Lemma bind_to_None {A B} (m : option A) : m ≫= (λ _, @None B) = None.
Proof. by destruct m. Qed.

Lemma clients_upd_client s c f x :
  clients (upd_client c f s) !! x =
    if decide (x = c) then f <$> clients s !! x else clients s !! x.
Proof.
  unfold upd_client, with_clients. simpl. rewrite lookup_alter.
  destruct (decide (c = x)), (decide (x = c)); congruence.
Qed.

Lemma live_upd_client s c f x : live (upd_client c f s) x ↔ live s x.
Proof.
  unfold live. rewrite clients_upd_client.
  destruct (decide (x = c)); [|done]. by rewrite fmap_is_Some.
Qed.

Lemma size_upd_client s c f : size (clients (upd_client c f s)) = size (clients s).
Proof.
  unfold upd_client, with_clients. simpl.
  rewrite <- !size_dom. f_equal. apply dom_alter_L.
Qed.

Lemma transientFor_upd_keep s c f x :
  (∀ wc, transient_for (f wc) = transient_for wc) →
  transientFor (upd_client c f s) x = transientFor s x.
Proof.
  intros Hf. unfold transientFor. rewrite clients_upd_client.
  destruct (decide (x = c)); [|done].
  destruct (clients s !! x); simpl; [apply Hf|done].
Qed.

Lemma transientFor_upd_tf s c v x :
  transientFor (upd_client c (wc_transient_for v) s) x =
    if decide (x = c) then clients s !! c ≫= λ _, v else transientFor s x.
Proof.
  unfold transientFor. rewrite clients_upd_client.
  destruct (decide (x = c)) as [->|]; [|done].
  by destruct (clients s !! c).
Qed.

Lemma transientList_upd_keep s c f x :
  (∀ wc, transients (f wc) = transients wc) →
  transientList (upd_client c f s) x = transientList s x.
Proof.
  intros Hf. unfold transientList. rewrite clients_upd_client.
  destruct (decide (x = c)); [|done].
  destruct (clients s !! x); simpl; [apply Hf|done].
Qed.

Lemma transientList_upd_transients s c f x :
  transientList (upd_client c (wc_transients f) s) x =
    if decide (x = c)
    then default [] (f <$> (transients <$> clients s !! c))
    else transientList s x.
Proof.
  unfold transientList. rewrite clients_upd_client.
  destruct (decide (x = c)) as [->|]; [|done].
  by destruct (clients s !! c).
Qed.

Lemma elem_of_list_remove x y l : y ∈ list_remove x l ↔ y ≠ x ∧ y ∈ l.
Proof. unfold list_remove. by rewrite list_elem_of_filter. Qed.

(** the counter of modal transients plays no part in the graph *)
Lemma modal_step_clients b f p s x :
  (transient_for <$> clients (modal_step b f p s) !! x
     = transient_for <$> clients s !! x) ∧
  (transients <$> clients (modal_step b f p s) !! x
     = transients <$> clients s !! x) ∧
  (m_win <$> clients (modal_step b f p s) !! x = m_win <$> clients s !! x).
Proof.
  unfold modal_step. destruct b; [|done]. rewrite clients_upd_client.
  destruct (decide (x = p)); [|done]. by destruct (clients s !! x).
Qed.

Lemma transientFor_modal_step b f p s x :
  transientFor (modal_step b f p s) x = transientFor s x.
Proof.
  unfold modal_step. destruct b; [|done]. by apply transientFor_upd_keep.
Qed.

Lemma transientList_modal_step b f p s x :
  transientList (modal_step b f p s) x = transientList s x.
Proof.
  unfold modal_step. destruct b; [|done]. by apply transientList_upd_keep.
Qed.

Lemma live_modal_step b f p s x : live (modal_step b f p s) x ↔ live s x.
Proof. unfold modal_step. destruct b; [|done]. apply live_upd_client. Qed.

Lemma size_modal_step b f p s :
  size (clients (modal_step b f p s)) = size (clients s).
Proof. unfold modal_step. destruct b; [|done]. apply size_upd_client. Qed.

Lemma wait_modal_step b f p s :
  s_transient_wait (modal_step b f p s) = s_transient_wait s.
Proof. unfold modal_step. by destruct b. Qed.

Lemma hint_modal_step b f p s :
  x_transient_for (modal_step b f p s) = x_transient_for s.
Proof. unfold modal_step. by destruct b. Qed.

(** *** [leave_parent] *)

Lemma leave_parent_total s this :
  live s this → tf_live s → is_Some (leave_parent s this).
Proof.
  intros [wc Hwc] Htf. unfold leave_parent. rewrite Hwc. simpl.
  destruct (transient_for wc) as [p|] eqn:Hp; simpl; [|by eexists].
  destruct (Htf this p) as [pc Hpc].
  { unfold transientFor. rewrite Hwc. exact Hp. }
  rewrite Hpc. simpl. by eexists.
Qed.

Lemma leave_parent_spec s this sa :
  leave_parent s this = Some sa →
  (∀ x, live sa x ↔ live s x) ∧
  size (clients sa) = size (clients s) ∧
  (∀ x, transientFor sa x = if decide (x = this) then None else transientFor s x) ∧
  (∀ c t, t ∈ transientList sa c → t ∈ transientList s c) ∧
  (∀ c t, t ≠ this → t ∈ transientList s c → t ∈ transientList sa c) ∧
  s_transient_wait sa = s_transient_wait s ∧
  x_transient_for sa = x_transient_for s.
Proof.
  unfold leave_parent. intros H.
  destruct (clients s !! this) as [wc|] eqn:Hwc; [simpl in H|done].
  destruct (transient_for wc) as [p|] eqn:Hp; simpl in H.
  - destruct (clients s !! p) as [pc|] eqn:Hpc; [simpl in H|done].
    injection H as <-. repeat split.
    + rewrite live_upd_client, live_modal_step, live_upd_client. env_free; tauto.
    + rewrite live_upd_client, live_modal_step, live_upd_client. env_free; tauto.
    + by rewrite size_upd_client, size_modal_step, size_upd_client.
    + intros x. rewrite transientFor_upd_tf.
      destruct (decide (x = this)); [apply bind_to_None|].
      rewrite transientFor_modal_step. by apply transientFor_upd_keep.
    + intros c t. rewrite transientList_upd_keep by done.
      rewrite transientList_modal_step, transientList_upd_transients.
      destruct (decide (c = p)) as [->|]; [|done].
      unfold transientList. rewrite Hpc. simpl.
      rewrite elem_of_list_remove. env_free; tauto.
    + intros c t Hne. rewrite transientList_upd_keep by done.
      rewrite transientList_modal_step, transientList_upd_transients.
      destruct (decide (c = p)) as [->|]; [|done].
      unfold transientList. rewrite Hpc. simpl.
      rewrite elem_of_list_remove. env_free; tauto.
    + simpl. by rewrite wait_modal_step.
    + simpl. by rewrite hint_modal_step.
  - injection H as <-. repeat split.
    + rewrite live_upd_client. env_free; tauto.
    + rewrite live_upd_client. env_free; tauto.
    + by rewrite size_upd_client.
    + intros x. rewrite transientFor_upd_tf.
      destruct (decide (x = this)); [apply bind_to_None|done].
    + intros c t. by rewrite transientList_upd_keep.
    + intros c t _. by rewrite transientList_upd_keep.
Qed.

(** *** The loop that breaks a cycle *)

Lemma break_loop_None fuel s this w :
  break_loop fuel s this w = None → ∃ x, nsteps (clean_edge s this) fuel w x.
Proof.
  revert w. induction fuel as [|n IH]; intros w H.
  - exists w. constructor.
  - simpl in H. destruct (transientFor s w) as [p|] eqn:Hp; [|done].
    destruct (decide (p = this)); [done|].
    destruct (IH p H) as [x Hx]. exists x.
    eapply nsteps_l; [|exact Hx]. by split.
Qed.

Lemma break_loop_Some fuel s this w s' :
  break_loop fuel s this w = Some s' →
  (s' = s ∧ ∀ x, rtc (edge (transientFor s)) w x → transientFor s x ≠ Some this)
  ∨ (∃ x, rtc (clean_edge s this) w x ∧ transientFor s x = Some this
          ∧ s' = upd_client x (wc_transient_for None) s).
Proof.
  revert w. induction fuel as [|n IH]; intros w H; [done|].
  simpl in H. destruct (transientFor s w) as [p|] eqn:Hp.
  - destruct (decide (p = this)) as [->|Hne].
    + right. exists w. injection H as <-. split; [apply rtc_refl|done].
    + destruct (IH p H) as [[-> Hall]|(x & Hx & Hxt & ->)].
      * left. split; [done|]. intros x Hr.
        destruct (rtc_inv _ _ Hr) as [<-|(y & Hy & Hr')].
        -- rewrite Hp. congruence.
        -- unfold edge in Hy. rewrite Hp in Hy. injection Hy as <-. by apply Hall.
      * right. exists x. split; [|done]. eapply rtc_l; [|exact Hx]. by split.
  - left. injection H as <-. split; [done|]. intros x Hr.
    rewrite (rtc_stuck _ _ _ Hp Hr). rewrite Hp. done.
Qed.

Lemma clean_nsteps_before sa s2 this found n a x :
  (∀ c, transientFor s2 c = if decide (c = this) then found else transientFor sa c) →
  a ≠ this → nsteps (clean_edge s2 this) n a x →
  nsteps (edge (transientFor sa)) n a x.
Proof.
  intros Hg Ha Hn. induction Hn as [a|n a b x [Hab Hb] _ IH]; [constructor|].
  eapply nsteps_l; [|by apply IH].
  unfold edge. rewrite Hg in Hab. by destruct (decide (a = this)).
Qed.

Lemma clean_rtc_no_return sa s2 this found x a :
  (∀ c, transientFor s2 c = if decide (c = this) then found else transientFor sa c) →
  x ≠ this → transientFor s2 x = Some this →
  rtc (clean_edge s2 this) a x → a ≠ this →
  ¬ rtc (edge (λ c, if decide (c = x) then None else transientFor sa c)) a this.
Proof.
  intros Hg Hx Hxt Hr. induction Hr as [a|a b x [Hab Hb] _ IH]; intros Ha Hback.
  - apply Ha. symmetry. eapply rtc_stuck; [|exact Hback]. simpl. by rewrite decide_True.
  - destruct (rtc_inv _ _ Hback) as [?|(b' & Hab' & Hback')]; [done|].
    unfold edge in Hab'. destruct (decide (a = x)); [done|].
    rewrite Hg in Hab. rewrite decide_False in Hab by done.
    rewrite Hab in Hab'. injection Hab' as <-. by apply IH.
Qed.

(** linking [this] under [found] and running the loop: the loop returns,
    it clears at most one link, one that pointed to [this], and no
    cycle is left *)
Lemma break_loop_link sa s2 this found :
  transientFor sa this = None → acyclic sa →
  (∀ c, transientFor s2 c = if decide (c = this) then found else transientFor sa c) →
  size (clients s2) = size (clients sa) →
  ∃ s3, break_loop (S (S (size (clients s2)))) s2 this this = Some s3 ∧
    (s3 = s2 ∨ ∃ x, transientFor s2 x = Some this
                    ∧ s3 = upd_client x (wc_transient_for None) s2) ∧
    acyclic s3 ∧ (found = None → s3 = s2).
Proof.
  intros Hnone Hac Hg Hsize.
  assert (Hsub : ∀ a b, transientFor sa a = Some b → transientFor s2 a = Some b).
  { intros a b Hab. rewrite Hg. destruct (decide (a = this)) as [->|]; congruence. }
  destruct (break_loop _ s2 this this) as [s3|] eqn:Hloop.
  - exists s3. split; [done|].
    destruct (break_loop_Some _ _ _ _ _ Hloop) as [[-> Hall]|(x & Hx & Hxt & ->)].
    + split; [by left|]. split; [|done].
      destruct found as [p|].
      * apply (no_cycle_add (transientFor sa) _ this p); auto.
        -- intros c Hc. rewrite Hg. by rewrite decide_False.
        -- rewrite Hg. by rewrite decide_True.
        -- intros Hback.
           assert (Hthis : transientFor s2 this = Some p)
             by (rewrite Hg; by rewrite decide_True).
           destruct (rtc_inv_r _ _ Hback) as [->|(x & Hpx & Hxt)].
           ++ by apply (Hall this (rtc_refl _ _)).
           ++ apply (Hall x); [|by apply Hsub].
              eapply rtc_l; [exact Hthis|]. eapply rtc_sub; [|exact Hpx]. done.
      * eapply no_cycle_sub; [|exact Hac]. intros a b. rewrite Hg.
        by destruct (decide (a = this)).
    + split; [right; by exists x|].
      split.
      2:{ intros ->. exfalso.
          assert (Hthis : transientFor s2 this = None)
            by (rewrite Hg; by rewrite decide_True).
          destruct (rtc_inv _ _ Hx) as [<-|(p & [Hp _] & _)]; congruence. }
      unfold acyclic.
      destruct (decide (x = this)) as [->|Hne].
      * eapply no_cycle_sub; [|exact Hac]. intros a b.
        rewrite transientFor_upd_tf. destruct (decide (a = this)).
        -- by rewrite bind_to_None.
        -- rewrite Hg. by rewrite decide_False.
      * destruct (rtc_inv _ _ Hx) as [?|(p & [Hp Hpne] & Hpx)]; [done|].
        set (g' := λ c, if decide (c = x) then None else transientFor sa c).
        apply (no_cycle_add g' _ this p).
        -- intros c Hc. rewrite transientFor_upd_tf. unfold g'.
           destruct (decide (c = x)); [apply bind_to_None|].
           rewrite Hg. by rewrite decide_False.
        -- rewrite transientFor_upd_tf. by rewrite decide_False.
        -- eapply no_cycle_sub; [|exact Hac]. intros a b. unfold g'.
           by destruct (decide (a = x)).
        -- eapply clean_rtc_no_return; eauto.
  - exfalso. destruct (break_loop_None _ _ _ _ Hloop) as [x Hx].
    inversion Hx as [|n a b c [Hab Hb] Hrest]; subst.
    pose proof (clean_nsteps_before _ _ _ _ _ _ _ Hg Hb Hrest) as Hpath.
    pose proof (path_length_bound _ _ _ _ Hac Hpath). lia.
Qed.

Lemma acyclic_ext s s' :
  (∀ x, transientFor s' x = transientFor s x) → acyclic s → acyclic s'.
Proof.
  intros Hext. apply no_cycle_sub. intros a b. by rewrite Hext.
Qed.

(** *** [resolve_parent] *)

Lemma resolve_parent_spec sa this win :
  live sa this → transientFor sa this = None → acyclic sa →
  ∃ s', resolve_parent sa this win = Some s' ∧ acyclic s' ∧
    (∀ x, live s' x ↔ live sa x) ∧
    (∀ c, transientFor s' c = transientFor sa c
          ∨ (c = this ∧ transientFor s' c = Some win ∧ live sa win)
          ∨ (c ≠ this ∧ transientFor sa c = Some this ∧ transientFor s' c = None)) ∧
    (∀ c t, t ∈ transientList s' c ↔
            t ∈ transientList sa c ∨ (t = this ∧ transientFor s' this = Some c)) ∧
    s_transient_wait s' =
      match clients sa !! win with
      | Some _ => s_transient_wait sa
      | None =>
          let m := s_transient_wait (removeTransientFromWaitingList this sa) in
          <[win := default [] (m !! win) ++ [this]]> m
      end ∧
    x_transient_for s' = x_transient_for sa ∧
    (win ≠ this → live sa win → transientFor s' this = Some win) ∧
    (¬ live sa win → ∀ c, transientFor s' c = transientFor sa c).
Proof.
  intros [wc Hwc] Hnone Hac.
  pose (found := match clients sa !! win with Some _ => Some win | None => None end).
  pose (s1 := upd_client this (wc_transient_for found) sa).
  pose (s2 := match found with
              | Some _ => s1
              | None =>
                  with_wait (λ m, <[win := default [] (m !! win) ++ [this]]> m)
                    (removeTransientFromWaitingList this s1)
              end).
  assert (Heq : resolve_parent sa this win =
            s3 ← break_loop (S (S (size (clients s2)))) s2 this this;
            match transientFor s3 this with
            | Some p =>
                _ ← clients s3 !! p;
                Some (modal_step (m_modal wc) Z.succ p
                        (upd_client p (wc_transients (λ l, l ++ [this])) s3))
            | None => Some s3
            end).
  { unfold resolve_parent. rewrite Hwc. reflexivity. }
  rewrite Heq. clear Heq.
  assert (Hc2 : clients s2 = clients s1) by (unfold s2; by destruct found).
  assert (Hg : ∀ c, transientFor s2 c
                    = if decide (c = this) then found else transientFor sa c).
  { intros c. unfold transientFor at 1. rewrite Hc2.
    fold (transientFor s1 c). unfold s1. rewrite transientFor_upd_tf.
    destruct (decide (c = this)); [by rewrite Hwc|done]. }
  assert (Hsz : size (clients s2) = size (clients sa)).
  { rewrite Hc2. apply size_upd_client. }
  assert (Hl2 : ∀ x, live s2 x ↔ live sa x).
  { intros x. unfold live. rewrite Hc2. apply live_upd_client. }
  assert (Ht2 : ∀ c, transientList s2 c = transientList sa c).
  { intros c. unfold transientList. rewrite Hc2.
    fold (transientList s1 c). by apply transientList_upd_keep. }
  assert (Hw2 : s_transient_wait s2 =
      match clients sa !! win with
      | Some _ => s_transient_wait sa
      | None =>
          let m := s_transient_wait (removeTransientFromWaitingList this sa) in
          <[win := default [] (m !! win) ++ [this]]> m
      end).
  { unfold s2, found. by destruct (clients sa !! win). }
  assert (Hh2 : x_transient_for s2 = x_transient_for sa).
  { unfold s2. by destruct found. }
  assert (Hfound : ∀ p, found = Some p → p = win ∧ live sa win).
  { unfold found, live. intros p. destruct (clients sa !! win); [|done].
    intros [= <-]. split; [done|by eexists]. }
  destruct (break_loop_link sa s2 this found Hnone Hac Hg Hsz)
    as (s3 & -> & Hshape & Hac3 & Hsame). cbn [mbind option_bind].
  assert (Hl3 : ∀ x, live s3 x ↔ live sa x).
  { intros x. destruct Hshape as [->|(y & _ & ->)]; [done|].
    rewrite live_upd_client. done. }
  assert (Ht3 : ∀ c, transientList s3 c = transientList sa c).
  { intros c. destruct Hshape as [->|(y & _ & ->)]; [done|].
    rewrite transientList_upd_keep; done. }
  assert (Hw3 : s_transient_wait s3 = s_transient_wait s2).
  { by destruct Hshape as [->|(y & _ & ->)]. }
  assert (Hh3 : x_transient_for s3 = x_transient_for sa).
  { by destruct Hshape as [->|(y & _ & ->)]. }
  assert (Hg3 : ∀ c, transientFor s3 c = transientFor sa c
          ∨ (c = this ∧ transientFor s3 c = Some win ∧ live sa win)
          ∨ (c ≠ this ∧ transientFor sa c = Some this ∧ transientFor s3 c = None)).
  { intros c. destruct Hshape as [->|(y & Hy & ->)].
    - rewrite Hg. destruct (decide (c = this)) as [->|]; [|by left].
      destruct found as [p|] eqn:Hf; [|left; congruence].
      destruct (Hfound p eq_refl) as [-> ?]. right. left. done.
    - rewrite transientFor_upd_tf. destruct (decide (c = y)) as [->|Hcy].
      + rewrite bind_to_None. rewrite Hg in Hy.
        destruct (decide (y = this)) as [->|]; [left; congruence|].
        right. right. done.
      + rewrite Hg. destruct (decide (c = this)) as [->|]; [|by left].
        destruct found as [p|] eqn:Hf; [|left; congruence].
        destruct (Hfound p eq_refl) as [-> ?]. right. left. done. }
  assert (Hown : win ≠ this → live sa win → transientFor s3 this = Some win).
  { intros Hne [pc Hpc].
    assert (Hf : found = Some win) by (unfold found; by rewrite Hpc).
    destruct Hshape as [->|(y & Hy & ->)].
    - rewrite Hg. by rewrite decide_True.
    - rewrite transientFor_upd_tf. destruct (decide (this = y)) as [<-|].
      + rewrite Hg in Hy. rewrite decide_True in Hy by done. congruence.
      + rewrite Hg. by rewrite decide_True. }
  assert (Hkeep : ¬ live sa win → ∀ c, transientFor s3 c = transientFor sa c).
  { intros Hnl c.
    assert (Hf : found = None).
    { unfold found. destruct (clients sa !! win) eqn:E; [|done].
      exfalso. apply Hnl. by eexists. }
    rewrite (Hsame Hf), Hg, Hf. destruct (decide (c = this)); congruence. }
  destruct (transientFor s3 this) as [p|] eqn:Hp3.
  - assert (Hpw : p = win ∧ live sa win).
    { destruct (Hg3 this) as [H|[(_ & H & ?)|(? & _)]]; [congruence| |done].
      split; [congruence|done]. }
    destruct Hpw as [-> Hlw].
    destruct (proj2 (Hl3 win) Hlw) as [pc Hpc]. rewrite Hpc. cbn [mbind option_bind].
    eexists. split; [done|].
    assert (Htf4 : ∀ x, transientFor (modal_step (m_modal wc) Z.succ win
               (upd_client win (wc_transients (λ l, l ++ [this])) s3)) x
             = transientFor s3 x).
    { intros x. rewrite transientFor_modal_step. by apply transientFor_upd_keep. }
    split; [by eapply acyclic_ext|].
    split. { intros x. rewrite live_modal_step, live_upd_client. apply Hl3. }
    split. { intros c. rewrite Htf4. apply Hg3. }
    split.
    { intros c t. rewrite Htf4, Hp3, transientList_modal_step,
        transientList_upd_transients.
      destruct (decide (c = win)) as [->|Hne].
      - unfold transientList in Ht3. specialize (Ht3 win). rewrite Hpc in Ht3.
        rewrite Hpc. simpl in *. rewrite elem_of_app, list_elem_of_singleton, Ht3.
        env_free; intuition congruence.
      - rewrite Ht3. env_free; intuition congruence. }
    split; [by rewrite wait_modal_step; simpl; rewrite Hw3|].
    split; [by rewrite hint_modal_step|].
    split; [intros _ _; by rewrite Htf4|].
    intros Hnl c. rewrite Htf4. by apply Hkeep.
  - eexists. split; [done|]. split; [done|]. split; [done|].
    split. { intros c. apply Hg3. }
    split. { intros c t. rewrite Ht3. env_free; intuition congruence. }
    split; [by rewrite Hw3|]. split; [done|].
    split; [|done].
    intros Hne Hlw. specialize (Hown Hne Hlw). congruence.
Qed.

(** *** The waiting lists *)

Lemma wait_remove_lookup this s k l :
  s_transient_wait (removeTransientFromWaitingList this s) !! k = Some l ↔
  ∃ l0, s_transient_wait s !! k = Some l0 ∧ l = list_remove this l0 ∧ l ≠ [].
Proof.
  unfold removeTransientFromWaitingList, with_wait. simpl.
  rewrite lookup_omap. destruct (s_transient_wait s !! k) as [l0|]; simpl.
  - destruct (list_remove this l0) as [|z l1] eqn:Hrm; split.
    + done.
    + intros (? & [= <-] & -> & ?). congruence.
    + intros [= <-]. exists l0. by rewrite Hrm.
    + intros (? & [= <-] & -> & _). by rewrite Hrm.
  - split; [done|]. by intros (? & ? & _).
Qed.

Lemma wait_live_requeue s this win :
  live s this → wait_live s →
  ∀ k l x,
    (let m := s_transient_wait (removeTransientFromWaitingList this s) in
     <[win := default [] (m !! win) ++ [this]]> m) !! k = Some l →
    x ∈ l → live s x.
Proof.
  intros Hthis Hw k l x. cbv zeta.
  pose proof (wait_remove_lookup this s) as Hrm.
  remember (s_transient_wait (removeTransientFromWaitingList this s)) as m.
  rewrite lookup_insert.
  destruct (decide (win = k)) as [<-|Hne].
  - intros [= <-] Hx. apply elem_of_app in Hx as [Hx|Hx].
    + destruct (m !! win) as [l0|] eqn:Hl0; simpl in Hx; [|by apply elem_of_nil in Hx].
      apply Hrm in Hl0 as (l1 & Hl1 & -> & _).
      apply elem_of_list_remove in Hx as [_ Hx]. by eapply Hw.
    + by apply list_elem_of_singleton in Hx as ->.
  - intros Hl Hx. apply Hrm in Hl as (l1 & Hl1 & -> & _).
    apply elem_of_list_remove in Hx as [_ Hx]. by eapply Hw.
Qed.

(** *** [updateTransientInfo] *)

Lemma updateTransientInfo_spec s this :
  live s this → graph_inv s →
  ∃ s', updateTransientInfo s this = Some s' ∧ graph_inv s' ∧
    (∀ x, live s' x ↔ live s x) ∧
    x_transient_for s' = x_transient_for s ∧
    (∀ c, c ≠ this → transientFor s' c = transientFor s c
                     ∨ (transientFor s c = Some this ∧ transientFor s' c = None)) ∧
    (∀ c t, t ≠ this → t ∈ transientList s c → t ∈ transientList s' c) ∧
    (∀ k, is_Some (s_transient_wait s' !! k) →
          is_Some (s_transient_wait s !! k)
          ∨ (x_transient_for s !! this = Some k ∧ k ≠ this)) ∧
    (∀ win, x_transient_for s !! this = Some win → win ≠ this →
            ¬ (win ≠ 0 ∧ rootWindow = win) →
            match clients s !! win with
            | Some _ => transientFor s' this = Some win ∧ this ∈ transientList s' win
            | None =>
                s_transient_wait s' =
                  (let m := s_transient_wait
                              (removeTransientFromWaitingList this s) in
                   <[win := default [] (m !! win) ++ [this]]> m)
            end) ∧
    ((∀ win, x_transient_for s !! this = Some win →
             win = this ∨ (win ≠ 0 ∧ rootWindow = win) ∨ ¬ live s win) →
     ∀ c, c ≠ this → transientFor s' c = transientFor s c).
Proof.
  intros Hthis (Hac & Htf & Hw).
  destruct (leave_parent_total s this Hthis Htf) as [sa Hsa].
  destruct (leave_parent_spec _ _ _ Hsa)
    as (Hla & Hsz & Hga & Hta1 & Hta2 & Hwa & Hha).
  assert (Haca : acyclic sa).
  { eapply no_cycle_sub; [|exact Hac]. intros a b. rewrite Hga.
    by destruct (decide (a = this)). }
  assert (Htfa : tf_live sa).
  { intros c p. rewrite Hga. destruct (decide (c = this)); [done|].
    intros H. apply Hla. by eapply Htf. }
  assert (Hwla : wait_live sa).
  { intros k l x. rewrite Hwa. intros Hl Hx. apply Hla. by eapply Hw. }
  assert (Hframe_a : ∀ c, c ≠ this → transientFor sa c = transientFor s c).
  { intros c Hc. rewrite Hga. by rewrite decide_False. }
  assert (Hearly : graph_inv sa ∧ (∀ x, live sa x ↔ live s x) ∧
            x_transient_for sa = x_transient_for s ∧
            (∀ c, c ≠ this → transientFor sa c = transientFor s c
                   ∨ (transientFor s c = Some this ∧ transientFor sa c = None)) ∧
            (∀ c t, t ≠ this → t ∈ transientList s c → t ∈ transientList sa c) ∧
            (∀ k, is_Some (s_transient_wait sa !! k) →
                  is_Some (s_transient_wait s !! k)
                  ∨ (x_transient_for s !! this = Some k ∧ k ≠ this)) ∧
            (∀ c, c ≠ this → transientFor sa c = transientFor s c)).
  { split; [done|]. split; [exact Hla|]. split; [exact Hha|].
    split; [intros c Hc; left; by apply Hframe_a|].
    split; [exact Hta2|]. split; [|done]. intros k. rewrite Hwa. by left. }
  unfold updateTransientInfo. rewrite Hsa. cbn [mbind option_bind].
  rewrite Hha.
  assert (Hret : (∀ win, x_transient_for s !! this = Some win → win ≠ this →
                         ¬ (win ≠ 0 ∧ rootWindow = win) → False) →
          ∃ s', Some sa = Some s' ∧ graph_inv s' ∧
            (∀ x, live s' x ↔ live s x) ∧
            x_transient_for s' = x_transient_for s ∧
            (∀ c, c ≠ this → transientFor s' c = transientFor s c
                   ∨ (transientFor s c = Some this ∧ transientFor s' c = None)) ∧
            (∀ c t, t ≠ this → t ∈ transientList s c → t ∈ transientList s' c) ∧
            (∀ k, is_Some (s_transient_wait s' !! k) →
                  is_Some (s_transient_wait s !! k)
                  ∨ (x_transient_for s !! this = Some k ∧ k ≠ this)) ∧
            (∀ win, x_transient_for s !! this = Some win → win ≠ this →
                    ¬ (win ≠ 0 ∧ rootWindow = win) →
                    match clients s !! win with
                    | Some _ => transientFor s' this = Some win
                                ∧ this ∈ transientList s' win
                    | None =>
                        s_transient_wait s' =
                          (let m := s_transient_wait
                                      (removeTransientFromWaitingList this s) in
                           <[win := default [] (m !! win) ++ [this]]> m)
                    end) ∧
            ((∀ win, x_transient_for s !! this = Some win →
                     win = this ∨ (win ≠ 0 ∧ rootWindow = win) ∨ ¬ live s win) →
             ∀ c, c ≠ this → transientFor s' c = transientFor s c)).
  { intros Hno. exists sa.
    destruct Hearly as (E1 & E2 & E3 & E4 & E5 & E6 & E7).
    split; [done|]. split; [exact E1|]. split; [exact E2|]. split; [exact E3|].
    split; [exact E4|]. split; [exact E5|]. split; [exact E6|].
    split; [|intros _; exact E7].
    intros win H1 H2 H3. destruct (Hno win H1 H2 H3). }
  destruct (x_transient_for s !! this) as [win|] eqn:Hhint;
    [|apply Hret; by intros].
  destruct (decide (win = this));
    [apply Hret; intros ? [= <-]; by intros|].
  destruct (decide (win ≠ 0 ∧ rootWindow = win));
    [apply Hret; intros ? [= <-]; by intros|].
  clear Hret.
  assert (Hnone : transientFor sa this = None).
  { rewrite Hga. by rewrite decide_True. }
  destruct (resolve_parent_spec sa this win (proj2 (Hla this) Hthis) Hnone Haca)
    as (s' & Hs' & Hac' & Hl' & Hg' & Ht' & Hw' & Hh' & Hown & Hkeep).
  exists s'. split; [done|]. split; [split; [done|split]|].
  - intros c p Hcp. apply Hl'.
    destruct (Hg' c) as [H|[(_ & H & Hlw)|(_ & _ & H)]].
    + apply (Htfa c). congruence.
    + congruence.
    + congruence.
  - intros k l x. rewrite Hw'. destruct (clients sa !! win) eqn:Hwin.
    + intros Hl Hx. apply Hl'. by eapply Hwla.
    + intros Hl Hx. apply Hl'.
      eapply (wait_live_requeue sa this win); eauto. by apply Hla.
  - split. { intros x. rewrite Hl'. apply Hla. }
    split. { congruence. }
    split.
    { intros c Hc. rewrite <- (Hframe_a c Hc).
      destruct (Hg' c) as [H|[(? & _)|(_ & H1 & H2)]]; [by left|done|].
      by right. }
    split.
    { intros c t Hne Ht. apply Ht'. left. by apply Hta2. }
    split.
    { intros k. rewrite Hw'. destruct (clients sa !! win) eqn:Hwin.
      + rewrite Hwa. by left.
      + cbv zeta. rewrite lookup_insert. destruct (decide (win = k)) as [<-|].
        * by right.
        * intros [l Hl]. apply wait_remove_lookup in Hl as (l0 & Hl0 & _).
          left. rewrite <- Hwa. by eexists. }
    split.
    { intros ? [= <-] _ _.
      destruct (clients s !! win) as [pc|] eqn:Hwin.
      - assert (Hlw : live sa win) by (apply Hla; by eexists).
        specialize (Hown n Hlw). split; [done|]. apply Ht'. by right.
      - rewrite Hw'. destruct (clients sa !! win) as [pc|] eqn:Hwin'.
        { exfalso. assert (Hlw : live s win) by (apply Hla; by eexists).
          destruct Hlw. congruence. }
        unfold removeTransientFromWaitingList, with_wait. simpl. by rewrite Hwa. }
    intros Hcases c Hc. rewrite <- (Hframe_a c Hc). apply Hkeep.
    destruct (Hcases win eq_refl) as [?|[?|Hnl]]; [done|done|].
    intros Hlw. apply Hnl. by apply Hla.
Qed.

(** *** What [updateTransientInfo] does to the waiting lists and which
    links it makes and clears *)

Lemma break_loop_wait fuel s this w s' :
  break_loop fuel s this w = Some s' → s_transient_wait s' = s_transient_wait s.
Proof.
  intros H. by destruct (break_loop_Some _ _ _ _ _ H) as [[-> _]|(x & _ & _ & ->)].
Qed.

Lemma requeues_ext s s' t :
  x_transient_for s' = x_transient_for s → (∀ x, live s' x ↔ live s x) →
  requeues s' t ↔ requeues s t.
Proof.
  unfold requeues. intros -> Hl. destruct (x_transient_for s !! t) as [h|]; [|done].
  rewrite !eq_None_not_Some. fold (live s' h) (live s h). rewrite Hl. done.
Qed.

Lemma updateTransientInfo_wait s this s' :
  updateTransientInfo s this = Some s' →
  (¬ requeues s this → s_transient_wait s' = s_transient_wait s) ∧
  (requeues s this → ∀ h, x_transient_for s !! this = Some h →
     s_transient_wait s' =
       (let m := s_transient_wait (removeTransientFromWaitingList this s) in
        <[h := default [] (m !! h) ++ [this]]> m)).
Proof.
  unfold updateTransientInfo. intros H.
  destruct (leave_parent s this) as [sa|] eqn:Hsa; [|done].
  cbn [mbind option_bind] in H.
  destruct (leave_parent_spec _ _ _ Hsa) as (Hla & _ & _ & _ & _ & Hwa & Hha).
  rewrite Hha in H. unfold requeues.
  destruct (x_transient_for s !! this) as [win|] eqn:Hhint.
  2:{ injection H as <-. split; [done|]. intros []. }
  destruct (decide (win = this)) as [->|Hne].
  { injection H as <-. split; [done|]. by intros [? _]. }
  destruct (decide (win ≠ 0 ∧ rootWindow = win)) as [Hr|Hr].
  { injection H as <-. split; [done|]. by intros (_ & ? & _). }
  unfold resolve_parent in H.
  destruct (clients sa !! this) as [wc|] eqn:Hwc; [|done].
  cbn [mbind option_bind] in H. cbv zeta in H.
  destruct (break_loop _ _ this this) as [s3|] eqn:Hloop; [|done].
  cbn [mbind option_bind] in H.
  apply break_loop_wait in Hloop.
  assert (Hw' : s_transient_wait s' = s_transient_wait s3).
  { destruct (transientFor s3 this) as [p|]; [|by injection H as <-].
    destruct (clients s3 !! p); [|done]. cbn [mbind option_bind] in H.
    injection H as <-. by rewrite wait_modal_step. }
  rewrite Hw', Hloop. clear H Hw' Hloop.
  destruct (clients sa !! win) as [pc|] eqn:Hwin.
  - assert (Hlw : live s win) by (apply Hla; by eexists).
    split; [intros _; exact Hwa|].
    intros (_ & _ & Hnone). destruct Hlw as [? Hlw]. congruence.
  - assert (Hnone : clients s !! win = None).
    { apply eq_None_not_Some. intros Hlw. apply Hla in Hlw as [? Hlw]. congruence. }
    split; [intros Hn; exfalso; by apply Hn|].
    intros _ h [= <-]. simpl. by rewrite Hwa.
Qed.

Lemma resolve_parent_cut sa this win s' c :
  resolve_parent sa this win = Some s' → transientFor sa this = None →
  c ≠ this → transientFor sa c = Some this → transientFor s' c = None →
  live sa win ∧ rtc (edge (transientFor sa)) win c.
Proof.
  intros H Hnone Hc Hct Hcn. unfold resolve_parent in H.
  destruct (clients sa !! this) as [wc|] eqn:Hwc; [|done].
  cbn [mbind option_bind] in H. cbv zeta in H.
  set (found := match clients sa !! win with Some _ => Some win | None => None end)
    in *.
  set (s1 := upd_client this (wc_transient_for found) sa) in *.
  set (s2 := match found with
             | Some _ => s1
             | None =>
                 with_wait (λ m, <[win := default [] (m !! win) ++ [this]]> m)
                   (removeTransientFromWaitingList this s1)
             end) in *.
  assert (Hc2 : clients s2 = clients s1) by (unfold s2; by destruct found).
  assert (Hg : ∀ x, transientFor s2 x
                    = if decide (x = this) then found else transientFor sa x).
  { intros x. unfold transientFor at 1. rewrite Hc2.
    fold (transientFor s1 x). unfold s1. rewrite transientFor_upd_tf.
    destruct (decide (x = this)); [by rewrite Hwc|done]. }
  destruct (break_loop _ s2 this this) as [s3|] eqn:Hloop; [|done].
  cbn [mbind option_bind] in H.
  assert (Htf' : ∀ x, transientFor s' x = transientFor s3 x).
  { intros x. destruct (transientFor s3 this) as [p|]; [|by injection H as <-].
    destruct (clients s3 !! p); [|done]. cbn [mbind option_bind] in H.
    injection H as <-. rewrite transientFor_modal_step.
    by apply transientFor_upd_keep. }
  rewrite Htf' in Hcn.
  destruct (break_loop_Some _ _ _ _ _ Hloop) as [[-> _]|(x & Hx & Hxt & ->)].
  { rewrite Hg, decide_False in Hcn by done. congruence. }
  rewrite transientFor_upd_tf in Hcn.
  destruct (decide (c = x)) as [<-|Hcx];
    [|rewrite Hg, decide_False in Hcn by done; congruence].
  destruct (rtc_inv _ _ Hx) as [?|(p & [Hp Hpne] & Hpc)]; [done|].
  rewrite Hg, decide_True in Hp by done.
  assert (p = win ∧ live sa win) as [-> Hlw].
  { revert Hp. unfold found, live. destruct (clients sa !! win); [|done].
    intros [= <-]. split; [done|by eexists]. }
  split; [done|].
  apply rtc_nsteps in Hpc as [n Hn]. apply rtc_nsteps. exists n.
  by eapply clean_nsteps_before.
Qed.

Lemma updateTransientInfo_links s this s' :
  live s this → graph_inv s → updateTransientInfo s this = Some s' →
  (∀ p, transientFor s' this = Some p → x_transient_for s !! this = Some p) ∧
  (∀ c, c ≠ this → transientFor s c = Some this → transientFor s' c = None →
        ∃ w, x_transient_for s !! this = Some w ∧ w ≠ this ∧
             ¬ (w ≠ 0 ∧ rootWindow = w) ∧ live s w ∧
             rtc (edge (transientFor s)) w c).
Proof.
  intros Hthis (Hac & Htf & Hw) H. unfold updateTransientInfo in H.
  destruct (leave_parent s this) as [sa|] eqn:Hsa; [|done].
  cbn [mbind option_bind] in H.
  destruct (leave_parent_spec _ _ _ Hsa) as (Hla & _ & Hga & _ & _ & _ & Hha).
  rewrite Hha in H.
  assert (Hnone : transientFor sa this = None).
  { rewrite Hga. by rewrite decide_True. }
  assert (Hearly : sa = s' →
            (∀ p, transientFor s' this = Some p → x_transient_for s !! this = Some p) ∧
            (∀ c, c ≠ this → transientFor s c = Some this → transientFor s' c = None →
                  ∃ w, x_transient_for s !! this = Some w ∧ w ≠ this ∧
                       ¬ (w ≠ 0 ∧ rootWindow = w) ∧ live s w ∧
                       rtc (edge (transientFor s)) w c)).
  { intros <-. split; [intros p; by rewrite Hnone|].
    intros c Hc Hct. rewrite Hga, decide_False by done. congruence. }
  destruct (x_transient_for s !! this) as [win|] eqn:Hhint;
    [|apply Hearly; congruence].
  destruct (decide (win = this)); [apply Hearly; congruence|].
  destruct (decide (win ≠ 0 ∧ rootWindow = win)); [apply Hearly; congruence|].
  clear Hearly.
  assert (Haca : acyclic sa).
  { eapply no_cycle_sub; [|exact Hac]. intros a b. rewrite Hga.
    by destruct (decide (a = this)). }
  destruct (resolve_parent_spec sa this win (proj2 (Hla this) Hthis) Hnone Haca)
    as (s'' & Hs'' & _ & _ & Hg' & _).
  assert (s'' = s') as -> by congruence.
  split.
  - intros p Hp. destruct (Hg' this) as [E|[(_ & E & _)|(? & _)]]; [|congruence|done].
    rewrite E, Hnone in Hp. done.
  - intros c Hc Hct Hcn. exists win. split; [done|]. split; [done|]. split; [done|].
    destruct (resolve_parent_cut sa this win s' c H Hnone Hc) as [Hlw Hpath];
      [by rewrite Hga, decide_False|done|].
    split; [by apply Hla|].
    eapply rtc_sub; [|exact Hpath]. intros a b. rewrite Hga.
    by destruct (decide (a = this)).
Qed.

Lemma updateTransientInfo_current s this s' :
  live s this → graph_inv s → updateTransientInfo s this = Some s' →
  (∀ k l t, s_transient_wait s !! k = Some l → t ∈ l → t ≠ this →
            requeues s t → x_transient_for s !! t = Some k) →
  wait_current s'.
Proof.
  intros Hthis Hinv Hs' Hcur.
  destruct (updateTransientInfo_spec s this Hthis Hinv)
    as (s'' & Hs'' & _ & Hl' & Hh' & _).
  assert (s'' = s') as -> by congruence.
  destruct (updateTransientInfo_wait s this s' Hs') as [Hsame Hqueue].
  intros k l t Hk Ht Hq. rewrite Hh'.
  apply (requeues_ext s s' t Hh' Hl') in Hq.
  destruct (requeues_dec s this) as [Hthisq|Hthisq].
  - assert (∃ h, x_transient_for s !! this = Some h) as [h Hh].
    { unfold requeues in Hthisq. destruct (x_transient_for s !! this); [by eexists|done]. }
    specialize (Hqueue Hthisq h Hh). cbv zeta in Hqueue.
    pose proof (wait_remove_lookup this s) as Hrm.
    remember (s_transient_wait (removeTransientFromWaitingList this s)) as m.
    rewrite Hqueue in Hk.
    rewrite lookup_insert in Hk. destruct (decide (h = k)) as [<-|Hne].
    + injection Hk as <-. apply elem_of_app in Ht as [Ht|Ht].
      * destruct (m !! h) as [l0|] eqn:Hl0; simpl in Ht; [|by apply elem_of_nil in Ht].
        apply Hrm in Hl0 as (l1 & Hl1 & -> & _).
        apply elem_of_list_remove in Ht as [Hne Ht]. by eapply Hcur.
      * by apply list_elem_of_singleton in Ht as ->.
    + apply Hrm in Hk as (l1 & Hl1 & -> & _).
      apply elem_of_list_remove in Ht as [Hne' Ht]. by eapply Hcur.
  - rewrite (Hsame Hthisq) in Hk.
    destruct (decide (t = this)) as [->|Hne]; [done|]. by eapply Hcur.
Qed.

(** *** The constructor and the notifications *)

Lemma for_each_update_spec l s :
  (∀ x, x ∈ l → live s x) → graph_inv s →
  ∃ s', for_each updateTransientInfo l s = Some s' ∧ graph_inv s' ∧
    (∀ x, live s' x ↔ live s x) ∧
    x_transient_for s' = x_transient_for s.
Proof.
  revert s. induction l as [|x l IH]; intros s Hl Hinv.
  - exists s. split; [done|]. split; [done|]. by split.
  - destruct (updateTransientInfo_spec s x) as (s1 & Hs1 & Hinv1 & Hl1 & Hh1 & _).
    { apply Hl. by left. }
    { done. }
    destruct (IH s1) as (s' & Hs' & Hinv' & Hl' & Hh').
    { intros y Hy. apply Hl1, Hl. by right. }
    { done. }
    exists s'. simpl. rewrite Hs1. cbn [mbind option_bind].
    split; [done|]. split; [done|]. split; [|congruence].
    intros y. rewrite Hl'. apply Hl1.
Qed.

Lemma graph_inv_fresh s win wc :
  clients s !! win = None → transient_for wc = None → graph_inv s →
  graph_inv (with_clients <[win := wc]> s)
  ∧ ∀ x, live (with_clients <[win := wc]> s) x ↔ x = win ∨ live s x.
Proof.
  intros Hfresh Hwc (Hac & Htf & Hw).
  assert (Hlive : ∀ x, live (with_clients <[win := wc]> s) x ↔ x = win ∨ live s x).
  { intros x. unfold live, with_clients. simpl. rewrite lookup_insert.
    destruct (decide (win = x)) as [->|].
    - split; [by left|by eexists].
    - split; [by right|]. by intros [?|?]. }
  assert (Hg : ∀ x, transientFor (with_clients <[win := wc]> s) x = transientFor s x).
  { intros x. unfold transientFor, with_clients. simpl. rewrite lookup_insert.
    destruct (decide (win = x)) as [->|]; [|done]. by rewrite Hfresh. }
  split; [|done]. split; [|split].
  - by eapply acyclic_ext.
  - intros c p. rewrite Hg. intros H. apply Hlive. right. by eapply Htf.
  - intros k l x Hl Hx. apply Hlive. right. by eapply Hw.
Qed.

Lemma graph_inv_with_wait_delete s k :
  graph_inv s → graph_inv (with_wait (delete k) s).
Proof.
  intros (Hac & Htf & Hw). split; [done|]. split; [done|].
  intros k' l x. unfold with_wait. simpl. rewrite lookup_delete.
  destruct (decide (k = k')); [done|]. apply Hw.
Qed.

Lemma graph_inv_init hints : graph_inv (init_state hints).
Proof.
  split; [|split].
  - intros c Hc. inversion Hc as [? ? H|? ? ? H]; by unfold edge in H.
  - intros c p H. done.
  - intros k l x H. done.
Qed.

Lemma graph_inv_clients s s' :
  clients s' = clients s → s_transient_wait s' = s_transient_wait s →
  graph_inv s → graph_inv s'.
Proof.
  intros Hc Hw (Hac & Htf & Hwl).
  assert (Hg : ∀ x, transientFor s' x = transientFor s x)
    by (intros x; unfold transientFor; by rewrite Hc).
  split; [by eapply acyclic_ext|]. split.
  - intros c p. rewrite Hg. unfold live. rewrite Hc. apply Htf.
  - intros k l x. rewrite Hw. unfold live. rewrite Hc. apply Hwl.
Qed.

Lemma walk_waiting_step win waiting s t s1 :
  updateTransientInfo s t = Some s1 → s_transient_wait s1 !! win = Some waiting →
  walk_waiting win waiting s t = Some s1.
Proof.
  unfold walk_waiting. intros -> H. cbn [mbind option_bind]. by rewrite decide_True.
Qed.

Lemma walk_waiting_stop win waiting s t s1 :
  updateTransientInfo s t = Some s1 → s_transient_wait s1 !! win ≠ Some waiting →
  walk_waiting win waiting s t = None.
Proof.
  unfold walk_waiting. intros -> H. cbn [mbind option_bind]. by rewrite decide_False.
Qed.

(** a walk in which no waiter re-queues itself is the loop
    "for each transient that waits call updateTransientInfo", and it
    leaves the waiting lists as they were *)
Lemma walk_as_update win waiting l s :
  graph_inv s → (∀ x, x ∈ l → live s x) →
  s_transient_wait s !! win = Some waiting →
  (∀ t, t ∈ l → ¬ requeues s t) →
  for_each (walk_waiting win waiting) l s = for_each updateTransientInfo l s ∧
  ∀ s', for_each updateTransientInfo l s = Some s' →
        s_transient_wait s' = s_transient_wait s.
Proof.
  revert s. induction l as [|x l IH]; intros s Hinv Hl Hw Hno.
  - split; [done|]. by intros s' [= <-].
  - destruct (updateTransientInfo_spec s x) as (s1 & Hs1 & Hinv1 & Hl1 & Hh1 & _).
    { apply Hl. by left. }
    { done. }
    destruct (updateTransientInfo_wait s x s1 Hs1) as [Hsame _].
    specialize (Hsame (Hno x ltac:(by left))).
    destruct (IH s1) as [IH1 IH2].
    { done. }
    { intros y Hy. apply Hl1, Hl. by right. }
    { by rewrite Hsame. }
    { intros t Ht. rewrite (requeues_ext s s1 t Hh1 Hl1). apply Hno. by right. }
    cbn [for_each]. rewrite (walk_waiting_step win waiting s x s1 Hs1), Hs1
      by (by rewrite Hsame).
    cbn [mbind option_bind].
    split; [exact IH1|]. intros s' Hs'. by rewrite (IH2 s' Hs').
Qed.

(** a waiter that re-queues itself ends the walk *)
Lemma walk_requeue_None win waiting l s :
  graph_inv s → (∀ x, x ∈ l → live s x) →
  s_transient_wait s !! win = Some waiting → live s win →
  (∀ x, x ∈ l → x ∈ waiting) →
  (∃ t, t ∈ l ∧ requeues s t) →
  for_each (walk_waiting win waiting) l s = None.
Proof.
  revert s. induction l as [|x l IH]; intros s Hinv Hl Hw Hwin Hsub (t & Ht & Hq).
  { by apply elem_of_nil in Ht. }
  destruct (updateTransientInfo_spec s x) as (s1 & Hs1 & Hinv1 & Hl1 & Hh1 & _).
  { apply Hl. by left. }
  { done. }
  destruct (updateTransientInfo_wait s x s1 Hs1) as [Hsame Hqueue].
  cbn [for_each].
  destruct (requeues_dec s x) as [Hxq|Hxq].
  - rewrite (walk_waiting_stop win waiting s x s1 Hs1); [done|].
    assert (∃ h, x_transient_for s !! x = Some h ∧ clients s !! h = None)
      as (h & Hh & Hnone).
    { unfold requeues in Hxq. destruct (x_transient_for s !! x) as [h|]; [|done].
      exists h. split; [done|]. apply Hxq. }
    rewrite (Hqueue Hxq h Hh). cbv zeta.
    assert (h ≠ win) by (intros ->; destruct Hwin; congruence).
    rewrite lookup_insert_ne by done.
    unfold removeTransientFromWaitingList, with_wait. simpl.
    rewrite lookup_omap, Hw. simpl.
    destruct (list_remove x waiting) as [|z l'] eqn:Hrm; [done|].
    intros [= Heq]. assert (Hx : x ∈ waiting) by (apply Hsub; by left).
    rewrite <- Heq, <- Hrm in Hx. apply elem_of_list_remove in Hx as [? _]. done.
  - rewrite (walk_waiting_step win waiting s x s1 Hs1) by (by rewrite (Hsame Hxq)).
    cbn [mbind option_bind]. apply IH.
    + done.
    + intros y Hy. apply Hl1, Hl. by right.
    + by rewrite (Hsame Hxq).
    + by apply Hl1.
    + intros y Hy. apply Hsub. by right.
    + exists t. split; [|by apply (requeues_ext s s1 t Hh1 Hl1)].
      apply elem_of_cons in Ht as [->|Ht]; [done|exact Ht].
Qed.

Lemma requeues_fresh s win wc t :
  requeues (with_clients <[win := wc]> s) t ↔
  requeues s t ∧ x_transient_for s !! t ≠ Some win.
Proof.
  unfold requeues, with_clients. simpl.
  destruct (x_transient_for s !! t) as [h|]; [|by split; [|intros []]].
  rewrite lookup_insert. destruct (decide (win = h)) as [->|Hne].
  - split; [by intros (_ & _ & ?)|]. by intros [_ ?].
  - split.
    + intros (? & ? & ?). split; [done|congruence].
    + by intros [? _].
Qed.

(** the constructor returns unless a waiter re-queues itself, and it
    keeps the invariant of the graph *)
Lemma WinClient_new_cases s win fbwin input take_focus :
  clients s !! win = None → graph_inv s →
  (∃ s', WinClient_new s win fbwin input take_focus = Some s' ∧ graph_inv s' ∧
         (∀ waiting t, s_transient_wait s !! win = Some waiting → t ∈ waiting →
                       ¬ (requeues s t ∧ x_transient_for s !! t ≠ Some win)))
  ∨ (WinClient_new s win fbwin input take_focus = None ∧
     walk_undefined s (EvRegister win fbwin input take_focus)).
Proof.
  intros Hfresh Hinv. unfold WinClient_new.
  set (wc := mkWinClient None [] fbwin false 0 input take_focus).
  destruct (graph_inv_fresh s win wc Hfresh eq_refl Hinv) as [Hinv0 Hl0].
  set (s0 := with_clients <[win := wc]> s) in *.
  assert (Hlw0 : live s0 win) by (apply Hl0; by left).
  assert (Hlast : ∀ s1, graph_inv s1 → live s1 win →
            ∃ s', updateTransientInfo s1 win = Some s' ∧ graph_inv s').
  { intros s1 Hinv1 Hlw.
    destruct (updateTransientInfo_spec s1 win Hlw Hinv1) as (s' & Hs' & Hinv' & _).
    by exists s'. }
  change (s_transient_wait s0) with (s_transient_wait s).
  destruct (s_transient_wait s !! win) as [waiting|] eqn:Hwait.
  2:{ left. cbn [mbind option_bind].
      destruct (Hlast s0 Hinv0 Hlw0) as (s' & Hs' & Hinv').
      exists s'. split; [done|]. split; [done|]. by intros. }
  assert (Hlive : ∀ x, x ∈ waiting → live s0 x).
  { intros x Hx. destruct Hinv0 as (_ & _ & Hw). by eapply (Hw win). }
  destruct (@Exists_dec _ (requeues s0) (requeues_dec s0) waiting) as [Hex|Hex].
  - right. apply Exists_exists in Hex as (t & Ht & Hq).
    rewrite (walk_requeue_None win waiting waiting s0); try done; [|by exists t].
    split; [done|]. apply requeues_fresh in Hq as [Hq Hne].
    by exists win, fbwin, input, take_focus, waiting, t.
  - left.
    assert (Hno : ∀ t, t ∈ waiting → ¬ requeues s0 t).
    { intros t Ht Hq. apply Hex, Exists_exists. by exists t. }
    destruct (walk_as_update win waiting waiting s0 Hinv0 Hlive Hwait Hno)
      as [-> _].
    destruct (for_each_update_spec waiting s0 Hlive Hinv0)
      as (s1 & -> & Hinv1 & Hl1 & _).
    cbn [mbind option_bind].
    destruct (Hlast (with_wait (delete win) s1)) as (s' & Hs' & Hinv').
    { by apply graph_inv_with_wait_delete. }
    { by apply (Hl1 win). }
    exists s'. split; [done|]. split; [done|].
    intros waiting' t [= <-] Ht Hq. apply (Hno t Ht). by apply requeues_fresh.
Qed.

Lemma dispatch_cases s e :
  graph_inv s →
  (∃ s', dispatch s e = Some s' ∧ graph_inv s')
  ∨ (dispatch s e = None ∧ walk_undefined s e).
Proof.
  intros Hinv. destruct e as [win fbwin input take_focus|win hint|win]; simpl.
  - destruct (clients s !! win) eqn:Hwin; [left; by exists s|].
    destruct (WinClient_new_cases s win fbwin input take_focus Hwin Hinv)
      as [(s' & Hs' & Hinv' & _)|H]; [left; by exists s'|by right].
  - left. eexists. split; [done|]. exact Hinv.
  - left. destruct (clients s !! win) eqn:Hwin; [|by exists s].
    destruct (updateTransientInfo_spec s win) as (s' & Hs' & Hinv' & _);
      [by eexists|done|].
    by exists s'.
Qed.

(** a run of notifications is carried out in full and keeps the
    invariant, or stops at a constructor whose walk is undefined *)
Lemma run_cases es s :
  graph_inv s →
  (∃ s', run s es = Some s' ∧ graph_inv s')
  ∨ (run s es = None ∧
     ∃ es1 e es2 s1, es = es1 ++ e :: es2 ∧ run s es1 = Some s1 ∧
                     graph_inv s1 ∧ walk_undefined s1 e).
Proof.
  revert s. induction es as [|e es IH]; intros s Hinv; simpl.
  - left. by exists s.
  - destruct (dispatch_cases s e Hinv) as [(s1 & Hs1 & Hinv1)|[Hnone Hun]].
    + rewrite Hs1. cbn [mbind option_bind].
      destruct (IH s1 Hinv1) as [H|(Hrun & es1 & e' & es2 & s2 & -> & Hs2 & H)];
        [by left|].
      right. split; [done|]. exists (e :: es1), e', es2, s2.
      split; [done|]. simpl. rewrite Hs1. done.
    + right. rewrite Hnone. split; [done|]. by exists [], e, es, s.
Qed.

Lemma run_inv es s s' : graph_inv s → run s es = Some s' → graph_inv s'.
Proof.
  intros Hinv Hs'. destruct (run_cases es s Hinv) as [(s'' & Hs'' & H)|[Hnone _]];
    congruence.
Qed.

(** *** Runs in which every hint change is re-resolved at once *)

Lemma wait_current_hint s win hint :
  wait_live s → wait_current s →
  ∀ k l t, s_transient_wait s !! k = Some l → t ∈ l → t ≠ win →
    requeues (with_hint (match hint with
                         | Some h => <[win := h]>
                         | None => delete win
                         end) s) t →
    x_transient_for (with_hint (match hint with
                                | Some h => <[win := h]>
                                | None => delete win
                                end) s) !! t = Some k.
Proof.
  intros Hwl Hcur k l t Hk Ht Hne. unfold requeues. simpl.
  assert (Hsame : (match hint with
                   | Some h => <[win := h]>
                   | None => delete win
                   end) (x_transient_for s) !! t = x_transient_for s !! t).
  { destruct hint; [by rewrite lookup_insert_ne|by rewrite lookup_delete_ne]. }
  rewrite Hsame. intros Hq. by eapply Hcur.
Qed.

Lemma WinClient_new_current s win fbwin input take_focus :
  clients s !! win = None → graph_inv s → wait_current s →
  ∃ s', WinClient_new s win fbwin input take_focus = Some s' ∧
    graph_inv s' ∧ wait_current s'.
Proof.
  intros Hfresh Hinv Hcur.
  destruct (WinClient_new_cases s win fbwin input take_focus Hfresh Hinv)
    as [(s' & Hs' & Hinv' & _)|[_ Hun]].
  2:{ exfalso. destruct Hun as (w & ? & ? & ? & waiting & t & [= <- _ _ _] & _
                               & Hwait & Ht & Hq & Hne).
      apply Hne. by eapply Hcur. }
  exists s'. split; [done|]. split; [done|].
  revert Hs'. unfold WinClient_new.
  set (wc := mkWinClient None [] fbwin false 0 input take_focus).
  destruct (graph_inv_fresh s win wc Hfresh eq_refl Hinv) as [Hinv0 Hl0].
  set (s0 := with_clients <[win := wc]> s) in *.
  assert (Hcur0 : wait_current s0).
  { intros k l t Hk Ht Hq. apply requeues_fresh in Hq as [Hq _]. by eapply Hcur. }
  change (s_transient_wait s0) with (s_transient_wait s).
  intros Hs'.
  assert (Hmid : ∃ s1, updateTransientInfo s1 win = Some s' ∧ graph_inv s1 ∧
                       live s1 win ∧ wait_current s1).
  { destruct (s_transient_wait s !! win) as [waiting|] eqn:Hwait.
    2:{ exists s0. cbn [mbind option_bind] in Hs'. split; [done|]. split; [done|].
        split; [apply Hl0; by left|done]. }
    assert (Hlive : ∀ x, x ∈ waiting → live s0 x).
    { intros x Hx. destruct Hinv0 as (_ & _ & Hw). by eapply (Hw win). }
    assert (Hno : ∀ t, t ∈ waiting → ¬ requeues s0 t).
    { intros t Ht Hq. pose proof (Hcur0 win waiting t Hwait Ht Hq) as Hh.
      unfold requeues in Hq. rewrite Hh in Hq. destruct Hq as (_ & _ & Hq).
      unfold s0, with_clients in Hq. simpl in Hq. by rewrite lookup_insert_eq in Hq. }
    destruct (walk_as_update win waiting waiting s0 Hinv0 Hlive Hwait Hno)
      as [Heq Hsame].
    rewrite Heq in Hs'.
    destruct (for_each_update_spec waiting s0 Hlive Hinv0)
      as (s1 & Hs1 & Hinv1 & Hl1 & Hh1).
    rewrite Hs1 in Hs'. cbn [mbind option_bind] in Hs'.
    exists (with_wait (delete win) s1). split; [done|].
    split; [by apply graph_inv_with_wait_delete|].
    split; [apply (Hl1 win), Hl0; by left|].
    intros k l t. unfold with_wait. simpl. rewrite lookup_delete.
    destruct (decide (win = k)); [done|]. rewrite (Hsame s1 Hs1).
    intros Hk Ht Hq. change (x_transient_for s1 !! t = Some k). rewrite Hh1.
    apply (Hcur0 k l t Hk Ht). change (requeues s1 t) in Hq.
    by apply (requeues_ext s0 s1 t Hh1 Hl1). }
  destruct Hmid as (s1 & Hlast & Hinv1 & Hlw & Hcur1).
  apply (updateTransientInfo_current s1 win s' Hlw Hinv1 Hlast).
  intros k l t Hk Ht _. by apply (Hcur1 k l t).
Qed.

Lemma run_relinked es :
  ∀ s, graph_inv s → wait_current s → relinked es →
       ∃ s', run s es = Some s' ∧ graph_inv s' ∧ wait_current s'.
Proof.
  induction es as [es IH] using (induction_ltof1 _ (@length Event)).
  unfold ltof in IH. intros s Hinv Hcur Hrel.
  destruct es as [|e es]; [by exists s|].
  destruct e as [win fbwin input take_focus|win hint|win].
  - simpl in Hrel. simpl.
    destruct (clients s !! win) eqn:Hwin.
    + cbn [mbind option_bind]. apply IH; [simpl; lia|done..].
    + destruct (WinClient_new_current s win fbwin input take_focus Hwin Hinv Hcur)
        as (s1 & -> & Hinv1 & Hcur1).
      cbn [mbind option_bind]. apply IH; [simpl; lia|done..].
  - destruct es as [|[| |win'] es]; simpl in Hrel; try done.
    destruct Hrel as [-> Hrel].
    set (s1 := with_hint (match hint with
                          | Some h => <[win := h]>
                          | None => delete win
                          end) s).
    assert (Hinv1 : graph_inv s1) by (by apply (graph_inv_clients s s1)).
    assert (Hstep : ∃ s2, dispatch s1 (EvRelink win) = Some s2 ∧ graph_inv s2 ∧
                          wait_current s2).
    { cbn [dispatch]. destruct (clients s1 !! win) as [wc|] eqn:Hwin.
      - destruct (updateTransientInfo_spec s1 win) as (s2 & Hs2 & Hinv2 & _);
          [by eexists|done|].
        exists s2. split; [done|]. split; [done|].
        apply (updateTransientInfo_current s1 win s2); [by eexists|done|done|].
        destruct Hinv as (_ & _ & Hwl).
        intros k l t Hk Ht Hne. by apply (wait_current_hint s win hint Hwl Hcur k l t).
      - exists s1. split; [done|]. split; [done|].
        destruct Hinv as (_ & _ & Hwl).
        intros k l t Hk Ht. apply (wait_current_hint s win hint Hwl Hcur k l t Hk Ht).
        intros ->. destruct (Hwl k l win Hk Ht) as [? Hlive].
        change (clients s1) with (clients s) in Hwin. congruence. }
    destruct Hstep as (s2 & Hs2 & Hinv2 & Hcur2).
    change (run s (EvHint win hint :: EvRelink win :: es))
      with (s' ← dispatch s1 (EvRelink win); run s' es).
    rewrite Hs2. cbn [mbind option_bind]. apply IH; [simpl; lia|done..].
  - simpl in Hrel. simpl.
    destruct (clients s !! win) as [wc|] eqn:Hwin.
    + destruct (updateTransientInfo_spec s win) as (s1 & Hs1 & Hinv1 & _);
        [by eexists|done|].
      rewrite Hs1. cbn [mbind option_bind]. apply IH; [simpl; lia|done| |done].
      apply (updateTransientInfo_current s win s1); [by eexists|done|done|].
      intros k l t Hk Ht _. by apply (Hcur k l t).
    + cbn [mbind option_bind]. apply IH; [simpl; lia|done..].
Qed.


(** C1.  Notifications are handled one after the other, starting before
    any window is managed.  Whenever a sequence of registrations, hint
    changes and re-resolutions has been carried out, the
    [transient_for] relation is acyclic: no chain of [transient_for]
    links leads from a client back to itself.  A sequence is cut short
    only by a constructor that walks a waiting list holding a client
    that re-queues itself for another window, which C++ leaves
    undefined, and the relation is acyclic up to that call.  A
    sequence in which every hint change is followed at once by the
    re-resolution of the client is always carried out in full. *)
Theorem transient_relation_acyclic (hints : gmap Z Z) (es : list Event) :
  (∀ s, run (init_state hints) es = Some s → acyclic s) ∧
  (run (init_state hints) es = None →
   ∃ es1 e es2 s1, es = es1 ++ e :: es2 ∧
     run (init_state hints) es1 = Some s1 ∧ acyclic s1 ∧ walk_undefined s1 e) ∧
  (relinked es → ∃ s, run (init_state hints) es = Some s ∧ acyclic s).
Proof.
  pose proof (graph_inv_init hints) as Hinit. split; [|split].
  - intros s Hs. by destruct (run_inv es _ s Hinit Hs).
  - intros Hnone.
    destruct (run_cases es _ Hinit)
      as [(s & Hs & _)|(_ & es1 & e & es2 & s1 & -> & Hs1 & (Hac & _) & Hun)];
      [congruence|].
    by exists es1, e, es2, s1.
  - intros Hrel. destruct (run_relinked es _ Hinit) as (s & Hs & (Hac & _) & _).
    + intros k l t H. done.
    + done.
    + by exists s.
Qed.

(** the waiters of a new client [A], one of which, [B], still names [A] *)
Lemma waiters_link A B l s :
  graph_inv s → (∀ x, x ∈ l → live s x) → A ∉ l → live s A → A ≠ B →
  transientFor s A = None → x_transient_for s !! B = Some A →
  ¬ (A ≠ 0 ∧ rootWindow = A) →
  (B ∈ l ∨ (transientFor s B = Some A ∧ B ∈ transientList s A)) →
  ∃ s', for_each updateTransientInfo l s = Some s' ∧ graph_inv s' ∧
    (∀ x, live s' x ↔ live s x) ∧
    x_transient_for s' = x_transient_for s ∧
    transientFor s' A = None ∧ transientFor s' B = Some A ∧
    B ∈ transientList s' A.
Proof.
  revert s. induction l as [|x l IH];
    intros s Hinv Hl HA HlA Hne HtA Hhint Hroot HB.
  - destruct HB as [HB|[HB1 HB2]]; [by apply elem_of_nil in HB|].
    exists s. simpl. split; [done|]. split; [done|]. split; [done|]. done.
  - apply not_elem_of_cons in HA as [HAx HA].
    destruct (updateTransientInfo_spec s x) as
      (s1 & Hs1 & Hinv1 & Hl1 & Hh1 & Hfr & Hls & _ & K1 & _).
    { apply Hl. by left. }
    { done. }
    assert (HtA1 : transientFor s1 A = None).
    { destruct (Hfr A HAx) as [H|[H _]]; congruence. }
    assert (HB1 : B ∈ l ∨ (transientFor s1 B = Some A ∧ B ∈ transientList s1 A)).
    { destruct (decide (x = B)) as [->|HxB].
      - right. specialize (K1 A Hhint Hne Hroot).
        destruct HlA as [ac Hac]. by rewrite Hac in K1.
      - destruct HB as [HB|[HB1 HB2]].
        + apply elem_of_cons in HB as [?|?]; [congruence|by left].
        + right. split; [|by apply Hls].
          destruct (Hfr B (not_eq_sym HxB)) as [H|[H _]]; congruence. }
    destruct (IH s1) as (s' & Hs' & Hinv' & Hl' & Hh' & R1 & R2 & R3); auto.
    { intros y Hy. apply Hl1, Hl. by right. }
    { by apply Hl1. }
    { congruence. }
    exists s'. simpl. rewrite Hs1. cbn [mbind option_bind].
    split; [done|]. split; [done|]. split.
    { intros y. rewrite Hl'. apply Hl1. }
    split; [congruence|]. done.
Qed.

(** the links after the loop "for each transient that waits call
    updateTransientInfo" are links that were there before or links
    that one of the waiting clients has declared *)
Lemma for_each_update_edges l s s' :
  (∀ x, x ∈ l → live s x) → graph_inv s →
  for_each updateTransientInfo l s = Some s' →
  ∀ x y, transientFor s' x = Some y →
         transientFor s x = Some y ∨ (x_transient_for s !! x = Some y ∧ x ∈ l).
Proof.
  revert s. induction l as [|t l IH]; intros s Hl Hinv Hs' x y Hxy.
  - injection Hs' as <-. by left.
  - destruct (updateTransientInfo_spec s t) as (s1 & Hs1 & Hinv1 & Hl1 & Hh1 & Hfr & _).
    { apply Hl. by left. }
    { done. }
    destruct (updateTransientInfo_links s t s1) as [Hown _];
      [apply Hl; by left|done|done|].
    cbn [for_each] in Hs'. rewrite Hs1 in Hs'. cbn [mbind option_bind] in Hs'.
    destruct (IH s1) with (x := x) (y := y) as [H|[H Hx]]; try done.
    { intros z Hz. apply Hl1, Hl. by right. }
    + destruct (decide (x = t)) as [->|Hne].
      { right. split; [by apply Hown|by left]. }
      left. destruct (Hfr x Hne) as [E|[_ E]]; congruence.
    + right. split; [congruence|by right].
Qed.

(** a path to [b] has a first visit of [b] *)
Lemma rtc_first_visit {A} `{EqDecision A} (R : relation A) a b :
  rtc R a b → rtc (λ x y, R x y ∧ x ≠ b) a b.
Proof.
  intros H. induction H as [a|a y b Hay _ IH]; [apply rtc_refl|].
  destruct (decide (a = b)) as [->|Hne]; [apply rtc_refl|].
  by eapply rtc_l.
Qed.

(** C5.  [B] names the handle [A] before [A] has a WinClient: [B] is
    taken off every waiting list and queued last on the list of [A].
    [A] is then registered.  When no other client on the list of [A]
    has by then named yet another window without WinClient (the walk
    of the constructor is undefined otherwise), and [B] is not
    reached from the client that [A] itself names, along
    [transient_for] links and the hints that the clients waiting for
    [A] declare, then the waiting list of [A] is gone, [B] is transient
    for [A] and [A] lists [B]. *)
Theorem wait_then_link s A B fbwin input take_focus :
  graph_inv s → live s B → clients s !! A = None → A ≠ B →
  ¬ (A ≠ 0 ∧ rootWindow = A) →
  x_transient_for s !! B = Some A →
  (∀ l t, s_transient_wait s !! A = Some l → t ∈ l → t ≠ B →
          requeues s t → x_transient_for s !! t = Some A) →
  (∀ w, x_transient_for s !! A = Some w → ¬ (w ≠ 0 ∧ rootWindow = w) →
        live s w → ¬ rtc (linked_or_waiting s A) w B) →
  ∃ s1, updateTransientInfo s B = Some s1 ∧
    (∃ l, s_transient_wait s1 !! A = Some (l ++ [B]) ∧ B ∉ l) ∧
    (∀ k l, k ≠ A → s_transient_wait s1 !! k = Some l → B ∉ l) ∧
    ∃ s2, WinClient_new s1 A fbwin input take_focus = Some s2 ∧
      s_transient_wait s2 !! A = None ∧
      transientFor s2 B = Some A ∧ B ∈ transientList s2 A.
Proof.
  intros Hinv HlB HA Hne Hroot Hhint Hwaiters Hparent.
  destruct (updateTransientInfo_spec s B HlB Hinv) as
    (s1 & Hs1 & Hinv1 & Hl1 & Hh1 & _ & _ & _ & K1 & Hkeep1).
  specialize (K1 A Hhint Hne Hroot). rewrite HA in K1. cbv zeta in K1.
  pose proof (wait_remove_lookup B s) as Hrm.
  remember (s_transient_wait (removeTransientFromWaitingList B s)) as m.
  exists s1. split; [done|].
  assert (Hq : ∃ l, s_transient_wait s1 !! A = Some (l ++ [B]) ∧ (B ∉ l) ∧
                    ∀ t, t ∈ l → t ≠ B ∧ ∃ l0, s_transient_wait s !! A = Some l0
                                                ∧ (t ∈ l0)).
  { exists (default [] (m !! A)). rewrite K1. rewrite lookup_insert_eq.
    split; [done|]. destruct (m !! A) as [l|] eqn:Hl; simpl.
    - apply Hrm in Hl as (l0 & Hl0 & -> & _). split.
      + rewrite elem_of_list_remove. env_free; tauto.
      + intros t Ht. apply elem_of_list_remove in Ht as [? ?].
        split; [done|]. by exists l0.
    - split; [apply not_elem_of_nil|]. intros t Ht. by apply elem_of_nil in Ht. }
  split; [destruct Hq as (l & ? & ? & _); by exists l|]. split.
  { intros k l Hk. rewrite K1. rewrite lookup_insert_ne by done.
    intros Hl. apply Hrm in Hl as (l0 & _ & -> & _).
    rewrite elem_of_list_remove. env_free; tauto. }
  destruct Hq as (l & Hwait & _ & Hold).
  assert (HA1 : clients s1 !! A = None).
  { destruct (clients s1 !! A) eqn:E; [|done].
    assert (live s A) as [? ?] by (apply Hl1; by eexists). congruence. }
  assert (Hedge1 : ∀ x y, transientFor s1 x = Some y → transientFor s x = Some y).
  { intros x y Hxy. destruct (decide (x = B)) as [->|HxB].
    - exfalso. destruct Hinv1 as (_ & Htf1 & _).
      destruct (updateTransientInfo_links s B s1 HlB Hinv Hs1) as [Hown _].
      specialize (Hown y Hxy). assert (y = A) as -> by congruence.
      destruct (Htf1 B A Hxy) as [? ?]. congruence.
    - rewrite <- Hxy. symmetry. apply Hkeep1; [|done].
      intros w Hw. assert (w = A) as -> by congruence. right. right.
      intros [? ?]. congruence. }
  unfold WinClient_new.
  set (wc := mkWinClient None [] fbwin false 0 input take_focus).
  destruct (graph_inv_fresh s1 A wc HA1 eq_refl Hinv1) as [Hinv0 Hl0].
  set (s0 := with_clients <[A := wc]> s1) in *.
  assert (Hw0 : s_transient_wait s0 !! A = Some (l ++ [B])) by exact Hwait.
  rewrite Hw0. cbn [mbind option_bind].
  assert (Hlive0 : ∀ x, x ∈ l ++ [B] → live s0 x).
  { intros x Hx. apply Hl0. right. destruct Hinv1 as (_ & _ & Hw).
    by eapply Hw. }
  assert (Hno : ∀ t, t ∈ l ++ [B] → ¬ requeues s0 t).
  { intros t Ht Hq. apply requeues_fresh in Hq as [Hq Hnot].
    apply (requeues_ext s s1 t Hh1 Hl1) in Hq. rewrite Hh1 in Hnot.
    apply elem_of_app in Ht as [Ht|Ht].
    - destruct (Hold t Ht) as (HtB & l0 & Hwl0 & Htl0).
      apply Hnot. by eapply Hwaiters.
    - apply list_elem_of_singleton in Ht as ->. by apply Hnot. }
  destruct (walk_as_update A (l ++ [B]) (l ++ [B]) s0 Hinv0 Hlive0 Hw0 Hno)
    as [-> _].
  destruct (waiters_link A B (l ++ [B]) s0) as
    (s3 & Hs3 & Hinv3 & Hl3 & Hh3 & R1 & R2 & R3); auto.
  { intros HAin. destruct Hinv1 as (_ & _ & Hw).
    destruct (Hw A _ A Hwait HAin). congruence. }
  { apply Hl0. by left. }
  { unfold transientFor, s0, with_clients. simpl. by rewrite lookup_insert_eq. }
  { change (x_transient_for s0) with (x_transient_for s1). congruence. }
  { left. apply elem_of_app. right. by apply list_elem_of_singleton. }
  rewrite Hs3. cbn [mbind option_bind].
  set (s4 := with_wait (delete A) s3).
  assert (Hinv4 : graph_inv s4) by by apply graph_inv_with_wait_delete.
  assert (Hl4 : live s4 A) by (apply (Hl3 A), Hl0; by left).
  destruct (updateTransientInfo_spec s4 A Hl4 Hinv4) as
    (s2 & Hs2 & Hinv2 & Hl2 & Hh2 & Hfr & Hls & Hkeys & _).
  exists s2. split; [done|].
  assert (Hh4 : x_transient_for s4 = x_transient_for s).
  { change (x_transient_for s4) with (x_transient_for s3). rewrite Hh3.
    change (x_transient_for s0) with (x_transient_for s1). done. }
  split.
  { destruct (s_transient_wait s2 !! A) eqn:E; [|done]. exfalso.
    destruct (Hkeys A) as [[? H]|[_ H]]; [by eexists| |done].
    unfold s4, with_wait in H. simpl in H. by rewrite lookup_delete_eq in H. }
  split; [|apply Hls; [by apply not_eq_sym|done]].
  destruct (Hfr B (not_eq_sym Hne)) as [E|[_ E]]; [by rewrite E|]. exfalso.
  destruct (updateTransientInfo_links s4 A s2 Hl4 Hinv4 Hs2) as [_ Hcut].
  destruct (Hcut B (not_eq_sym Hne) R2 E) as (w & Hw & HwA & Hwroot & Hlw & Hpath).
  rewrite Hh4 in Hw.
  apply (Hparent w Hw Hwroot).
  { apply (Hl3 w), Hl0 in Hlw as [?|Hlw]; [done|]. by apply Hl1. }
  apply rtc_first_visit in Hpath. eapply rtc_subrel; [|exact Hpath].
  intros x y [Hxy HxB]. unfold edge in Hxy.
  change (transientFor s4 x) with (transientFor s3 x) in Hxy.
  destruct (for_each_update_edges (l ++ [B]) s0 s3 Hlive0 Hinv0 Hs3 x y Hxy)
    as [H|[H Hx]].
  - left. apply Hedge1. revert H. unfold transientFor, s0, with_clients. simpl.
    rewrite lookup_insert. destruct (decide (A = x)); [done|]. done.
  - right. change (x_transient_for s0) with (x_transient_for s1) in H.
    split; [congruence|]. apply elem_of_app in Hx as [Hx|Hx].
    + destruct (Hold x Hx) as (_ & l0 & Hwl0 & Hxl0). by exists l0.
    + by apply list_elem_of_singleton in Hx.
Qed.

(** *** Focus delegation *)

Lemma first_modal_none s l :
  (∀ t, t ∈ l → ∃ wt, clients s !! t = Some wt ∧ isModal wt = false) →
  first_modal s l = Some None.
Proof.
  induction l as [|t l IH]; intros Hl; [done|]. simpl.
  destruct (Hl t) as (wt & -> & Hm); [by left|]. simpl. rewrite Hm.
  apply IH. intros x Hx. apply Hl. by right.
Qed.

Lemma first_modal_app s l1 t wt l2 :
  (∀ x, x ∈ l1 → ∃ wx, clients s !! x = Some wx ∧ isModal wx = false) →
  clients s !! t = Some wt → isModal wt = true →
  first_modal s (l1 ++ t :: l2) = Some (Some t).
Proof.
  intros Hl1 Ht Hm. induction l1 as [|x l1 IH]; simpl.
  - by rewrite Ht; simpl; rewrite Hm.
  - destruct (Hl1 x) as (wx & -> & Hx); [by left|]. simpl. rewrite Hx.
    apply IH. intros y Hy. apply Hl1. by right.
Qed.

Lemma frames_upd_frame s w f x :
  frames (upd_frame w f s) !! x =
    if decide (x = w) then f <$> frames s !! x else frames s !! x.
Proof.
  unfold upd_frame, with_frames. simpl. rewrite lookup_alter.
  destruct (decide (w = x)), (decide (x = w)); congruence.
Qed.

Lemma elem_of_xcall e' e s : e' ∈ x_log (xcall e s) ↔ e' ∈ x_log s ∨ e' = e.
Proof. simpl. by rewrite elem_of_app, list_elem_of_singleton. Qed.

Lemma setInputFocus_unfold n s this :
  setInputFocus (S n) s this =
    (f ← frames s !! this;
     a ← m_client f;
     if decide (a ∈ x_gone s) then Some (false, s)
     else
       wa ← clients s !! a;
       if negb (bool_decide (transients wa = [])) && isModal wa then
         scan ← first_modal s (transients wa);
         match scan with
         | Some t =>
             wt ← clients s !! t;
             g ← m_win wt;
             setCurrentClient n s g t true
         | None => Some (false, s)
         end
       else
         match getFocusMode wa with
         | F_LOCALLYACTIVE | F_PASSIVE =>
             let s := xcall (XSetInputFocus a) s in
             let s := xcall (SetFocusedWindow this a) s in
             '(_, s) ← sendFocus s a;
             Some (true, s)
         | _ => Some (false, s)
         end).
Proof. reflexivity. Qed.

(** C10.  The active client of a frame is modal and its transient list
    is not empty, but none of its transients is modal: [setInputFocus]
    returns false and leaves the state as it was, so no client is
    given the input focus. *)
Theorem modal_without_modal_transient fuel s this f a wa :
  frames s !! this = Some f → m_client f = Some a →
  clients s !! a = Some wa →
  isModal wa = true → transients wa ≠ [] →
  (∀ t, t ∈ transients wa → ∃ wt, clients s !! t = Some wt ∧ isModal wt = false) →
  setInputFocus (S fuel) s this = Some (false, s).
Proof.
  intros Hf Ha Hwa Hmodal Hne Hts. rewrite setInputFocus_unfold.
  step Hf. step Ha.
  destruct (decide (a ∈ x_gone s)); [done|]. step Hwa.
  rewrite Hmodal, bool_decide_eq_false_2 by done. cbn [negb andb].
  by rewrite (first_modal_none s _ Hts).
Qed.

(** C3.  The active client [a] of a frame is modal and [t] is the first
    modal client of its transient list: a focus attempt on the frame is
    the call [setCurrentClient (t, true)] on the frame of [t].  When
    [t] has no transients of its own, the attempt returns with [t] the
    active client of its frame and with no request sent for any window
    but [t]. *)
Theorem modal_override fuel s this f a wa l1 t l2 wt g fg :
  frames s !! this = Some f → m_client f = Some a → a ∉ x_gone s →
  clients s !! a = Some wa → isModal wa = true →
  transients wa = l1 ++ t :: l2 →
  (∀ x, x ∈ l1 → ∃ wx, clients s !! x = Some wx ∧ isModal wx = false) →
  clients s !! t = Some wt → isModal wt = true →
  m_win wt = Some g → frames s !! g = Some fg →
  setInputFocus (S fuel) s this = setCurrentClient fuel s g t true ∧
  (transients wt = [] →
   ∃ b s', setInputFocus (S (S fuel)) s this = Some (b, s') ∧
     m_client <$> frames s' !! g = Some (Some t) ∧
     ∀ e, e ∈ x_log s' →
          e ∈ x_log s ∨ e ∈ [XRaiseWindow t; XSetInputFocus t;
                             SetFocusedWindow g t; XSendTakeFocus t]).
Proof.
  intros Hf Ha Hgone Hwa Hmodal Hts Hl1 Hwt Hmt Hg Hfg.
  assert (Hstep : ∀ n, setInputFocus (S n) s this = setCurrentClient n s g t true).
  { intros n. rewrite setInputFocus_unfold. step Hf. step Ha.
    rewrite decide_False by done. step Hwa.
    rewrite Hmodal, bool_decide_eq_false_2
      by (rewrite Hts; by destruct l1). cbn [negb andb].
    rewrite Hts, (first_modal_app s l1 t wt l2 Hl1 Hwt Hmt).
    cbn [mbind option_bind]. step Hwt. by step Hg. }
  split; [apply Hstep|]. intros Hleaf. rewrite Hstep.
  unfold setCurrentClient, setCurrentClient_with. step Hwt. step Hfg.
  rewrite decide_True by done. cbv zeta.
  set (s1 := xcall (XRaiseWindow t) (upd_frame g (fr_client (Some t)) s)).
  assert (Hfr1 : frames s1 !! g = Some (fr_client (Some t) fg)).
  { unfold s1. simpl. rewrite lookup_alter_eq. by rewrite Hfg. }
  assert (Hc1 : clients s1 = clients s) by done.
  assert (Hgone1 : x_gone s1 = x_gone s) by done.
  assert (Hlog1 : ∀ e, e ∈ x_log s1 → e ∈ x_log s ∨ e = XRaiseWindow t).
  { intros e. unfold s1. simpl. rewrite elem_of_app, list_elem_of_singleton. done. }
  assert (Hin0 : ∀ e, e ∈ x_log s1 →
            e ∈ x_log s ∨ e ∈ [XRaiseWindow t; XSetInputFocus t;
                               SetFocusedWindow g t; XSendTakeFocus t]).
  { intros e He. destruct (Hlog1 e He) as [? | ->]; [by left|right; by left]. }
  rewrite setInputFocus_unfold. step Hfr1.
  change (m_client (fr_client (Some t) fg)) with (Some t). cbn [mbind option_bind].
  rewrite Hgone1, Hc1.
  destruct (decide (t ∈ x_gone s)) as [Hgt|Hgt].
  { exists false, s1. split; [done|]. split; [by rewrite Hfr1|done]. }
  step Hwt. rewrite bool_decide_eq_true_2 by done.
  cbn [negb andb].
  destruct (getFocusMode wt);
    try (exists false, s1; split; [done|]; split; [by rewrite Hfr1|done]).
  all: unfold sendFocus.
  all: change (clients (xcall _ (xcall _ s1))) with (clients s); step Hwt.
  all: destruct (accepts_input wt); [|destruct (send_focus_message wt)];
    cbn [negb mbind option_bind].
  all: eexists _, _; (split; [done|]);
    (split; [unfold s1; simpl; by rewrite lookup_alter_eq, Hfg|]).
  all: intros e He; rewrite !elem_of_xcall in He;
    repeat match goal with H : _ ∨ _ |- _ => destruct H as [H| ->] end;
    [by apply Hin0|right; rewrite !elem_of_cons; auto 10 ..].
Qed.

(** *** The chain of modal overrides *)

Lemma first_modal_ext s s' l :
  clients s' = clients s → first_modal s' l = first_modal s l.
Proof.
  intros Hc. induction l as [|t l IH]; [done|]. cbn [first_modal]. rewrite Hc.
  destruct (clients s !! t) as [wt|]; [|done]. cbn [mbind option_bind].
  by rewrite IH.
Qed.

Lemma override_ext s s' a : clients s' = clients s → override s' a = override s a.
Proof.
  intros Hc. unfold override. rewrite Hc.
  destruct (clients s !! a) as [wa|]; [|done]. by rewrite (first_modal_ext s s').
Qed.

Lemma first_modal_elem s l t : first_modal s l = Some (Some t) → t ∈ l.
Proof.
  induction l as [|x l IH]; [done|]. cbn [first_modal].
  destruct (clients s !! x) as [wx|]; [|done]. cbn [mbind option_bind].
  destruct (isModal wx); [intros [= ->]; by left|]. intros H. right. by apply IH.
Qed.

Lemma first_modal_total s l : Forall (live s) l → is_Some (first_modal s l).
Proof.
  induction l as [|x l IH]; intros Hl; [by eexists|].
  apply Forall_cons in Hl as [[wx Hwx] Hl]. cbn [first_modal]. step Hwx.
  destruct (isModal wx); [by eexists|by apply IH].
Qed.

Lemma override_listed s a t : override s a = Some t → t ∈ transientList s a.
Proof.
  unfold override, transientList. destruct (clients s !! a) as [wa|]; [|done].
  destruct (negb _ && _); [|done].
  destruct (first_modal s (transients wa)) as [[t'|]|] eqn:E; [|done..].
  intros [= ->]. simpl. by eapply first_modal_elem.
Qed.

Lemma override_live s a t : override s a = Some t → live s a.
Proof. unfold override, live. by destruct (clients s !! a). Qed.

(** the chain of overrides is no longer than the number of clients *)
Lemma override_path_bound s n x y :
  no_cycle (override s) → nsteps (edge (override s)) n x y →
  (n ≤ size (clients s))%nat.
Proof.
  intros Hac Hn.
  destruct (nsteps_sources _ n x y Hac Hn) as (l & <- & Hnd & Hl).
  rewrite <- length_map_to_list, <- (length_fmap fst).
  apply submseteq_length, NoDup_submseteq; [done|].
  intros z Hz. destruct (Hl z Hz) as [_ [p Hp]].
  apply override_live in Hp as [wc Hz'].
  apply list_elem_of_fmap. exists (z, wc). split; [done|].
  by apply elem_of_map_to_list.
Qed.

(** the focus attempt when the active client is overridden, and when
    it is not *)
Lemma setInputFocus_override n s w f a t :
  frames s !! w = Some f → m_client f = Some a → a ∉ x_gone s →
  override s a = Some t →
  setInputFocus (S n) s w
  = (wt ← clients s !! t; g ← m_win wt; setCurrentClient n s g t true).
Proof.
  intros Hf Ha Hgone Hov. rewrite setInputFocus_unfold. step Hf. step Ha.
  rewrite decide_False by done. unfold override in Hov.
  destruct (clients s !! a) as [wa|]; [|done]. cbn [mbind option_bind].
  destruct (negb _ && _); [|done].
  destruct (first_modal s (transients wa)) as [[t'|]|]; [|done..].
  by injection Hov as ->.
Qed.

Lemma setInputFocus_settled n s w f a wa :
  frames s !! w = Some f → m_client f = Some a → clients s !! a = Some wa →
  (isModal wa = true → Forall (live s) (transients wa)) →
  a ∈ x_gone s ∨ override s a = None →
  ∃ b s', setInputFocus (S n) s w = Some (b, s') ∧
    frames s' = frames s ∧ clients s' = clients s.
Proof.
  intros Hf Ha Hwa Hts Hstop. rewrite setInputFocus_unfold. step Hf. step Ha.
  destruct (decide (a ∈ x_gone s)); [by exists false, s|].
  destruct Hstop as [?|Hov]; [done|]. unfold override in Hov. rewrite Hwa in Hov.
  step Hwa. destruct (negb _ && _) eqn:Hcond.
  - apply andb_true_iff in Hcond as [_ Hmodal].
    destruct (first_modal_total s _ (Hts Hmodal)) as [scan Hscan].
    rewrite Hscan in Hov.
    step Hscan. destruct scan as [t|]; [done|]. by exists false, s.
  - destruct (getFocusMode wa); try by exists false, s.
    all: cbv zeta; unfold sendFocus;
      change (clients (xcall _ (xcall _ s))) with (clients s); step Hwa.
    all: destruct (accepts_input wa); [|destruct (send_focus_message wa)];
      cbn [negb mbind option_bind]; by eexists _, _.
Qed.

(** a focus attempt returns, or the chain of overrides is as long as
    the fuel *)
Lemma setInputFocus_cases s0 n :
  ∀ s w f a,
    clients s = clients s0 →
    (∀ g, is_Some (frames s !! g) ↔ is_Some (frames s0 !! g)) →
    frames s !! w = Some f → m_client f = Some a →
    (∀ x, rtc (edge (override s0)) a x →
          ∃ wx, clients s0 !! x = Some wx ∧
                (isModal wx = true → Forall (live s0) (transients wx))) →
    (∀ x t, rtc (edge (override s0)) a x → override s0 x = Some t →
            ∃ wt g, clients s0 !! t = Some wt ∧ m_win wt = Some g ∧
                    is_Some (frames s0 !! g)) →
    (∃ b s', setInputFocus n s w = Some (b, s'))
    ∨ (∃ x, nsteps (edge (override s0)) n a x).
Proof.
  induction n as [|n IH]; intros s w f a Hc Hdom Hf Ha Hchain Htarget.
  { right. exists a. constructor. }
  destruct (Hchain a (rtc_refl _ _)) as (wa & Hwa & Hts).
  assert (Hlive : ∀ x, live s x ↔ live s0 x) by (intros x; unfold live; by rewrite Hc).
  assert (Hsettle : a ∈ x_gone s ∨ override s a = None →
            ∃ b s', setInputFocus (S n) s w = Some (b, s')).
  { intros Hstop.
    destruct (setInputFocus_settled n s w f a wa Hf Ha) as (b & s' & Hs' & _);
      [by rewrite Hc| |done|by exists b, s'].
    intros Hmodal. eapply Forall_impl; [exact (Hts Hmodal)|]. intros x.
    by apply Hlive. }
  destruct (decide (a ∈ x_gone s)) as [Hgone|Hgone]; [left; apply Hsettle; by left|].
  destruct (override s0 a) as [t|] eqn:Hov.
  2:{ left. apply Hsettle. right. by rewrite (override_ext s0 s). }
  destruct (Htarget a t (rtc_refl _ _) Hov) as (wt & g & Hwt & Hg & Hfg0).
  apply Hdom in Hfg0 as [fg Hfg].
  rewrite (setInputFocus_override n s w f a t Hf Ha Hgone)
    by (by rewrite (override_ext s0 s)).
  rewrite Hc. step Hwt. step Hg.
  unfold setCurrentClient, setCurrentClient_with. rewrite Hc. step Hwt. step Hfg.
  rewrite decide_True by done. cbv zeta.
  set (s1 := xcall (XRaiseWindow t) (upd_frame g (fr_client (Some t)) s)).
  destruct (IH s1 g (fr_client (Some t) fg) t) as [H|[x Hx]].
  - done.
  - intros g'. rewrite <- Hdom. unfold s1.
    change (frames (xcall ?e ?x)) with (frames x). rewrite frames_upd_frame.
    destruct (decide (g' = g)); [|done]. by rewrite fmap_is_Some.
  - unfold s1. change (frames (xcall ?e ?x)) with (frames x).
    by rewrite frames_upd_frame, decide_True, Hfg.
  - done.
  - intros x Hx. apply Hchain. by eapply rtc_l.
  - intros x t' Hx. apply Htarget. by eapply rtc_l.
  - by left.
  - right. exists x. by eapply nsteps_l.
Qed.


(** what a focus attempt changes: the active client of the frames of
    the clients it is passed on to *)
Lemma setInputFocus_frames n :
  ∀ s w b s', setInputFocus n s w = Some (b, s') →
    clients s' = clients s ∧
    ∀ g, match frames s !! g with
         | Some fg =>
             ∃ v, frames s' !! g = Some (fr_client v fg) ∧
               (v = m_client fg ∨
                ∃ f a t wt, frames s !! w = Some f ∧ m_client f = Some a ∧
                  tc (edge (override s)) a t ∧ clients s !! t = Some wt ∧
                  m_win wt = Some g ∧ v = Some t)
         | None => frames s' !! g = None
         end.
Proof.
  assert (Hsame : ∀ s : State, ∀ g,
            match frames s !! g with
            | Some fg =>
                ∃ v, frames s !! g = Some (fr_client v fg) ∧
                  (v = m_client fg ∨
                   ∃ f a t wt, False ∧ m_client f = Some a ∧
                     tc (edge (override s)) a t ∧ clients s !! t = Some wt ∧
                     m_win wt = Some g ∧ v = Some t)
            | None => frames s !! g = None
            end).
  { intros s g. destruct (frames s !! g) as [fg|] eqn:Hg; [|done].
    exists (m_client fg). split; [|by left]. by destruct fg. }
  assert (Hkeep : ∀ (s : State) w g,
            match frames s !! g with
            | Some fg =>
                ∃ v, frames s !! g = Some (fr_client v fg) ∧
                  (v = m_client fg ∨
                   ∃ f a t wt, frames s !! w = Some f ∧ m_client f = Some a ∧
                     tc (edge (override s)) a t ∧ clients s !! t = Some wt ∧
                     m_win wt = Some g ∧ v = Some t)
            | None => frames s !! g = None
            end).
  { intros s w g. specialize (Hsame s g).
    destruct (frames s !! g) as [fg|]; [|done].
    destruct Hsame as (v & Hv & [->|(? & ? & ? & ? & [] & _)]).
    exists (m_client fg). split; [done|by left]. }
  induction n as [|n IH]; intros s w b s' H; [done|].
  rewrite setInputFocus_unfold in H.
  destruct (frames s !! w) as [f|] eqn:Hf; [|done]. cbn [mbind option_bind] in H.
  destruct (m_client f) as [a|] eqn:Ha; [|done]. cbn [mbind option_bind] in H.
  destruct (decide (a ∈ x_gone s)) as [Hgone|Hgone].
  { injection H as _ <-. split; [done|]. intros g. rewrite <- Hf. apply Hkeep. }
  destruct (clients s !! a) as [wa|] eqn:Hwa; [|done].
  cbn [mbind option_bind] in H.
  destruct (negb _ && _) eqn:Hcond.
  - destruct (first_modal s (transients wa)) as [scan|] eqn:Hscan; [|done].
    cbn [mbind option_bind] in H.
    destruct scan as [t|].
    2:{ injection H as _ <-. split; [done|]. intros g. rewrite <- Hf. apply Hkeep. }
    assert (Hov : override s a = Some t).
    { unfold override. by rewrite Hwa, Hcond, Hscan. }
    destruct (clients s !! t) as [wt|] eqn:Hwt; [|done].
    cbn [mbind option_bind] in H.
    destruct (m_win wt) as [g0|] eqn:Hg0; [|done]. cbn [mbind option_bind] in H.
    unfold setCurrentClient, setCurrentClient_with in H. rewrite Hwt in H.
    cbn [mbind option_bind] in H.
    destruct (frames s !! g0) as [fg0|] eqn:Hfg0; [|done].
    cbn [mbind option_bind] in H. rewrite decide_True in H by done. cbv zeta in H.
    set (s1 := xcall (XRaiseWindow t) (upd_frame g0 (fr_client (Some t)) s)) in H.
    destruct (IH s1 g0 b s' H) as [Hc' Hfr']. split; [done|].
    intros g. specialize (Hfr' g). unfold s1 in Hfr'.
    change (frames (xcall ?e ?x)) with (frames x) in Hfr'.
    rewrite !frames_upd_frame in Hfr'.
    destruct (decide (g = g0)) as [->|Hne].
    + rewrite Hfg0. rewrite decide_True, Hfg0 in Hfr' by done. simpl in Hfr'.
      destruct Hfr' as (v & Hv & Hcase). exists v. split; [done|]. right.
      destruct Hcase as [->|(f1 & a1 & t1 & wt1 & Hf1 & Ha1 & Htc & Hwt1 & Hg1 & ->)].
      * exists f, a, t, wt. repeat split; try done. by apply tc_once.
      * exists f, a, t1, wt1. injection Hf1 as <-. simpl in Ha1.
        injection Ha1 as <-. repeat split; try done.
        eapply tc_l; [exact Hov|]. eapply tc_sub; [|exact Htc].
        intros x y. by rewrite (override_ext s s1).
    + destruct (frames s !! g) as [fg|] eqn:Hfg; [|done].
      destruct Hfr' as (v & Hv & Hcase). exists v. split; [done|].
      destruct Hcase as [->|(f1 & a1 & t1 & wt1 & Hf1 & Ha1 & Htc & Hwt1 & Hg1 & ->)];
        [by left|right].
      rewrite decide_True, Hfg0 in Hf1 by done. injection Hf1 as <-.
      simpl in Ha1. injection Ha1 as <-.
      exists f, a, t1, wt1. repeat split; try done.
      eapply tc_l; [exact Hov|]. eapply tc_sub; [|exact Htc].
      intros x y. by rewrite (override_ext s s1).
  - assert (Hdirect : frames s' = frames s ∧ clients s' = clients s).
    { destruct (getFocusMode wa); try by injection H as _ <-.
      all: cbv zeta in H; unfold sendFocus in H;
        change (clients (xcall _ (xcall _ s))) with (clients s) in H;
        rewrite Hwa in H; cbn [mbind option_bind] in H.
      all: destruct (accepts_input wa); [|destruct (send_focus_message wa)];
        cbn [negb mbind option_bind] in H; by injection H as _ <-. }
    destruct Hdirect as [Hfr' Hc']. split; [done|]. intros g. rewrite Hfr', <- Hf.
    apply Hkeep.
Qed.




(** *** Tab groups *)

(** a focus attempt that the modal override does not redirect returns
    and touches neither a frame nor a client *)
Lemma setInputFocus_direct fuel s this f a wa :
  frames s !! this = Some f → m_client f = Some a → clients s !! a = Some wa →
  transients wa = [] ∨ isModal wa = false →
  ∃ b s', setInputFocus (S fuel) s this = Some (b, s') ∧
    frames s' = frames s ∧ clients s' = clients s ∧
    s_transient_wait s' = s_transient_wait s ∧
    x_group_left s' = x_group_left s.
Proof.
  intros Hf Ha Hwa Hno. rewrite setInputFocus_unfold. step Hf. step Ha.
  destruct (decide (a ∈ x_gone s)); [by exists false, s|]. step Hwa.
  assert (negb (bool_decide (transients wa = [])) && isModal wa = false) as ->.
  { destruct Hno as [-> | ->]; [done|]. apply andb_false_r. }
  destruct (getFocusMode wa); try by exists false, s.
  all: cbv zeta; unfold sendFocus;
    change (clients (xcall _ (xcall _ s))) with (clients s); step Hwa.
  all: destruct (accepts_input wa); [|destruct (send_focus_message wa)];
    cbn [negb mbind option_bind]; by eexists _, _.
Qed.



Lemma for_each_adopt this l s :
  (∀ x, x ∈ l → live s x) →
  ∃ s', for_each (λ s c, _ ← clients s !! c;
                         Some (upd_client c (wc_m_win (Some this)) s)) l s = Some s' ∧
    frames s' = frames s ∧ x_group_left s' = x_group_left s ∧
    x_log s' = x_log s ∧
    (∀ x, live s' x ↔ live s x) ∧
    (∀ x, x ∈ l → m_win <$> clients s' !! x = Some (Some this)) ∧
    (∀ x, x ∉ l → clients s' !! x = clients s !! x).
Proof.
  revert s. induction l as [|c l IH]; intros s Hl.
  - exists s. simpl. repeat split; try done. intros x Hx. by apply elem_of_nil in Hx.
  - destruct (Hl c) as [wc Hwc]; [by left|]. simpl. step Hwc.
    destruct (IH (upd_client c (wc_m_win (Some this)) s))
      as (s' & -> & Hf & Hgl & Hlog & Hlv & Hin & Hout).
    { intros x Hx. apply live_upd_client, Hl. by right. }
    exists s'. split; [done|]. split; [done|]. split; [done|]. split; [done|].
    split; [|split].
    + intros x. rewrite Hlv. apply live_upd_client.
    + intros x Hx. destruct (decide (x ∈ l)) as [Hxl|Hxl]; [by apply Hin|].
      apply elem_of_cons in Hx as [->|?]; [|done].
      rewrite (Hout c Hxl), clients_upd_client, decide_True by done.
      by rewrite Hwc.
    + intros x Hx. apply not_elem_of_cons in Hx as [Hxc Hxl].
      rewrite (Hout x Hxl), clients_upd_client. by rewrite decide_False.
Qed.

(** C4.  [attachClient (c)] on a frame that [c] is not in.  When [c] is
    in another frame, the whole client list of that frame is appended
    to this frame's list, its clients now belong to this frame and the
    donor frame is gone; when [c] heads that list, its left-neighbour
    property names the client that was last in this frame and no other
    left-neighbour property changes.  When [c] is in no frame, [c] is
    appended, with the same left neighbour.  In both cases the active
    client of this frame is the one that was active before, and it is
    the one that is raised. *)
Theorem attachClient_spec s this c wc f a :
  clients s !! c = Some wc → frames s !! this = Some f →
  m_win wc ≠ Some this → m_client f = Some a →
  (∀ old fo,
     m_win wc = Some old → frames s !! old = Some fo →
     (∀ x, x ∈ m_clientlist fo → live s x) →
     ∃ s' f', attachClient s this c = Some s' ∧
       frames s' !! this = Some f' ∧
       m_clientlist f' = m_clientlist f ++ m_clientlist fo ∧
       m_client f' = Some a ∧
       frames s' !! old = None ∧
       (∀ x, x ∈ m_clientlist fo → m_win <$> clients s' !! x = Some (Some this)) ∧
       (head (m_clientlist fo) = Some c →
        (∀ x, x ≠ c → x_group_left s' !! x = x_group_left s !! x) ∧
        (shutting_down s = false →
         x_group_left s' !! c = Some (default 0 (last (m_clientlist f))))) ∧
       last (x_log s') = Some (XRaiseWindow a)) ∧
  (m_win wc = None →
     ∃ s' f', attachClient s this c = Some s' ∧
       frames s' !! this = Some f' ∧
       m_clientlist f' = m_clientlist f ++ [c] ∧
       m_client f' = Some a ∧
       m_win <$> clients s' !! c = Some (Some this) ∧
       (∀ x, x ≠ c → x_group_left s' !! x = x_group_left s !! x) ∧
       (shutting_down s = false →
        x_group_left s' !! c = Some (default 0 (last (m_clientlist f)))) ∧
       last (x_log s') = Some (XRaiseWindow a)).
Proof.
  intros Hwc Hf Hnot Ha.
  set (s0 := setGroupLeftWindow c (default 0 (last (m_clientlist f))) s).
  assert (Hc0 : clients s0 = clients s)
    by (unfold s0, setGroupLeftWindow; by destruct (shutting_down s)).
  assert (Hf0 : frames s0 = frames s)
    by (unfold s0, setGroupLeftWindow; by destruct (shutting_down s)).
  assert (Hgl0 : ∀ x, x ≠ c → x_group_left s0 !! x = x_group_left s !! x).
  { intros x Hx. unfold s0, setGroupLeftWindow.
    destruct (shutting_down s); [done|]. simpl. by rewrite lookup_insert_ne. }
  assert (Hgl1 : shutting_down s = false →
            x_group_left s0 !! c = Some (default 0 (last (m_clientlist f)))).
  { intros Hsd. unfold s0, setGroupLeftWindow. rewrite Hsd. simpl.
    by rewrite lookup_insert_eq. }
  split.
  - intros old fo Hold Hfo Hlive.
    assert (Hne : old ≠ this) by congruence.
    unfold attachClient. step Hwc. step Hf.
    rewrite decide_False by done. cbv zeta. fold s0. rewrite Hold.
    rewrite Hf0. step Hfo.
    destruct (for_each_adopt this (m_clientlist fo) s0)
      as (s1 & -> & Hf1 & Hg1 & Hlog1 & _ & Hin1 & _).
    { intros x Hx. unfold live. rewrite Hc0. by apply Hlive. }
    cbn [mbind option_bind].
    set (s2 := with_frames (delete old) _).
    assert (Hf2 : frames s2 !! this
                  = Some (fr_clientlist (λ l, l ++ m_clientlist fo) f)).
    { unfold s2. simpl. rewrite lookup_delete_ne by done.
      rewrite !lookup_alter_ne by done. rewrite lookup_alter_eq.
      by rewrite Hf1, Hf0, Hf. }
    step Hf2.
    change (m_client (fr_clientlist _ f)) with (m_client f). step Ha.
    eexists _, _. split; [done|]. split; [exact Hf2|]. split; [done|].
    split; [done|]. split; [unfold s2; simpl; by rewrite lookup_delete_eq|].
    split; [exact Hin1|]. split.
    + intros _. split.
      * intros x Hx. simpl. rewrite Hg1. by apply Hgl0.
      * intros Hsd. simpl. rewrite Hg1. by apply Hgl1.
    + simpl. by rewrite last_snoc.
  - intros Hnone. unfold attachClient. step Hwc. step Hf.
    rewrite decide_False by done. cbv zeta. fold s0. rewrite Hnone.
    cbn [mbind option_bind].
    set (s2 := upd_frame this _ _).
    assert (Hf2 : frames s2 !! this = Some (fr_clientlist (λ l, l ++ [c]) f)).
    { unfold s2. rewrite frames_upd_frame, decide_True by done.
      change (frames (upd_client _ _ s0)) with (frames s0). by rewrite Hf0, Hf. }
    step Hf2.
    change (m_client (fr_clientlist _ f)) with (m_client f). step Ha.
    eexists _, _. split; [done|]. split; [exact Hf2|]. split; [done|].
    split; [done|]. split; [|split; [|split]].
    + simpl. rewrite lookup_alter_eq. rewrite Hc0, Hwc. done.
    + intros x Hx. by apply Hgl0.
    + exact Hgl1.
    + simpl. by rewrite last_snoc.
Qed.

(** *** Destruction *)

Lemma same_graph_refl s : same_graph s s.
Proof. by split. Qed.

Lemma same_graph_trans s1 s2 s3 :
  same_graph s1 s2 → same_graph s2 s3 → same_graph s1 s3.
Proof.
  intros (A1 & A2 & A3) (B1 & B2 & B3). split; [|split].
  - intros x. by rewrite B1.
  - intros x. by rewrite B2.
  - congruence.
Qed.

Lemma same_graph_clients s s' :
  clients s' = clients s → s_transient_wait s' = s_transient_wait s →
  same_graph s s'.
Proof. intros Hc Hw. split; [|split]; [by rewrite Hc..|done]. Qed.

Lemma same_graph_m_win s c v : same_graph s (upd_client c (wc_m_win v) s).
Proof.
  split; [|split]; [| |done]; intros x; rewrite clients_upd_client;
    destruct (decide (x = c)); try done; by destruct (clients s !! x).
Qed.

Lemma same_graph_live s s' x : same_graph s s' → (live s' x ↔ live s x).
Proof.
  intros (H & _ & _). unfold live. by rewrite <- !(fmap_is_Some transient_for), H.
Qed.

Lemma same_graph_transientFor s s' x :
  same_graph s s' → transientFor s' x = transientFor s x.
Proof.
  intros (H & _ & _). unfold transientFor. specialize (H x).
  destruct (clients s' !! x), (clients s !! x); simpl in *; congruence.
Qed.

Lemma same_graph_transientList s s' x :
  same_graph s s' → transientList s' x = transientList s x.
Proof. intros (_ & H & _). unfold transientList. by rewrite H. Qed.

(** focus delegation changes frames and sends requests, nothing else *)
Lemma setInputFocus_clients fuel s this b s' :
  setInputFocus fuel s this = Some (b, s') →
  clients s' = clients s ∧ s_transient_wait s' = s_transient_wait s.
Proof.
  revert s this b s'. induction fuel as [|n IH]; intros s this b s' H; [done|].
  rewrite setInputFocus_unfold in H. do 2 bind_inv H.
  destruct (decide (_ ∈ x_gone s)); [by injection H as _ <-|].
  bind_inv H.
  destruct (negb _ && _).
  - bind_inv H. destruct o as [t|]; [|by injection H as _ <-].
    do 2 bind_inv H.
    unfold setCurrentClient, setCurrentClient_with in H. do 2 bind_inv H.
    destruct (decide (_ = Some _)); [|by injection H as _ <-].
    cbv zeta in H. by destruct (IH _ _ _ _ H) as [-> ->].
  - destruct (getFocusMode _); try by injection H as _ <-.
    all: cbv zeta in H; bind_inv H; destruct p as [b' s1];
      injection H as _ <-; unfold sendFocus in E2; bind_inv E2.
    all: destruct (accepts_input _); [by injection E2 as _ <-|].
    all: destruct (negb _); by injection E2 as _ <-.
Qed.

Lemma activate_clients fuel s this c s' :
  activate fuel s this c = Some s' →
  clients s' = clients s ∧ s_transient_wait s' = s_transient_wait s.
Proof.
  unfold activate. intros H. bind_inv H. cbv zeta in H. bind_inv H.
  destruct p as [b s1]. injection H as <-.
  by destruct (setInputFocus_clients _ _ _ _ _ E0) as [-> ->].
Qed.

Lemma nextClient_clients fuel s this s' :
  nextClient fuel s this = Some s' →
  clients s' = clients s ∧ s_transient_wait s' = s_transient_wait s.
Proof.
  unfold nextClient. intros H. bind_inv H.
  destruct (_ <=? _)%nat; [by injection H as <-|].
  destruct (_ ≫= _) as [[?|]|]; [by eapply activate_clients..|].
  by injection H as <-.
Qed.

Lemma prevClient_clients fuel s this s' :
  prevClient fuel s this = Some s' →
  clients s' = clients s ∧ s_transient_wait s' = s_transient_wait s.
Proof.
  unfold prevClient. intros H. bind_inv H.
  destruct (_ <=? _)%nat; [by injection H as <-|].
  destruct (_ ≫= _) as [[?|]|]; [by eapply activate_clients..|].
  by injection H as <-.
Qed.

Lemma removeClient_same_graph fuel s this c b s' :
  removeClient fuel s this c = Some (b, s') → same_graph s s'.
Proof.
  unfold removeClient. intros H. do 2 bind_inv H.
  destruct (_ || _); [injection H as _ <-; apply same_graph_refl|].
  bind_inv H. cbv zeta in H. bind_inv H.
  assert (Hs0 : same_graph s s0).
  { destruct (decide (m_client _ = _)); [|injection E1 as <-; apply same_graph_refl].
    destruct (decide (last _ = _)).
    - destruct (prevClient_clients _ _ _ _ E1). by apply same_graph_clients.
    - destruct (nextClient_clients _ _ _ _ E1). by apply same_graph_clients. }
  eapply same_graph_trans; [exact Hs0|].
  eapply same_graph_trans; [apply (same_graph_m_win s0 c None)|].
  injection H as _ <-.
  match goal with
  | |- context [decide (m_client ?f = ?x)] => destruct (decide (m_client f = x))
  end; by apply same_graph_clients.
Qed.

Lemma for_each_orphan l s :
  (∀ t, t ∈ l → live s t) →
  ∃ s', for_each (λ s t, _ ← clients s !! t;
                         Some (upd_client t (wc_transient_for None) s)) l s = Some s' ∧
    (∀ x, live s' x ↔ live s x) ∧
    (∀ t, t ∈ l → transientFor s' t = None) ∧
    (∀ x, x ∉ l → transientFor s' x = transientFor s x) ∧
    (∀ x, transientList s' x = transientList s x) ∧
    (∀ x, m_win <$> clients s' !! x = m_win <$> clients s !! x) ∧
    s_transient_wait s' = s_transient_wait s ∧ frames s' = frames s.
Proof.
  revert s. induction l as [|t l IH]; intros s Hl.
  - exists s. simpl. repeat split; try done. intros x Hx. by apply elem_of_nil in Hx.
  - destruct (Hl t) as [wt Hwt]; [by left|]. simpl. step Hwt.
    destruct (IH (upd_client t (wc_transient_for None) s))
      as (s' & -> & Hlv & Hin & Hout & Hts & Hmw & Hw & Hfr).
    { intros x Hx. apply live_upd_client, Hl. by right. }
    exists s'. split; [done|]. split; [|split; [|split; [|split; [|split]]]].
    + intros x. rewrite Hlv. apply live_upd_client.
    + intros x Hx. destruct (decide (x ∈ l)) as [Hxl|Hxl]; [by apply Hin|].
      apply elem_of_cons in Hx as [->|?]; [|done].
      rewrite (Hout t Hxl), transientFor_upd_tf, decide_True by done.
      apply bind_to_None.
    + intros x Hx. apply not_elem_of_cons in Hx as [Hxt Hxl].
      rewrite (Hout x Hxl), transientFor_upd_tf. by rewrite decide_False.
    + intros x. rewrite Hts. by apply transientList_upd_keep.
    + intros x. rewrite Hmw, clients_upd_client.
      destruct (decide (x = t)); [|done]. by destruct (clients s !! x).
    + by split.
Qed.

Lemma clear_transients_spec s this wc :
  clients s !! this = Some wc →
  (∀ p, transient_for wc = Some p → p ≠ this ∧ live s p) →
  (∀ t, t ∈ transients wc → live s t) →
  ∃ s1, clear_transients s this = Some s1 ∧
    (∀ x, live s1 x ↔ live s x) ∧
    (∀ t, t ∈ transients wc → transientFor s1 t = None) ∧
    (∀ p, transient_for wc = Some p → this ∉ transientList s1 p) ∧
    s_transient_wait s1 = s_transient_wait s ∧ frames s1 = frames s.
Proof.
  intros Hwc Hp Hts. unfold clear_transients. step Hwc.
  assert (Hmid : ∃ s0,
            match transient_for wc with
            | Some p =>
                if decide (p = this) then None
                else
                  _ ← clients s !! p;
                  Some (upd_client this (wc_transient_for None)
                          (modal_step (m_modal wc) Z.pred p
                             (upd_client p (wc_transients (list_remove this)) s)))
            | None => Some s
            end = Some s0 ∧
            (∀ x, live s0 x ↔ live s x) ∧
            (∀ p, transient_for wc = Some p → this ∉ transientList s0 p) ∧
            s_transient_wait s0 = s_transient_wait s ∧ frames s0 = frames s).
  { destruct (transient_for wc) as [p|] eqn:Htf;
      [|exists s; split; [done|]; split; [done|]; split; [done|]; by split].
    destruct (Hp p eq_refl) as [Hne [pc Hpc]].
    rewrite decide_False by done. step Hpc. eexists. split; [done|].
    split; [|split; [|split]].
    - intros x. by rewrite live_upd_client, live_modal_step, live_upd_client.
    - intros ? [= <-]. rewrite transientList_upd_keep by done.
      rewrite transientList_modal_step, transientList_upd_transients.
      rewrite decide_True by done. rewrite Hpc. simpl.
      rewrite elem_of_list_remove. env_free; tauto.
    - simpl. by rewrite wait_modal_step.
    - simpl. unfold modal_step. by destruct (m_modal wc). }
  destruct Hmid as (s0 & -> & Hl0 & Hp0 & Hw0 & Hf0). cbn [mbind option_bind].
  destruct (for_each_orphan (reverse (transients wc)) s0)
    as (s1 & -> & Hl1 & Hin & _ & Hts1 & _ & Hw1 & Hf1).
  { intros t Ht. rewrite elem_of_reverse in Ht. by apply Hl0, Hts. }
  cbn [mbind option_bind]. eexists. split; [done|].
  split; [|split; [|split; [|split]]].
  - intros x. by rewrite live_upd_client, Hl1.
  - intros t Ht. rewrite transientFor_upd_keep by done.
    apply Hin. by rewrite elem_of_reverse.
  - intros p Htf. rewrite transientList_upd_transients.
    destruct (decide (p = this)) as [->|].
    + destruct (clients s1 !! this); simpl; apply not_elem_of_nil.
    + rewrite Hts1. by apply Hp0.
  - simpl. congruence.
  - simpl. congruence.
Qed.

(** what the block leaves of the transient lists and of the frames of
    the clients *)
Lemma clear_transients_lists s this wc s1 :
  clients s !! this = Some wc →
  (∀ p, transient_for wc = Some p → p ≠ this ∧ live s p) →
  (∀ t, t ∈ transients wc → live s t) →
  clear_transients s this = Some s1 →
  (∀ x t, t ∈ transientList s1 x → x ≠ this ∧ t ∈ transientList s x) ∧
  (∀ x, m_win <$> clients s1 !! x = m_win <$> clients s !! x).
Proof.
  intros Hwc Hp Hts. unfold clear_transients. step Hwc.
  assert (Hmid : ∃ s0,
            match transient_for wc with
            | Some p =>
                if decide (p = this) then None
                else
                  _ ← clients s !! p;
                  Some (upd_client this (wc_transient_for None)
                          (modal_step (m_modal wc) Z.pred p
                             (upd_client p (wc_transients (list_remove this)) s)))
            | None => Some s
            end = Some s0 ∧
            (∀ x, live s0 x ↔ live s x) ∧
            (∀ x t, t ∈ transientList s0 x → t ∈ transientList s x) ∧
            (∀ x, m_win <$> clients s0 !! x = m_win <$> clients s !! x)).
  { destruct (transient_for wc) as [p|] eqn:Htf; [|by exists s].
    destruct (Hp p eq_refl) as [Hne [pc Hpc]].
    rewrite decide_False by done. step Hpc. eexists. split; [done|].
    split; [|split].
    - intros x. by rewrite live_upd_client, live_modal_step, live_upd_client.
    - intros x t. rewrite transientList_upd_keep by done.
      rewrite transientList_modal_step, transientList_upd_transients.
      destruct (decide (x = p)) as [->|]; [|done].
      unfold transientList. rewrite Hpc. simpl. rewrite elem_of_list_remove.
      by intros [_ ?].
    - intros x. rewrite clients_upd_client.
      destruct (modal_step_clients (m_modal wc) Z.pred p
                  (upd_client p (wc_transients (list_remove this)) s) x)
        as (_ & _ & Hm).
      assert (Hm' : m_win <$> clients (upd_client p (wc_transients (list_remove this)) s) !! x
                    = m_win <$> clients s !! x).
      { rewrite clients_upd_client. destruct (decide (x = p)); [|done].
        by destruct (clients s !! x). }
      destruct (decide (x = this)); [|congruence].
      rewrite <- Hm', <- Hm.
      by destruct (clients (modal_step _ _ _ _) !! x). }
  destruct Hmid as (s0 & -> & Hl0 & Hts0 & Hm0). cbn [mbind option_bind].
  destruct (for_each_orphan (reverse (transients wc)) s0)
    as (s1' & -> & Hl1 & _ & _ & Hts1 & Hm1 & _ & _).
  { intros t Ht. rewrite elem_of_reverse in Ht. by apply Hl0, Hts. }
  cbn [mbind option_bind]. intros [= <-]. split.
  - intros x t. rewrite transientList_upd_transients.
    destruct (decide (x = this)) as [->|Hne].
    + destruct (clients s1' !! this); simpl; intros H; by apply elem_of_nil in H.
    + rewrite Hts1. intros H. split; [done|]. by apply Hts0.
  - intros x. rewrite clients_upd_client, <- Hm0, <- Hm1.
    destruct (decide (x = this)); [|done]. by destruct (clients s1' !! x).
Qed.

Lemma size_live s s' :
  (∀ x, live s' x ↔ live s x) → size (clients s') = size (clients s).
Proof.
  intros H. rewrite <- !size_dom. f_equal. apply set_eq. intros x.
  rewrite !elem_of_dom. apply H.
Qed.

(** *** The hand-over of the active tab returns *)

Lemma find_next_elem c l n : find_next c l = Some (Some n) → n ∈ l.
Proof.
  induction l as [|y l IH]; [done|]. simpl. destruct (decide (y = c)).
  - destruct l as [|z l]; [done|]. intros [= ->]. right. by left.
  - intros H. right. by apply IH.
Qed.

Lemma find_prev_elem p c l n :
  find_prev p c l = Some (Some n) → p = Some n ∨ n ∈ l.
Proof.
  revert p. induction l as [|y l IH]; intros p; [done|]. simpl.
  destruct (decide (y = c)); [intros [= ->]; by left|].
  intros H. right. destruct (IH _ H) as [[= ->]|?]; [by left|by right].
Qed.

Lemma activate_frames fuel s this c s' g :
  activate fuel s this c = Some s' → is_Some (frames s !! g) →
  is_Some (frames s' !! g).
Proof.
  unfold activate. intros H. bind_inv H. cbv zeta in H. bind_inv H.
  destruct p as [b s1]. injection H as <-. intros [fg Hfg].
  destruct (setInputFocus_frames _ _ _ _ _ E0) as [_ Hfr]. specialize (Hfr g).
  change (frames (xcall ?e ?x)) with (frames x) in Hfr.
  rewrite frames_upd_frame, Hfg in Hfr.
  destruct (decide (g = this)); simpl in Hfr; destruct Hfr as (v & -> & _);
    by eexists.
Qed.

Lemma frames_upd_frame_dom s w f g :
  is_Some (frames s !! g) → is_Some (frames (upd_frame w f s) !! g).
Proof.
  rewrite frames_upd_frame. destruct (decide (g = w)); [|done].
  by rewrite fmap_is_Some.
Qed.

Lemma nextClient_frames fuel s this s' g :
  nextClient fuel s this = Some s' → is_Some (frames s !! g) →
  is_Some (frames s' !! g).
Proof.
  unfold nextClient. intros H. bind_inv H.
  destruct (_ <=? _)%nat; [by injection H as <-|].
  destruct (_ ≫= _) as [[?|]|]; [by eapply activate_frames..|].
  injection H as <-. apply frames_upd_frame_dom.
Qed.

Lemma prevClient_frames fuel s this s' g :
  prevClient fuel s this = Some s' → is_Some (frames s !! g) →
  is_Some (frames s' !! g).
Proof.
  unfold prevClient. intros H. bind_inv H.
  destruct (_ <=? _)%nat; [by injection H as <-|].
  destruct (_ ≫= _) as [[?|]|]; [by eapply activate_frames..|].
  injection H as <-. apply frames_upd_frame_dom.
Qed.

Section HandOver.
Variables (fuel : nat) (s : State) (w : FbWin) (fw : Frame).
Hypothesis Hfw : frames s !! w = Some fw.
Hypothesis Htabs : ∀ x, x ∈ m_clientlist fw → live s x.
Hypothesis Hacyc : no_cycle (override s).
Hypothesis Hfuel : (size (clients s) < fuel)%nat.
Hypothesis Hlists :
  ∀ x wx, clients s !! x = Some wx → Forall (live s) (transients wx).
Hypothesis Htargets :
  ∀ x t, override s x = Some t →
         ∃ wt g, clients s !! t = Some wt ∧ m_win wt = Some g ∧
                 is_Some (frames s !! g).

Lemma activate_total n : n ∈ m_clientlist fw → is_Some (activate fuel s w (Some n)).
Proof using Hfw Htabs Hacyc Hfuel Hlists Htargets.
  intros Hn. apply Htabs in Hn as [wn Hn]. unfold activate.
  cbn [mbind option_bind]. cbv zeta.
  set (s1 := xcall (XRaiseWindow n) (upd_frame w (fr_client (Some n)) s)).
  destruct (setInputFocus_cases s fuel s1 w (fr_client (Some n) fw) n)
    as [(b & s' & ->)|[x Hx]].
  - done.
  - intros g. unfold s1. change (frames (xcall ?e ?x)) with (frames x).
    rewrite frames_upd_frame. destruct (decide (g = w)); [|done].
    by rewrite fmap_is_Some.
  - unfold s1. change (frames (xcall ?e ?x)) with (frames x).
    by rewrite frames_upd_frame, decide_True, Hfw.
  - done.
  - intros x Hx.
    assert (Hlx : live s x).
    { apply rtc_inv_r in Hx as [<-|(y & _ & Hyx)]; [by eexists|].
      destruct (Htargets y x Hyx) as (wt & _ & Hwt & _). by eexists. }
    destruct Hlx as [wx Hwx]. exists wx. split; [done|]. intros _.
    by eapply Hlists.
  - intros x t _ Ht. by apply (Htargets x).
  - by eexists.
  - pose proof (override_path_bound s fuel n x Hacyc Hx). lia.
Qed.

Lemma nextClient_total : is_Some (nextClient fuel s w).
Proof using Hfw Htabs Hacyc Hfuel Hlists Htargets.
  unfold nextClient. step Hfw. destruct (_ <=? _)%nat eqn:Hlen; [by eexists|].
  destruct (m_client fw ≫= _) as [[c|]|] eqn:E; [| |by eexists].
  - apply activate_total. destruct (m_client fw) as [a|]; [|done].
    by eapply find_next_elem.
  - destruct (head (m_clientlist fw)) as [h|] eqn:Hh.
    + apply activate_total. by apply head_Some_elem_of.
    + apply head_None in Hh. by rewrite Hh in Hlen.
Qed.

Lemma prevClient_total : is_Some (prevClient fuel s w).
Proof using Hfw Htabs Hacyc Hfuel Hlists Htargets.
  unfold prevClient. step Hfw. destruct (_ <=? _)%nat eqn:Hlen; [by eexists|].
  destruct (m_client fw ≫= _) as [[c|]|] eqn:E; [| |by eexists].
  - apply activate_total. destruct (m_client fw) as [a|]; [|done].
    by destruct (find_prev_elem _ _ _ _ E).
  - destruct (last (m_clientlist fw)) as [h|] eqn:Hl.
    + apply activate_total. by apply last_Some_elem_of.
    + apply last_None in Hl. by rewrite Hl in Hlen.
Qed.

Lemma removeClient_total c : live s c → is_Some (removeClient fuel s w c).
Proof using Hfw Htabs Hacyc Hfuel Hlists Htargets.
  intros [wc Hwc]. unfold removeClient. step Hwc. step Hfw.
  destruct (_ || _); [by eexists|].
  assert (Hover : ∃ s0,
            (if decide (m_client fw = Some c) then
               if decide (last (m_clientlist fw) = Some c)
               then prevClient fuel s w
               else nextClient fuel s w
             else Some s) = Some s0 ∧ is_Some (frames s0 !! w)).
  { destruct (decide (m_client fw = Some c)); [|by exists s].
    destruct (decide (last (m_clientlist fw) = Some c)).
    - destruct prevClient_total as [s0 Hs0]. exists s0. split; [done|].
      by eapply prevClient_frames.
    - destruct nextClient_total as [s0 Hs0]. exists s0. split; [done|].
      by eapply nextClient_frames. }
  destruct Hover as (s0 & -> & Hf0). cbn [mbind option_bind]. cbv zeta.
  set (s2 := upd_frame w _ _).
  assert (Hf2 : is_Some (frames s2 !! w)) by by apply frames_upd_frame_dom.
  destruct Hf2 as [f2 Hf2]. step Hf2. by eexists.
Qed.
End HandOver.

(** C6.  A WinClient whose transient list is not empty is destroyed (the
    [transient_for] pointer and the list entries refer to live clients).
    Whenever the destructor returns, every former transient has no
    [transient_for], every other client is still there, the client is
    gone from the list of its parent, from every waiting list, and no
    list waits for its handle.  The destructor returns when the frame of
    the client exists and holds live clients, such a chain of transient
    lists does not loop, and every other client on a transient list has
    a frame. *)
Theorem destroy_orphans_transients fuel s this wc :
  clients s !! this = Some wc → transients wc ≠ [] →
  (∀ p, transient_for wc = Some p → p ≠ this ∧ live s p) →
  (∀ t, t ∈ transients wc → live s t) →
  (∀ s', WinClient_delete fuel s this = Some s' →
     (∀ t, t ∈ transients wc → transientFor s' t = None) ∧
     (∀ x, x ≠ this → (live s' x ↔ live s x)) ∧
     ¬ live s' this ∧
     (∀ p, transient_for wc = Some p → this ∉ transientList s' p) ∧
     s_transient_wait s' !! this = None ∧
     (∀ k l, s_transient_wait s' !! k = Some l → this ∉ l)) ∧
  ((∀ w, m_win wc = Some w →
         ∃ fw, frames s !! w = Some fw ∧ ∀ x, x ∈ m_clientlist fw → live s x) →
   (∀ x, ¬ tc (listed s) x x) →
   (∀ x t, x ≠ this → t ≠ this → t ∈ transientList s x →
           ∃ wt g, clients s !! t = Some wt ∧ m_win wt = Some g ∧
                   is_Some (frames s !! g)) →
   (size (clients s) < fuel)%nat →
   ∃ s', WinClient_delete fuel s this = Some s').
Proof.
  intros Hwc _ Hp Hts.
  destruct (clear_transients_spec s this wc Hwc Hp Hts)
    as (s1 & Hs1 & Hl1 & Ht1 & Hp1 & Hw1 & Hf1).
  destruct (clear_transients_lists s this wc s1 Hwc Hp Hts Hs1) as [Hsub Hmw].
  unfold WinClient_delete. step Hwc. step Hs1.
  set (s1a := upd_client this wc_no_focus s1).
  assert (Hg1a : same_graph s1 s1a).
  { split; [|split]; [| |done]; intros x; unfold s1a;
      rewrite clients_upd_client; destruct (decide (x = this)); try done;
      by destruct (clients s1 !! x). }
  split.
  - intros s' H.
    assert (Hmid : ∃ s2,
              match m_win wc with
              | Some w => '(_, s) ← removeClient fuel s1a w this; Some s
              | None => Some s1a
              end = Some s2 ∧ same_graph s1 s2).
    { destruct (m_win wc) as [w|] eqn:Hw; [|by exists s1a].
      destruct (removeClient fuel s1a w this) as [[b s2]|] eqn:Hrm; [|done].
      exists s2. split; [done|].
      eapply same_graph_trans; [exact Hg1a|]. by eapply removeClient_same_graph. }
    destruct Hmid as (s2 & Hs2 & Hg2). rewrite Hs2 in H.
    cbn [mbind option_bind] in H. injection H as <-.
    set (s3 := with_wait (delete this) (removeTransientFromWaitingList this s2)).
    assert (Hc3 : clients s3 = clients s2) by done.
    assert (Htf' : ∀ x, transientFor (with_clients (delete this) s3) x
                        = if decide (x = this) then None else transientFor s1 x).
    { intros x. unfold transientFor. simpl. rewrite lookup_delete.
      destruct (decide (this = x)) as [->|]; [by rewrite decide_True|].
      rewrite decide_False by done.
      fold (transientFor s2 x). by apply same_graph_transientFor. }
    assert (Hl' : ∀ x, live (with_clients (delete this) s3) x
                       ↔ x ≠ this ∧ live s x).
    { intros x. unfold live at 1. simpl. rewrite lookup_delete.
      destruct (decide (this = x)) as [->|].
      - split; [by intros [? ?]|by intros [? _]].
      - fold (live s2 x). rewrite (same_graph_live _ _ x Hg2), Hl1.
        split; [by split|by intros [_ ?]]. }
    split; [|split; [|split; [|split; [|split]]]].
    + intros t Ht. rewrite Htf'. destruct (decide (t = this)); [done|by apply Ht1].
    + intros x Hx. rewrite Hl'. env_free; tauto.
    + rewrite Hl'. env_free; tauto.
    + intros p Htf. destruct (Hp p Htf) as [Hne _].
      unfold transientList. simpl. rewrite lookup_delete_ne by done.
      fold (transientList s2 p). rewrite (same_graph_transientList _ _ p Hg2).
      by apply Hp1.
    + simpl. by rewrite lookup_delete_eq.
    + intros k l. simpl. rewrite lookup_delete.
      destruct (decide (this = k)); [done|].
      rewrite lookup_omap. destruct (s_transient_wait s2 !! k) as [l0|]; [|done].
      simpl. destruct (list_remove this l0) as [|z l1] eqn:Hrm; [done|].
      intros [= <-]. rewrite <- Hrm, elem_of_list_remove. env_free; tauto.
  - intros Hframe Hloop Hhave Hfuel.
    destruct (m_win wc) as [w|] eqn:Hw; [|by eexists].
    destruct (Hframe w eq_refl) as (fw & Hfw & Htabs).
    assert (Hl1a : ∀ x, live s1a x ↔ live s x).
    { intros x. unfold s1a. by rewrite live_upd_client. }
    assert (Hlist1a : ∀ x t, t ∈ transientList s1a x → x ≠ this ∧ t ∈ transientList s x).
    { intros x t. rewrite (same_graph_transientList _ _ x Hg1a). apply Hsub. }
    assert (Hmw1a : ∀ x, m_win <$> clients s1a !! x = m_win <$> clients s !! x).
    { intros x. rewrite <- Hmw. unfold s1a. rewrite clients_upd_client.
      destruct (decide (x = this)); [|done]. by destruct (clients s1 !! x). }
    assert (Hhave' : ∀ x t, t ∈ transientList s1a x →
              ∃ wt g, clients s1a !! t = Some wt ∧ m_win wt = Some g ∧
                      is_Some (frames s1a !! g)).
    { intros x t Ht. destruct (Hlist1a x t Ht) as [Hx Ht'].
      change (frames s1a) with (frames s1). rewrite Hf1.
      assert (Hm : m_win <$> clients s !! t = Some (Some w) ∨
                   ∃ g, m_win <$> clients s !! t = Some (Some g) ∧
                        is_Some (frames s !! g)).
      { destruct (decide (t = this)) as [->|Hne].
        - left. by rewrite Hwc, <- Hw.
        - right. destruct (Hhave x t Hx Hne Ht') as (wt & g & Hwt & Hg & Hfg).
          exists g. by rewrite Hwt, <- Hg. }
      rewrite <- Hmw1a in Hm.
      destruct (clients s1a !! t) as [wt|];
        [|destruct Hm as [?|(? & ? & _)]; done].
      simpl in Hm. destruct Hm as [[= Hm]|(g & [= Hm] & Hfg)].
      - exists wt, w. by rewrite Hfw.
      - by exists wt, g. }
    destruct (removeClient_total fuel s1a w fw) with (c := this) as [[b s2] ->].
    + change (frames s1a) with (frames s1). by rewrite Hf1.
    + intros x Hx. by apply Hl1a, Htabs.
    + intros x Hx. apply (Hloop x).
      apply (tc_congruence id (listed s)) in Hx; [done|]. intros a b Hab.
      by apply Hlist1a, override_listed.
    + by rewrite (size_live s s1a).
    + intros x wx Hwx. apply Forall_forall. intros t Ht.
      destruct (Hhave' x t) as (wt & _ & Hwt & _); [|by eexists].
      unfold transientList. by rewrite Hwx.
    + intros x t Ht. apply (Hhave' x). by apply override_listed.
    + apply Hl1a. by eexists.
    + by eexists.
Qed.

(** *** Stacking *)

Lemma getRootTransientFor_cases fuel s c :
  acyclic s → tf_live s → live s c →
  (∃ r, getRootTransientFor fuel s c = Some r ∧
        rtc (edge (transientFor s)) c r ∧ transientFor s r = None ∧ live s r)
  ∨ (∃ x, nsteps (edge (transientFor s)) fuel c x).
Proof.
  intros Hac Htf. revert c. induction fuel as [|n IH]; intros c Hc.
  - right. exists c. constructor.
  - simpl. destruct Hc as [wc Hwc]. step Hwc.
    destruct (transientFor s c) as [p|] eqn:Hp.
    + destruct (decide (c = p)) as [<-|Hne].
      { exfalso. apply (Hac c). by apply tc_once. }
      destruct (IH p (Htf c p Hp)) as [(r & Hr & Hpath & Hroot)|[x Hx]].
      * left. exists r. split; [done|]. split; [by eapply rtc_l|done].
      * right. exists x. by eapply nsteps_l.
    + left. exists c. split; [done|]. split; [apply rtc_refl|].
      split; [done|by eexists].
Qed.

(** the root of a transient chain is found *)
Lemma getRootTransientFor_total s c :
  acyclic s → tf_live s → live s c →
  ∃ r, getRootTransientFor (S (size (clients s))) s c = Some r ∧
       rtc (edge (transientFor s)) c r ∧ transientFor s r = None ∧ live s r.
Proof.
  intros Hac Htf Hc.
  destruct (getRootTransientFor_cases (S (size (clients s))) s c Hac Htf Hc)
    as [H|[x Hx]]; [done|].
  pose proof (path_length_bound _ _ _ _ Hac Hx). lia.
Qed.






Lemma frames_set_layer s g x L w :
  frames (upd_frame g (fr_layernum L) (upd_frame g (fr_layeritem x) s)) !! w =
    if decide (w = g)
    then (λ f, fr_layernum L (fr_layeritem x f)) <$> frames s !! w
    else frames s !! w.
Proof.
  rewrite !frames_upd_frame. destruct (decide (w = g)); [|done].
  by destruct (frames s !! w).
Qed.

(** the loop of [moveToLayer] over the transients of the root *)
Lemma moveToLayer_loop L ts :
  ∀ si,
    (∀ t, t ∈ ts → ∃ wt, clients si !! t = Some wt ∧
                         ∀ g, m_win wt = Some g → is_Some (frames si !! g)) →
    ∃ s', for_each (λ s t,
             wt ← clients s !! t;
             match m_win wt with
             | Some g =>
                 fg ← frames s !! g;
                 if iconic fg then Some s
                 else
                   Some (upd_frame g (fr_layernum L)
                           (upd_frame g (fr_layeritem
                              (layerItem_moveToLayer (layeritem fg) L)) s))
             | None => Some s
             end) ts si = Some s' ∧
      clients s' = clients si ∧
      (∀ g, iconic <$> frames s' !! g = iconic <$> frames si !! g) ∧
      (∀ g, frames s' !! g = frames si !! g
            ∨ m_layernum <$> frames s' !! g = Some L) ∧
      (∀ t wt g fg, t ∈ ts → clients si !! t = Some wt → m_win wt = Some g →
                    frames si !! g = Some fg → iconic fg = false →
                    m_layernum <$> frames s' !! g = Some L) ∧
      (∀ g, (∀ t wt, t ∈ ts → clients si !! t = Some wt → m_win wt ≠ Some g) →
            frames s' !! g = frames si !! g).
Proof.
  induction ts as [|t ts IH]; intros si Hts.
  - exists si. split; [done|]. split; [done|]. split; [done|].
    split; [by left|]. split; [|done].
    intros t wt g fg Ht. by apply elem_of_nil in Ht.
  - destruct (Hts t) as (wt & Hwt & Hg); [by left|]. simpl. step Hwt.
    assert (Hbody : ∃ s1,
              match m_win wt with
              | Some g =>
                  fg ← frames si !! g;
                  if iconic fg then Some si
                  else
                    Some (upd_frame g (fr_layernum L)
                            (upd_frame g (fr_layeritem
                               (layerItem_moveToLayer (layeritem fg) L)) si))
              | None => Some si
              end = Some s1 ∧ clients s1 = clients si ∧
              (∀ g, iconic <$> frames s1 !! g = iconic <$> frames si !! g) ∧
              (∀ g, frames s1 !! g = frames si !! g
                    ∨ m_layernum <$> frames s1 !! g = Some L) ∧
              (∀ g fg, m_win wt = Some g → frames si !! g = Some fg →
                       iconic fg = false →
                       m_layernum <$> frames s1 !! g = Some L) ∧
              (∀ g, m_win wt ≠ Some g → frames s1 !! g = frames si !! g)).
    { destruct (m_win wt) as [g|] eqn:Hmw.
      2:{ exists si. repeat split; try done. by left. }
      destruct (Hg g eq_refl) as [fg Hfg]. step Hfg.
      destruct (iconic fg) eqn:Hic.
      { exists si. repeat split; try done; [by left|].
        intros g' fg' [= <-]. congruence. }
      eexists. split; [done|]. split; [done|]. split; [|split; [|split]].
      - intros w. rewrite frames_set_layer. destruct (decide (w = g)); [|done].
        by destruct (frames si !! w).
      - intros w. rewrite frames_set_layer.
        destruct (decide (w = g)) as [->|]; [|by left].
        right. by rewrite Hfg.
      - intros g' fg' [= <-] _ _. rewrite frames_set_layer.
        rewrite decide_True by done. by rewrite Hfg.
      - intros w Hw. rewrite frames_set_layer. rewrite decide_False; [done|].
        congruence. }
    destruct Hbody as (s1 & -> & Hc1 & Hi1 & Hl1 & Hset1 & Hkeep1).
    cbn [mbind option_bind].
    destruct (IH s1) as (s' & -> & Hc' & Hi' & Hl' & Hset' & Hkeep').
    { intros t' Ht'. destruct (Hts t') as (wt' & Hwt' & Hg'); [by right|].
      exists wt'. rewrite Hc1. split; [done|]. intros g Hgw.
      rewrite <- (fmap_is_Some iconic), Hi1, fmap_is_Some. by apply Hg'. }
    exists s'. split; [done|]. split; [congruence|]. split; [|split; [|split]].
    + intros g. by rewrite Hi', Hi1.
    + intros g. destruct (Hl' g) as [H|H]; [|by right].
      rewrite H. apply Hl1.
    + intros t' wt' g fg Ht' Hwt' Hmw Hfg Hic.
      assert (Hfg1 : ∃ fg1, frames s1 !! g = Some fg1 ∧ iconic fg1 = false).
      { specialize (Hi1 g). rewrite Hfg in Hi1.
        destruct (frames s1 !! g) as [fg1|]; [|done].
        exists fg1. split; [done|]. simpl in Hi1. congruence. }
      destruct Hfg1 as (fg1 & Hfg1 & Hic1).
      apply elem_of_cons in Ht' as [->|Ht'].
      * assert (wt' = wt) as -> by congruence.
        destruct (Hl' g) as [H|H]; [|done]. rewrite H. by eapply Hset1.
      * eapply Hset'; eauto. by rewrite Hc1.
    + intros g Hno. rewrite Hkeep'.
      * apply Hkeep1. eapply Hno; [by left|done].
      * intros t' wt' Ht' Hwt'. eapply Hno; [by right|]. by rewrite <- Hc1.
Qed.

(** a frame that is iconic is passed over by the loop over the
    transients *)
Lemma layer_loop_iconic L ts :
  ∀ si s',
    for_each (λ s t,
        wt ← clients s !! t;
        match m_win wt with
        | Some g =>
            fg ← frames s !! g;
            if iconic fg then Some s
            else
              Some (upd_frame g (fr_layernum L)
                      (upd_frame g (fr_layeritem
                         (layerItem_moveToLayer (layeritem fg) L)) s))
        | None => Some s
        end) ts si = Some s' →
    ∀ g fg, frames si !! g = Some fg → iconic fg = true → frames s' !! g = Some fg.
Proof.
  induction ts as [|t ts IH]; intros si s' H g fg Hg Hic; simpl in H.
  - by injection H as <-.
  - destruct (clients si !! t) as [wt|]; [|done]. cbn [mbind option_bind] in H.
    destruct (m_win wt) as [g0|]; [|by eapply IH].
    destruct (frames si !! g0) as [fg0|] eqn:Hg0; [|done].
    cbn [mbind option_bind] in H.
    destruct (iconic fg0) eqn:Hic0; [by eapply IH|].
    eapply IH; [exact H| |done]. rewrite frames_set_layer.
    rewrite decide_False; [done|]. intros ->. congruence.
Qed.


(** *** The root of a transient chain *)

Lemma rtc_linear (g : Z → option Z) c x y :
  rtc (edge g) c x → rtc (edge g) c y → rtc (edge g) x y ∨ rtc (edge g) y x.
Proof.
  intros Hx. revert y. induction Hx as [c|c c' x Hcc' Hx IH]; intros y Hy.
  - by left.
  - destruct (rtc_inv _ _ Hy) as [->|(c'' & Hcc'' & Hy')].
    + right. by eapply rtc_l.
    + rewrite (edge_functional _ _ _ _ Hcc'' Hcc') in Hy'. by apply IH.
Qed.

Lemma rtc_live s c x :
  tf_live s → live s c → rtc (edge (transientFor s)) c x → live s x.
Proof.
  intros Htf Hc Hr. induction Hr as [c|c c' x Hcc' _ IH]; [done|].
  apply IH. by eapply Htf.
Qed.

(** X18.  [getRootTransientFor] finds the root of a transient chain: in
    an acyclic graph of valid pointers it returns, the client it
    returns is reached from the given client along [transient_for]
    links and has no [transient_for] itself, no other client on the
    chain has that property, and every client of the chain resolves to
    the same root. *)
Theorem getRootTransientFor_root s c :
  acyclic s → tf_live s → live s c →
  ∃ r, getRootTransientFor (S (size (clients s))) s c = Some r ∧
    rtc (edge (transientFor s)) c r ∧ transientFor s r = None ∧
    (∀ r', rtc (edge (transientFor s)) c r' → transientFor s r' = None → r' = r) ∧
    (∀ a, rtc (edge (transientFor s)) c a →
          getRootTransientFor (S (size (clients s))) s a = Some r).
Proof.
  intros Hac Htf Hc.
  destruct (getRootTransientFor_total s c Hac Htf Hc) as (r & Hr & Hpath & Hroot & _).
  assert (Huniq : ∀ r', rtc (edge (transientFor s)) c r' →
                        transientFor s r' = None → r' = r).
  { intros r' Hpath' Hroot'.
    destruct (rtc_linear _ c r r' Hpath Hpath') as [H|H].
    - by apply (rtc_stuck _ _ _ Hroot) in H.
    - symmetry. by apply (rtc_stuck _ _ _ Hroot') in H. }
  exists r. split; [done|]. split; [done|]. split; [done|]. split; [done|].
  intros a Ha.
  destruct (getRootTransientFor_total s a Hac Htf (rtc_live s c a Htf Hc Ha))
    as (ra & Hra & Hpa & Hroota & _).
  rewrite Hra. f_equal. apply Huniq; [|done]. by etrans.
Qed.

(** *** Transient lists and [transient_for] pointers *)

Lemma updateTransientInfo_listed s this s' :
  live s this → graph_inv s → tf_listed s →
  updateTransientInfo s this = Some s' → tf_listed s'.
Proof.
  intros Hthis (Hac & Htf & Hw) Hlisted Hs'.
  unfold updateTransientInfo in Hs'.
  destruct (leave_parent s this) as [sa|] eqn:Hsa; [|done].
  cbn [mbind option_bind] in Hs'.
  destruct (leave_parent_spec _ _ _ Hsa)
    as (Hla & Hsz & Hga & Hta1 & Hta2 & Hwa & Hha).
  assert (Hlisted_a : tf_listed sa).
  { intros c p. rewrite Hga. destruct (decide (c = this)); [done|].
    intros Hc. apply Hta2; [done|]. by apply Hlisted. }
  assert (Hresolve : ∀ win, resolve_parent sa this win = Some s' → tf_listed s').
  { intros win Hres.
    destruct (resolve_parent_spec sa this win) as (s'' & Hs'' & _ & _ & Hg & Hl & _).
    { by apply Hla. }
    { rewrite Hga. by rewrite decide_True. }
    { eapply no_cycle_sub; [|exact Hac]. intros a b. rewrite Hga.
      by destruct (decide (a = this)). }
    assert (s'' = s') as -> by congruence.
    intros c p Hc. apply Hl.
    destruct (Hg c) as [H|[(-> & H & _)|(_ & _ & H)]].
    - left. apply Hlisted_a. by rewrite <- H.
    - right. split; [done|congruence].
    - congruence. }
  destruct (x_transient_for sa !! this) as [win|]; [|by injection Hs' as <-].
  destruct (decide (win = this)); [by injection Hs' as <-|].
  destruct (decide (win ≠ 0 ∧ rootWindow = win)); [by injection Hs' as <-|].
  by eapply Hresolve.
Qed.

Lemma for_each_update_listed l s :
  (∀ x, x ∈ l → live s x) → graph_inv s → tf_listed s →
  ∃ s', for_each updateTransientInfo l s = Some s' ∧ graph_inv s' ∧ tf_listed s' ∧
    (∀ x, live s' x ↔ live s x).
Proof.
  revert s. induction l as [|x l IH]; intros s Hl Hinv Hlisted.
  - exists s. split; [done|]. split; [done|]. by split.
  - destruct (updateTransientInfo_spec s x) as (s1 & Hs1 & Hinv1 & Hl1 & _).
    { apply Hl. by left. }
    { done. }
    destruct (IH s1) as (s' & Hs' & Hinv' & Hlisted' & Hl').
    { intros y Hy. apply Hl1, Hl. by right. }
    { done. }
    { apply (updateTransientInfo_listed s x); [apply Hl; by left|done|done|exact Hs1]. }
    exists s'. simpl. rewrite Hs1. cbn [mbind option_bind].
    split; [done|]. split; [done|]. split; [done|].
    intros y. rewrite Hl'. apply Hl1.
Qed.

Lemma tf_listed_fresh s win wc :
  clients s !! win = None → transient_for wc = None → tf_live s →
  tf_listed s → tf_listed (with_clients <[win := wc]> s).
Proof.
  intros Hfresh Hwc Htf Hlisted c p.
  unfold transientFor, transientList, with_clients. simpl.
  rewrite !lookup_insert.
  destruct (decide (win = c)) as [->|Hc]; [simpl; by rewrite Hwc|].
  intros Hcp. fold (transientFor s c) in Hcp.
  destruct (decide (win = p)) as [->|Hp].
  - destruct (Htf c p Hcp) as [? H]. congruence.
  - by apply Hlisted.
Qed.

Lemma tf_listed_clients s s' :
  clients s' = clients s → tf_listed s → tf_listed s'.
Proof.
  intros Hc H c p. unfold transientFor, transientList. rewrite Hc. apply H.
Qed.

Lemma WinClient_new_listed s win fbwin input take_focus s' :
  clients s !! win = None → graph_inv s → tf_listed s →
  WinClient_new s win fbwin input take_focus = Some s' →
  graph_inv s' ∧ tf_listed s'.
Proof.
  intros Hfresh Hinv Hlisted Hs'.
  destruct (WinClient_new_cases s win fbwin input take_focus Hfresh Hinv)
    as [(s'' & Hs'' & Hinv' & Hdef)|[Hnone _]]; [|congruence].
  assert (s'' = s') as -> by congruence. split; [done|]. clear Hs''.
  revert Hs'. unfold WinClient_new.
  set (wc := mkWinClient None [] fbwin false 0 input take_focus).
  destruct (graph_inv_fresh s win wc Hfresh eq_refl Hinv) as [Hinv0 Hl0].
  pose proof (tf_listed_fresh s win wc Hfresh eq_refl (proj1 (proj2 Hinv)) Hlisted)
    as Hlisted0.
  set (s0 := with_clients <[win := wc]> s) in *.
  change (s_transient_wait s0) with (s_transient_wait s).
  destruct (s_transient_wait s !! win) as [waiting|] eqn:Hwait.
  2:{ cbn [mbind option_bind]. apply updateTransientInfo_listed; [|done..].
      apply Hl0. by left. }
  assert (Hlive : ∀ x, x ∈ waiting → live s0 x).
  { intros x Hx. destruct Hinv0 as (_ & _ & Hw). by eapply (Hw win). }
  assert (Hno : ∀ t, t ∈ waiting → ¬ requeues s0 t).
  { intros t Ht Hq. apply requeues_fresh in Hq. by apply (Hdef waiting t). }
  destruct (walk_as_update win waiting waiting s0 Hinv0 Hlive Hwait Hno) as [-> _].
  destruct (for_each_update_listed waiting s0 Hlive Hinv0 Hlisted0)
    as (s1 & -> & Hinv1 & Hlisted1 & Hl1).
  cbn [mbind option_bind].
  apply updateTransientInfo_listed.
  - apply (Hl1 win), Hl0. by left.
  - by apply graph_inv_with_wait_delete.
  - by eapply tf_listed_clients.
Qed.

Lemma run_listed es s s' :
  graph_inv s → tf_listed s → run s es = Some s' → graph_inv s' ∧ tf_listed s'.
Proof.
  revert s. induction es as [|e es IH]; intros s Hinv Hlisted Hs'; simpl in Hs'.
  - by injection Hs' as <-.
  - destruct (dispatch s e) as [s1|] eqn:Hs1; [|done].
    cbn [mbind option_bind] in Hs'.
    assert (graph_inv s1 ∧ tf_listed s1) as [Hinv1 Hlisted1]; [|by eapply IH].
    destruct e as [win fbwin input take_focus|win hint|win]; simpl in Hs1.
    + destruct (clients s !! win) eqn:Hwin; [by injection Hs1 as <-|].
      by eapply WinClient_new_listed.
    + injection Hs1 as <-. split; [exact Hinv|]. by eapply tf_listed_clients.
    + destruct (clients s !! win) eqn:Hwin; [|by injection Hs1 as <-].
      destruct (updateTransientInfo_spec s win) as (s'' & Hs'' & Hinv' & _);
        [by eexists|done|].
      assert (s'' = s1) as -> by congruence. split; [done|].
      apply (updateTransientInfo_listed s win); [by eexists|done|done|exact Hs1].
Qed.

(** X19.  Whatever windows are registered and whatever hints they
    declare or change: whenever the sequence of notifications has been
    carried out, every client that has a [transient_for] pointer is an
    entry of the transient list of the client it points to; and a
    sequence in which every hint change is followed at once by the
    re-resolution of the client is carried out in full. *)
Theorem transient_lists_cover_links (hints : gmap Z Z) (es : list Event) :
  (∀ s, run (init_state hints) es = Some s →
        ∀ c p, transientFor s c = Some p → c ∈ transientList s p) ∧
  (relinked es →
   ∃ s, run (init_state hints) es = Some s ∧
        ∀ c p, transientFor s c = Some p → c ∈ transientList s p).
Proof.
  assert (Hl0 : tf_listed (init_state hints)) by (intros c p H; done).
  assert (Hall : ∀ s, run (init_state hints) es = Some s → tf_listed s).
  { intros s Hs.
    by destruct (run_listed es _ s (graph_inv_init hints) Hl0 Hs). }
  split; [exact Hall|]. intros Hrel.
  destruct (run_relinked es _ (graph_inv_init hints)) as (s & Hs & _).
  - intros k l t H. done.
  - done.
  - exists s. split; [done|]. by apply Hall.
Qed.

Lemma rtc_until_cut (g g' : Z → option Z) a b :
  (∀ c, c ≠ b → g' c = g c ∨ (g c = Some b ∧ g' c = None)) →
  rtc (edge g) a b →
  rtc (edge g') a b ∨ ∃ c, c ≠ b ∧ g c = Some b ∧ g' c = None.
Proof.
  intros Hcut Hr. induction Hr as [a|a y b Hay Hr IH]; [left; apply rtc_refl|].
  destruct (decide (a = b)) as [->|Hne]; [left; apply rtc_refl|].
  destruct (Hcut a Hne) as [H|[H1 H2]]; [|right; by exists a].
  destruct (IH Hcut) as [IH'|IH']; [|by right].
  left. eapply rtc_l; [|exact IH']. unfold edge in *. congruence.
Qed.

(** X20.  Breaking a cycle leaves a list entry behind: when a client
    declares itself transient for a registered window that is, along
    [transient_for] links, already transient for that client,
    [updateTransientInfo] links the client to the window and clears
    the [transient_for] pointer of a client that pointed to it, and
    that client remains an entry of the transient list of the client
    although it is no longer transient for it. *)
Theorem cycle_break_keeps_list_entry s this win :
  graph_inv s → tf_listed s → live s this → live s win →
  x_transient_for s !! this = Some win → win ≠ this →
  ¬ (win ≠ 0 ∧ rootWindow = win) →
  rtc (edge (transientFor s)) win this →
  ∃ s' c, updateTransientInfo s this = Some s' ∧
    transientFor s' this = Some win ∧
    transientFor s c = Some this ∧ transientFor s' c = None ∧
    c ∈ transientList s' this.
Proof.
  intros Hinv Hlisted Hthis [wwin Hwin] Hhint Hne Hroot Hpath.
  destruct (updateTransientInfo_spec s this Hthis Hinv)
    as (s' & Hs' & (Hac' & _) & _ & _ & Hg & Hl & _ & Hlink & _).
  specialize (Hlink win Hhint Hne Hroot). rewrite Hwin in Hlink.
  destruct Hlink as [Hlink _].
  destruct (rtc_until_cut (transientFor s) (transientFor s') win this) as [H|H].
  - intros c Hc. destruct (Hg c Hc) as [?|[? ?]]; [by left|by right].
  - done.
  - exfalso. apply (Hac' this). eapply tc_rtc_r; [|exact H]. by apply tc_once.
  - destruct H as (c & Hc & Hc1 & Hc2). exists s', c.
    split; [done|]. split; [done|]. split; [done|]. split; [done|].
    apply Hl; [done|]. by apply Hlisted.
Qed.

(** *** The destructor and the invariants *)

Lemma clear_transients_graph s this wc :
  clients s !! this = Some wc →
  (∀ p, transient_for wc = Some p → p ≠ this ∧ live s p) →
  (∀ t, t ∈ transients wc → live s t) →
  ∃ s1, clear_transients s this = Some s1 ∧
    (∀ x, live s1 x ↔ live s x) ∧
    (∀ x, transientFor s1 x
          = if decide (x = this ∨ x ∈ transients wc) then None else transientFor s x) ∧
    (∀ x t, x ≠ this → t ≠ this → t ∈ transientList s x → t ∈ transientList s1 x) ∧
    s_transient_wait s1 = s_transient_wait s.
Proof.
  intros Hwc Hp Hts. unfold clear_transients. step Hwc.
  assert (Hmid : ∃ s0,
            match transient_for wc with
            | Some p =>
                if decide (p = this) then None
                else
                  _ ← clients s !! p;
                  Some (upd_client this (wc_transient_for None)
                          (modal_step (m_modal wc) Z.pred p
                             (upd_client p (wc_transients (list_remove this)) s)))
            | None => Some s
            end = Some s0 ∧
            (∀ x, live s0 x ↔ live s x) ∧
            (∀ x, transientFor s0 x
                  = if decide (x = this) then None else transientFor s x) ∧
            (∀ x t, t ≠ this → t ∈ transientList s x → t ∈ transientList s0 x) ∧
            s_transient_wait s0 = s_transient_wait s).
  { destruct (transient_for wc) as [p|] eqn:Htf.
    - destruct (Hp p eq_refl) as [Hne [pc Hpc]].
      rewrite decide_False by done. step Hpc. eexists. split; [done|].
      split; [|split; [|split]].
      + intros x. by rewrite live_upd_client, live_modal_step, live_upd_client.
      + intros x. rewrite transientFor_upd_tf.
        destruct (decide (x = this)); [apply bind_to_None|].
        rewrite transientFor_modal_step. by apply transientFor_upd_keep.
      + intros x t Ht. rewrite transientList_upd_keep by done.
        rewrite transientList_modal_step, transientList_upd_transients.
        destruct (decide (x = p)) as [->|]; [|done].
        unfold transientList. rewrite Hpc. simpl.
        rewrite elem_of_list_remove. by split.
      + simpl. by rewrite wait_modal_step.
    - exists s. split; [done|]. split; [done|]. split; [|by split].
      intros x. destruct (decide (x = this)) as [->|]; [|done].
      unfold transientFor. rewrite Hwc. exact Htf. }
  destruct Hmid as (s0 & -> & Hl0 & Hg0 & Hk0 & Hw0). cbn [mbind option_bind].
  destruct (for_each_orphan (reverse (transients wc)) s0)
    as (s1 & -> & Hl1 & Hin & Hout & Hts1 & _ & Hw1 & _).
  { intros t Ht. rewrite elem_of_reverse in Ht. by apply Hl0, Hts. }
  cbn [mbind option_bind]. eexists. split; [done|].
  split; [|split; [|split]].
  - intros x. by rewrite live_upd_client, Hl1.
  - intros x. rewrite transientFor_upd_keep by done.
    destruct (decide (x ∈ transients wc)) as [Hx|Hx].
    + rewrite decide_True by (by right). apply Hin. by rewrite elem_of_reverse.
    + rewrite Hout by (by rewrite elem_of_reverse). rewrite Hg0.
      destruct (decide (x = this)) as [->|Hne].
      * by rewrite decide_True by (by left).
      * rewrite decide_False; [done|]. by intros [?|?].
  - intros x t Hx Ht Hin'. rewrite transientList_upd_transients.
    rewrite decide_False by done. rewrite Hts1. by apply Hk0.
  - simpl. congruence.
Qed.

(** X21.  The destructor keeps the transient graph sound: when the
    entries of the transient list of the dying client are live clients
    and the hand-over inside its frame returns, the destructor returns,
    and afterwards the graph is still acyclic, every [transient_for]
    pointer and every waiting client still refers to a live client, and
    every client with a [transient_for] pointer is still listed by the
    client it points to. *)
Theorem WinClient_delete_keeps_graph fuel s this wc :
  clients s !! this = Some wc → graph_inv s → tf_listed s →
  (∀ t, t ∈ transients wc → live s t) →
  (∀ s1 w, clear_transients s this = Some s1 → m_win wc = Some w →
           is_Some (removeClient fuel (upd_client this wc_no_focus s1) w this)) →
  ∃ s', WinClient_delete fuel s this = Some s' ∧ graph_inv s' ∧ tf_listed s'.
Proof.
  intros Hwc (Hac & Htf & Hwl) Hlisted Hts Hfocus.
  assert (Hthis : transientFor s this = transient_for wc)
    by (unfold transientFor; by rewrite Hwc).
  assert (Hp : ∀ p, transient_for wc = Some p → p ≠ this ∧ live s p).
  { intros p Hpar. rewrite <- Hthis in Hpar. split; [|by eapply Htf].
    intros ->. apply (Hac this). by apply tc_once. }
  destruct (clear_transients_graph s this wc Hwc Hp Hts)
    as (s1 & Hs1 & Hl1 & Hg1 & Hk1 & Hw1).
  unfold WinClient_delete. step Hwc. step Hs1.
  set (s1a := upd_client this wc_no_focus s1).
  assert (Hg1a : same_graph s1 s1a).
  { split; [|split]; [| |done]; intros x; unfold s1a;
      rewrite clients_upd_client; destruct (decide (x = this)); try done;
      by destruct (clients s1 !! x). }
  assert (Hmid : ∃ s2,
            match m_win wc with
            | Some w => '(_, s) ← removeClient fuel s1a w this; Some s
            | None => Some s1a
            end = Some s2 ∧ same_graph s1 s2).
  { destruct (m_win wc) as [w|] eqn:Hw; [|by exists s1a].
    destruct (Hfocus s1 w Hs1 eq_refl) as [[b s2] Hrm]. fold s1a in Hrm.
    exists s2. rewrite Hrm. split; [done|].
    eapply same_graph_trans; [exact Hg1a|]. by eapply removeClient_same_graph. }
  destruct Hmid as (s2 & -> & Hg2). cbn [mbind option_bind].
  eexists. split; [done|].
  set (s3 := with_wait (delete this) (removeTransientFromWaitingList this s2)).
  set (s' := with_clients (delete this) s3).
  assert (Htf' : ∀ x, transientFor s' x
                      = if decide (x = this ∨ x ∈ transients wc) then None
                        else transientFor s x).
  { intros x. unfold transientFor at 1. simpl. rewrite lookup_delete.
    destruct (decide (this = x)) as [->|].
    - by rewrite decide_True by (by left).
    - fold (transientFor s2 x). by rewrite (same_graph_transientFor _ _ x Hg2), Hg1. }
  assert (Hl' : ∀ x, live s' x ↔ x ≠ this ∧ live s x).
  { intros x. unfold live at 1. simpl. rewrite lookup_delete.
    destruct (decide (this = x)) as [->|].
    - split; [by intros [? ?]|by intros [? _]].
    - fold (live s2 x). rewrite (same_graph_live _ _ x Hg2), Hl1.
      split; [by split|by intros [_ ?]]. }
  assert (Hsub : ∀ a b, transientFor s' a = Some b →
                        transientFor s a = Some b ∧ a ≠ this ∧ b ≠ this).
  { intros a b. rewrite Htf'.
    destruct (decide (a = this ∨ a ∈ transients wc)) as [|Hno]; [done|].
    intros Hab. split; [done|]. split; [intros ->; apply Hno; by left|].
    intros ->. apply Hno. right.
    pose proof (Hlisted a this Hab) as Hin.
    unfold transientList in Hin. by rewrite Hwc in Hin. }
  split; [split; [|split]|].
  - eapply no_cycle_sub; [|exact Hac]. intros a b Hab. by apply Hsub.
  - intros c p Hcp. destruct (Hsub c p Hcp) as (Hcp' & _ & Hne).
    apply Hl'. split; [done|]. by eapply Htf.
  - intros k l x. simpl. rewrite lookup_delete.
    destruct (decide (this = k)); [done|].
    rewrite lookup_omap. destruct Hg2 as (_ & _ & Hw2).
    destruct (s_transient_wait s2 !! k) as [l0|] eqn:Hk; [|done].
    simpl. destruct (list_remove this l0) as [|z l1] eqn:Hrm; [done|].
    intros [= <-]. rewrite <- Hrm, elem_of_list_remove. intros [Hne Hx].
    apply Hl'. split; [done|]. rewrite Hw2, Hw1 in Hk. by eapply Hwl.
  - intros c p Hcp. destruct (Hsub c p Hcp) as (Hcp' & Hc & Hne).
    unfold transientList. simpl. rewrite lookup_delete_ne by done.
    fold (transientList s2 p). rewrite (same_graph_transientList _ _ p Hg2).
    apply Hk1; [done|done|]. by apply Hlisted.
Qed.

(** *** The modal state *)

(** X22.  Setting the modal state and clearing it again restores the
    state, the modal count of the parent included; and setting the
    state to what it already is changes nothing. *)
Theorem setStateModal_round_trip s this wc :
  clients s !! this = Some wc → m_modal wc = false →
  (∀ p, transient_for wc = Some p → p ≠ this ∧ live s p) →
  (s1 ← setStateModal s this true; setStateModal s1 this false) = Some s ∧
  setStateModal s this false = Some s.
Proof.
  intros Hwc Hm Hp. split.
  2:{ unfold setStateModal. step Hwc. by rewrite Hm. }
  set (s1 := match transient_for wc with
             | Some p => upd_client p (wc_modal_count Z.succ)
                           (upd_client this (wc_modal true) s)
             | None => upd_client this (wc_modal true) s
             end).
  assert (H1 : setStateModal s this true = Some s1).
  { unfold setStateModal, s1. step Hwc. rewrite Hm. simpl.
    destruct (transient_for wc) as [p|] eqn:Hpar; [|done].
    destruct (Hp p eq_refl) as [Hne [pc Hpc]].
    rewrite lookup_alter_ne by done. by rewrite Hpc. }
  rewrite H1. cbn [mbind option_bind].
  assert (Hthis : clients s1 !! this = Some (wc_modal true wc)).
  { unfold s1. destruct (transient_for wc) as [p|] eqn:Hpar.
    - destruct (Hp p eq_refl) as [Hne _].
      by rewrite !clients_upd_client, decide_False, decide_True, Hwc by done.
    - by rewrite clients_upd_client, decide_True, Hwc. }
  unfold setStateModal. step Hthis. simpl.
  assert (Hback : ∀ x, clients
            (match transient_for wc with
             | Some p => upd_client p (wc_modal_count Z.pred)
                           (upd_client this (wc_modal false) s1)
             | None => upd_client this (wc_modal false) s1
             end) !! x = clients s !! x).
  { intros x. unfold s1. destruct (transient_for wc) as [p|] eqn:Hpar.
    - destruct (Hp p eq_refl) as [Hne [pc Hpc]].
      rewrite !clients_upd_client.
      destruct (decide (x = p)) as [->|Hxp].
      + rewrite !decide_False by done. rewrite Hpc. simpl. f_equal.
        destruct pc. unfold wc_modal_count. simpl. f_equal. lia.
      + destruct (decide (x = this)) as [->|]; [|done].
        rewrite Hwc. simpl. f_equal. destruct wc. simpl in *. by subst.
    - rewrite !clients_upd_client.
      destruct (decide (x = this)) as [->|]; [|done].
      rewrite Hwc. simpl. f_equal. destruct wc. simpl in *. by subst. }
  destruct (transient_for wc) as [p|] eqn:Hpar.
  - destruct (Hp p eq_refl) as [Hne [pc Hpc]].
    assert (Hpl : is_Some (alter (wc_modal false) this (clients s1) !! p)).
    { change (alter (wc_modal false) this (clients s1))
        with (clients (upd_client this (wc_modal false) s1)).
      unfold s1. rewrite !clients_upd_client, !decide_False, decide_True, Hpc by done.
      rewrite decide_False by done. by eexists. }
    destruct Hpl as [pc' ->]. cbn [mbind option_bind]. f_equal.
    apply map_eq in Hback. unfold s1 in *. destruct s. unfold upd_client, with_clients in *.
    simpl in *. by f_equal.
  - f_equal. apply map_eq in Hback. unfold s1 in *. destruct s.
    unfold upd_client, with_clients in *. simpl in *. by f_equal.
Qed.

(** *** One layer up, one layer down *)

Lemma changeLayer_family step s this f c :
  acyclic s → tf_live s → wf_frames s →
  frames s !! this = Some f → m_client f = Some c →
  ∃ r wr, getRootTransientFor (S (size (clients s))) s c = Some r ∧
    clients s !! r = Some wr ∧
    (m_win wr = None → changeLayer step s this = Some s) ∧
    (∀ win fw, m_win wr = Some win → frames s !! win = Some fw →
       ∃ s', changeLayer step s this = Some s' ∧
         family_on_layer s s' wr (step (layeritem fw))).
Proof.
  intros Hac Htf Hwf Hf Hc.
  pose proof Hwf as [Hfr Hcl].
  assert (Hlc : live s c).
  { pose proof (Hfr this f Hf) as H. unfold frame_ok in H. rewrite Hc in H.
    exact H. }
  destruct (getRootTransientFor_total s c Hac Htf Hlc)
    as (r & Hr & Hpath & Hroot & [wr Hwr]).
  exists r, wr. split; [done|]. split; [done|].
  destruct (Hcl r wr Hwr) as [Hts Hwin].
  split.
  { intros Hno. unfold changeLayer. step Hf. step Hc. step Hr. step Hwr.
    by rewrite Hno. }
  intros win fw Hmw Hfw. unfold changeLayer. step Hf. step Hc. step Hr. step Hwr.
  rewrite Hmw. step Hfw.
  set (L := step (layeritem fw)).
  set (s1 := upd_frame win (fr_layernum L) (upd_frame win (fr_layeritem L) s)).
  assert (Hf1 : ∀ w, frames s1 !! w =
            if decide (w = win)
            then (λ f, fr_layernum L (fr_layeritem L f)) <$> frames s !! w
            else frames s !! w) by (intros w; apply frames_set_layer).
  destruct (moveToLayer_loop L (transients wr) s1)
    as (s' & Hs' & Hc' & Hi' & Hl' & Hset' & Hkeep').
  { intros t Ht. rewrite Forall_forall in Hts.
    destruct (Hts t Ht) as [wt Hwt]. exists wt. split; [done|].
    intros g Hg. destruct (Hcl t wt Hwt) as [_ Hgw]. rewrite Hg in Hgw.
    rewrite Hf1. destruct (decide (g = win)); [|done]. by rewrite fmap_is_Some. }
  pose proof (layer_loop_iconic L (transients wr) s1 s' Hs') as Hicon.
  rewrite Hs'.
  exists s'. split; [done|]. split; [done|]. split; [|split].
  - intros win' Hwin'. assert (win' = win) as -> by congruence.
    destruct (Hl' win) as [H|H]; [|done]. rewrite H, Hf1.
    rewrite decide_True by done. by rewrite Hfw.
  - intros t wt g fg Ht Hwt Hg Hfg Hicg.
    destruct (decide (g = win)) as [->|Hne].
    + destruct (Hl' win) as [H|H]; [|done]. rewrite H, Hf1.
      rewrite decide_True by done. by rewrite Hfw.
    + eapply (Hset' t wt g fg); eauto. rewrite Hf1. by rewrite decide_False.
  - intros g Hne Hno.
    assert (Hg1 : frames s1 !! g = frames s !! g).
    { rewrite Hf1. rewrite decide_False; [done|]. congruence. }
    destruct (frames s !! g) as [fg|] eqn:Hfg.
    2:{ specialize (Hi' g). rewrite Hg1 in Hi'. by destruct (frames s' !! g). }
    destruct (iconic fg) eqn:Hicg; [by apply Hicon|].
    rewrite Hkeep'; [done|].
    intros t wt Ht Hwt Hgw. specialize (Hno t wt Ht Hwt Hgw).
    simpl in Hno. congruence.
Qed.

(** X23.  [raiseLayer] and [lowerLayer] keep a transient family on one
    layer: the frame of the root of the transient chain moves to the
    layer its layer item reports after the step, and every frame of a
    transient of the root that is not iconic gets that same layer
    number, while every other frame, be it iconic or the frame of no
    transient of the root, and every client stays as it was.
    [raiseLayer] does nothing when the frame it is called on is on the
    layer just above the menu layer. *)
Theorem raiseLayer_lowerLayer_family up down s this f c :
  acyclic s → tf_live s → wf_frames s →
  frames s !! this = Some f → m_client f = Some c →
  ∃ r wr, getRootTransientFor (S (size (clients s))) s c = Some r ∧
    clients s !! r = Some wr ∧
    (m_layernum f = getMenuLayer + 1 → raiseLayer up s this = Some s) ∧
    (∀ win fw, m_win wr = Some win → frames s !! win = Some fw →
       (m_layernum f ≠ getMenuLayer + 1 →
        ∃ s', raiseLayer up s this = Some s' ∧
              family_on_layer s s' wr (up (layeritem fw))) ∧
       (∃ s', lowerLayer down s this = Some s' ∧
              family_on_layer s s' wr (down (layeritem fw)))).
Proof.
  intros Hac Htf Hwf Hf Hc.
  destruct (changeLayer_family up s this f c Hac Htf Hwf Hf Hc)
    as (r & wr & Hr & Hwr & _ & Hup).
  destruct (changeLayer_family down s this f c Hac Htf Hwf Hf Hc)
    as (r' & wr' & Hr' & Hwr' & _ & Hdown).
  assert (r' = r) as -> by congruence. assert (wr' = wr) as -> by congruence.
  exists r, wr. split; [done|]. split; [done|]. split.
  - intros Htop. unfold raiseLayer. step Hf.
    by destruct (Z.eqb_spec (m_layernum f) (getMenuLayer + 1)).
  - intros win fw Hmw Hfw. split.
    + intros Htop. unfold raiseLayer. step Hf.
      destruct (Z.eqb_spec (m_layernum f) (getMenuLayer + 1)); [done|].
      by apply (Hup win).
    + unfold lowerLayer. by apply (Hdown win).
Qed.

(** *** Cycling through the tabs *)

Lemma find_next_split a l1 l2 :
  a ∉ l1 → find_next a (l1 ++ a :: l2) = Some (head l2).
Proof.
  induction l1 as [|y l1 IH]; intros Ha; simpl.
  - by rewrite decide_True.
  - apply not_elem_of_cons in Ha as [Hay Ha]. rewrite decide_False by done.
    by apply IH.
Qed.

Lemma find_prev_split prev a l1 l2 :
  a ∉ l1 →
  find_prev prev a (l1 ++ a :: l2)
  = Some (match last l1 with Some x => Some x | None => prev end).
Proof.
  revert prev. induction l1 as [|y l1 IH]; intros prev Ha; simpl.
  - by rewrite decide_True.
  - apply not_elem_of_cons in Ha as [Hay Ha]. rewrite decide_False by done.
    rewrite IH by done. destruct l1 as [|z l1]; [done|].
    rewrite last_cons_cons. destruct (last (z :: l1)) eqn:E; [done|].
    by apply last_None in E.
Qed.

Lemma activate_direct fuel s this f c wc :
  frames s !! this = Some f → clients s !! c = Some wc →
  transients wc = [] ∨ isModal wc = false →
  ∃ s', activate (S fuel) s this (Some c) = Some s' ∧
    frames s' !! this = Some (fr_client (Some c) f) ∧
    (∀ w, w ≠ this → frames s' !! w = frames s !! w) ∧
    clients s' = clients s.
Proof.
  intros Hf Hc Hno. unfold activate. cbn [mbind option_bind].
  set (s0 := xcall (XRaiseWindow c) (upd_frame this (fr_client (Some c)) s)).
  assert (Hf0 : frames s0 !! this = Some (fr_client (Some c) f)).
  { unfold s0. change (frames (xcall _ ?x)) with (frames x).
    by rewrite frames_upd_frame, decide_True, Hf. }
  destruct (setInputFocus_direct fuel s0 this _ c wc Hf0 eq_refl Hc Hno)
    as (b & s' & Hs' & Hfr & Hcl & _).
  cbv zeta. fold s0. step Hs'. exists s'. split; [done|]. rewrite Hfr, Hcl.
  split; [done|]. split; [|done].
  intros w Hw. unfold s0. change (frames (xcall _ ?x)) with (frames x).
  by rewrite frames_upd_frame, decide_False.
Qed.

(** X24.  In a frame with several tabs, none of them blocked by a
    modal transient, [nextClient] makes the tab that follows the active
    one active (the first tab after the last one), and [prevClient]
    then makes the tab that was active before active again; the order
    of the tabs and all clients stay as they were. *)
Theorem nextClient_prevClient fuel s this f l1 a l2 :
  frames s !! this = Some f → m_clientlist f = l1 ++ a :: l2 →
  NoDup (m_clientlist f) → (2 <= length (m_clientlist f))%nat →
  m_client f = Some a →
  (∀ x, x ∈ m_clientlist f →
        ∃ wx, clients s !! x = Some wx ∧ (transients wx = [] ∨ isModal wx = false)) →
  ∃ n s1 s2,
    head (l2 ++ l1) = Some n ∧
    nextClient (S fuel) s this = Some s1 ∧
    frames s1 !! this = Some (fr_client (Some n) f) ∧
    prevClient (S fuel) s1 this = Some s2 ∧
    frames s2 !! this = Some f ∧ clients s2 = clients s.
Proof.
  intros Hf Hlist Hnd Hlen Ha Hcl.
  assert (Hal1 : a ∉ l1).
  { rewrite Hlist in Hnd. apply NoDup_app in Hnd as (_ & H & _).
    intros Hin. apply (H a Hin). by left. }
  assert (Hn : ∃ n, head (l2 ++ l1) = Some n ∧ n ∈ m_clientlist f ∧
                    match head l2 with
                    | Some y => Some y
                    | None => head (m_clientlist f)
                    end = Some n).
  { rewrite Hlist. destruct l2 as [|y l2].
    - destruct l1 as [|x l1]; [simpl in *; rewrite Hlist in Hlen; simpl in Hlen; lia|].
      exists x. split; [done|]. split; [by left|done].
    - exists y. split; [done|]. split; [|done].
      apply elem_of_app. right. right. by left. }
  destruct Hn as (n & Hhead & Hnin & Hnext).
  destruct (Hcl n Hnin) as (wn & Hwn & Hnon).
  destruct (Hcl a) as (wa & Hwa & Hnoa).
  { rewrite Hlist. apply elem_of_app. right. by left. }
  destruct (activate_direct fuel s this f n wn Hf Hwn Hnon)
    as (s1 & Hs1 & Hf1 & Hother1 & Hc1).
  assert (Hnc : nextClient (S fuel) s this = Some s1).
  { unfold nextClient. step Hf.
    assert ((length (m_clientlist f) <=? 1)%nat = false) as ->
      by (apply Nat.leb_gt; lia).
    rewrite Ha. cbn [mbind option_bind]. rewrite Hlist at 1.
    rewrite find_next_split by done.
    destruct (head l2) as [y|]; [by injection Hnext as ->|].
    by rewrite Hnext. }
  destruct (activate_direct fuel s1 this (fr_client (Some n) f) a wa Hf1)
    as (s2 & Hs2 & Hf2 & Hother2 & Hc2); [by rewrite Hc1|done|].
  exists n, s1, s2. split; [done|]. split; [done|]. split; [done|].
  split; [|split; [|congruence]].
  - unfold prevClient. step Hf1. cbn [fr_client m_clientlist m_client].
    assert ((length (m_clientlist f) <=? 1)%nat = false) as ->
      by (apply Nat.leb_gt; lia).
    cbn [mbind option_bind].
    assert (Hprev : match find_prev None n (m_clientlist f) with
                    | Some None => last (m_clientlist f)
                    | Some (Some c) => Some c
                    | None => None
                    end = Some a).
    { rewrite Hlist. destruct l2 as [|y l2].
      - destruct l1 as [|x l1]; [done|]. simpl in Hhead. injection Hhead as ->.
        simpl. rewrite decide_True by done.
        change (n :: l1 ++ [a]) with ((n :: l1) ++ [a]). by rewrite last_snoc.
      - simpl in Hhead. injection Hhead as ->.
        change (l1 ++ a :: n :: l2) with (l1 ++ [a] ++ n :: l2).
        rewrite app_assoc. rewrite find_prev_split.
        + by rewrite last_snoc.
        + rewrite Hlist in Hnd.
          change (l1 ++ a :: n :: l2) with (l1 ++ [a] ++ n :: l2) in Hnd.
          rewrite app_assoc in Hnd. apply NoDup_app in Hnd as (_ & H & _).
          intros Hin. apply (H n Hin). by left. }
    destruct (find_prev None n (m_clientlist f)) as [[c|]|]; [| |done].
    + injection Hprev as ->. exact Hs2.
    + rewrite Hprev. exact Hs2.
  - rewrite Hf2. f_equal. destruct f. simpl in *. by subst.
Qed.

(** *** Removing the active tab *)

Lemma list_remove_absent a l : a ∉ l → list_remove a l = l.
Proof.
  induction l as [|y l IH]; intros Ha; [done|].
  apply not_elem_of_cons in Ha as [Hay Ha]. unfold list_remove in *.
  rewrite filter_cons_True by done. by rewrite IH.
Qed.

Lemma list_remove_middle a l1 l2 :
  a ∉ l1 → a ∉ l2 → list_remove a (l1 ++ a :: l2) = l1 ++ l2.
Proof.
  intros H1 H2. unfold list_remove. rewrite filter_app.
  rewrite filter_cons_False by (intros H; by apply H).
  fold (list_remove a l1) (list_remove a l2).
  by rewrite !list_remove_absent.
Qed.

(** X25.  Removing the active tab hands the frame over: when no tab is
    blocked by a modal transient, [removeClient] on the active client
    returns true, leaves the other tabs in their order, clears the
    frame pointer of the removed client and nothing else of any client,
    and makes the tab that followed the removed one the active client,
    or the tab before it when it was the last; a frame that loses its
    only tab is left without an active client. *)
Theorem removeClient_active_tab fuel s this f l1 a l2 wa :
  frames s !! this = Some f → m_clientlist f = l1 ++ a :: l2 →
  NoDup (m_clientlist f) → m_client f = Some a →
  clients s !! a = Some wa → m_win wa = Some this →
  (∀ x, x ∈ m_clientlist f →
        ∃ wx, clients s !! x = Some wx ∧ (transients wx = [] ∨ isModal wx = false)) →
  ∃ s' f', removeClient (S fuel) s this a = Some (true, s') ∧
    frames s' !! this = Some f' ∧
    m_clientlist f' = l1 ++ l2 ∧
    m_client f' = match l2 with y :: _ => Some y | [] => last l1 end ∧
    clients s' !! a = Some (wc_m_win None wa) ∧
    (∀ x, x ≠ a → clients s' !! x = clients s !! x).
Proof.
  intros Hf Hlist Hnd Ha Hwa Hmine Hcl.
  assert (Hal1 : a ∉ l1).
  { rewrite Hlist in Hnd. apply NoDup_app in Hnd as (_ & H & _).
    intros Hin. apply (H a Hin). by left. }
  assert (Hal2 : a ∉ l2).
  { rewrite Hlist in Hnd. apply NoDup_app in Hnd as (_ & _ & H).
    by apply NoDup_cons in H as [H _]. }
  set (v := match l2 with y :: _ => Some y | [] => last l1 end).
  (* the hand-over before the client leaves the list *)
  assert (Hover : ∃ s1 v1,
    (if decide (last (m_clientlist f) = Some a)
     then prevClient (S fuel) s this else nextClient (S fuel) s this) = Some s1 ∧
    frames s1 !! this = Some (fr_client v1 f) ∧ clients s1 = clients s ∧
    (if decide (v1 = Some a) then l1 = [] ∧ l2 = [] else v1 = v)).
  { destruct l2 as [|y l2].
    - rewrite decide_True by (by rewrite Hlist, last_snoc).
      destruct (last l1) as [x|] eqn:Hlast.
      + assert (Hx : x ∈ l1) by (by apply last_Some_elem_of).
        destruct (Hcl x) as (wx & Hwx & Hnox).
        { rewrite Hlist. apply elem_of_app. by left. }
        destruct (activate_direct fuel s this f x wx Hf Hwx Hnox)
          as (s1 & Hs1 & Hf1 & _ & Hc1).
        exists s1, (Some x). split; [|split; [done|split; [done|]]].
        * unfold prevClient. step Hf.
          assert ((length (m_clientlist f) <=? 1)%nat = false) as ->.
          { apply Nat.leb_gt. rewrite Hlist, length_app. simpl.
            destruct l1; [done|simpl; lia]. }
          rewrite Ha. cbn [mbind option_bind]. rewrite Hlist at 1.
          rewrite find_prev_split by done. by rewrite Hlast.
        * rewrite decide_False; [done|]. intros [= ->]. done.
      + apply last_None in Hlast as ->. exists s, (Some a).
        split; [|split; [|split; [done|by rewrite decide_True]]].
        * unfold prevClient. step Hf. by rewrite Hlist.
        * rewrite Hf. f_equal. destruct f. simpl in *. by subst.
    - assert (Hya : y ≠ a).
      { intros ->. apply Hal2. by left. }
      rewrite decide_False.
      2:{ rewrite Hlist. rewrite last_app. rewrite last_cons_cons.
          destruct (last (y :: l2)) as [z|] eqn:Hlast.
          - intros [= ->]. by apply last_Some_elem_of in Hlast.
          - by apply last_None in Hlast. }
      destruct (Hcl y) as (wy & Hwy & Hnoy).
      { rewrite Hlist. apply elem_of_app. right. right. by left. }
      destruct (activate_direct fuel s this f y wy Hf Hwy Hnoy)
        as (s1 & Hs1 & Hf1 & _ & Hc1).
      exists s1, (Some y). split; [|split; [done|split; [done|]]].
      + unfold nextClient. step Hf.
        assert ((length (m_clientlist f) <=? 1)%nat = false) as ->.
        { apply Nat.leb_gt. rewrite Hlist, length_app. simpl. lia. }
        rewrite Ha. cbn [mbind option_bind]. rewrite Hlist at 1.
        by rewrite find_next_split.
      + rewrite decide_False; [done|]. by intros [= ->]. }
  destruct Hover as (s1 & v1 & Hs1 & Hf1 & Hc1 & Hv1).
  unfold removeClient. step Hwa. step Hf.
  rewrite bool_decide_eq_false_2 by (intros H; by apply H).
  assert ((length (m_clientlist f) =? 0)%nat = false) as ->.
  { apply Nat.eqb_neq. rewrite Hlist, length_app. simpl. lia. }
  cbn [orb]. rewrite (decide_True _ _ Ha). step Hs1.
  rewrite frames_upd_frame, decide_True by done.
  change (frames (upd_client ?c ?g ?x)) with (frames x). step Hf1.
  cbn [fmap option_fmap option_map mbind option_bind
       fr_clientlist fr_client m_client m_clientlist].
  assert (Hclients : ∀ s2, clients s2 = clients (upd_client a (wc_m_win None) s1) →
            clients s2 !! a = Some (wc_m_win None wa) ∧
            (∀ x, x ≠ a → clients s2 !! x = clients s !! x)).
  { intros s2 ->. split.
    - by rewrite clients_upd_client, decide_True, Hc1, Hwa.
    - intros x Hx. by rewrite clients_upd_client, decide_False, Hc1. }
  destruct (decide (v1 = Some a)) as [->|Hne].
  - destruct Hv1 as [-> ->]. eexists _, _. split; [done|].
    rewrite frames_upd_frame, decide_True by done.
    rewrite frames_upd_frame, decide_True by done.
    change (frames (upd_client ?c ?g ?x)) with (frames x). rewrite Hf1.
    cbn [fmap option_fmap option_map]. split; [reflexivity|].
    cbn [fr_clientlist fr_client m_client m_clientlist].
    rewrite Hlist, list_remove_middle by done.
    split; [done|]. split; [done|]. by apply Hclients.
  - subst v1. eexists _, _. split; [done|].
    rewrite frames_upd_frame, decide_True by done.
    change (frames (upd_client ?c ?g ?x)) with (frames x). rewrite Hf1.
    cbn [fmap option_fmap option_map]. split; [reflexivity|].
    cbn [fr_clientlist fr_client m_client m_clientlist].
    rewrite Hlist, list_remove_middle by done.
    split; [done|]. split; [done|]. by apply Hclients.
Qed.

(** *** Side conditions that can be decided at a given state *)


Lemma listed_lookup s x t :
  listed s x t → ∃ wx, clients s !! x = Some wx ∧ t ∈ transients wx.
Proof.
  unfold listed, transientList. destruct (clients s !! x) as [wx|]; simpl.
  - intros H. by exists wx.
  - intros H. by apply elem_of_nil in H.
Qed.

(** a rank that falls along every transient list rules out a loop *)
Lemma listed_ranked s (r : Window → nat) :
  map_Forall (λ x wx, Forall (λ t, (r t < r x)%nat) (transients wx)) (clients s) →
  ∀ x, ¬ tc (listed s) x x.
Proof.
  intros Hr.
  assert (Hstep : ∀ x y, listed s x y → (r y < r x)%nat).
  { intros x y H. apply listed_lookup in H as (wx & Hwx & Hy).
    pose proof (Hr x wx Hwx) as Hall. rewrite Forall_forall in Hall.
    by apply Hall. }
  assert (Hfall : ∀ x y, tc (listed s) x y → (r y < r x)%nat).
  { intros x y Hxy. induction Hxy as [x y H|x y z H _ IH]; [by apply Hstep|].
    apply Hstep in H. lia. }
  intros x Hx. apply Hfall in Hx. lia.
Qed.

(** the clients on the transient lists have frames, [this] and its own
    list apart *)
Lemma listed_have_frames s this :
  map_Forall (λ x wx,
      x = this ∨
      Forall (λ t, t = this ∨
                   is_Some (wt ← clients s !! t; g ← m_win wt; frames s !! g))
        (transients wx)) (clients s) →
  ∀ x t, x ≠ this → t ≠ this → t ∈ transientList s x →
         ∃ wt g, clients s !! t = Some wt ∧ m_win wt = Some g ∧
                 is_Some (frames s !! g).
Proof.
  intros Hall x t Hx Ht Hin. apply listed_lookup in Hin as (wx & Hwx & Hin).
  destruct (Hall x wx Hwx) as [?|Hts]; [done|]. rewrite Forall_forall in Hts.
  destruct (Hts t Hin) as [?|Hsome]; [done|].
  destruct (clients s !! t) as [wt|]; [|by destruct Hsome].
  cbn [mbind option_bind] in Hsome.
  destruct (m_win wt) as [g|] eqn:Hg; [|by destruct Hsome].
  by exists wt, g.
Qed.
End Fluxbox.

(** ** Size hints *)

(** case analysis on the innermost integer comparisons of the goal *)
Ltac case_ltb :=
  cbv zeta;
  repeat match goal with
         | |- context [ (?a <? ?b) ] =>
             lazymatch a with
             | context [ if _ then _ else _ ] => fail
             | _ => lazymatch b with
                    | context [ if _ then _ else _ ] => fail
                    | _ => destruct (Z.ltb_spec a b); simpl
                    end
             end
         end.

Lemma to_signed_id z : - 2 ^ 31 <= z < 2 ^ 31 -> to_signed z = z.
Proof.
  intros Hz. unfold to_signed.
  destruct (Z_lt_le_dec z 0) as [Hneg|Hpos].
  - replace (z mod 2 ^ 32) with (z + 2 ^ 32).
    + destruct (Z.ltb_spec (z + 2 ^ 32) (2 ^ 31)); lia.
    + apply Z.mod_unique with (-1); lia.
  - rewrite Z.mod_small by lia.
    destruct (Z.ltb_spec z (2 ^ 31)); lia.
Qed.

Lemma clamp_range mn mx x :
  0 <= mn < 2 ^ 31 -> 0 <= mx < 2 ^ 31 -> x < 2 ^ 31 ->
  0 <= clamp mn mx x < 2 ^ 31.
Proof.
  intros Hmn Hmx Hx. unfold clamp.
  case_ltb; lia.
Qed.

Lemma quot_sandwich b inc x :
  0 < inc ->
  let y := cells b inc x * inc + b in
  (b <= y <= x \/ x <= y <= b).
Proof.
  intros Hinc y. unfold y, cells.
  pose proof (Z.quot_rem' (x - b) inc) as Hqr.
  destruct (Z_le_gt_dec 0 (x - b)) as [Hd|Hd].
  - pose proof (Z.rem_bound_pos_pos (x - b) inc Hinc Hd).
    pose proof (Z.quot_pos (x - b) inc Hd Hinc). nia.
  - pose proof (Z.rem_bound_pos_neg (x - b) inc Hinc ltac:(lia)).
    pose proof (Z.quot_le_mono (x - b) 0 inc Hinc ltac:(lia)) as Hq.
    rewrite Z.quot_0_l in Hq by lia. nia.
Qed.

Lemma cells_between b inc x y z :
  0 < inc -> cells b inc x = cells b inc y ->
  (x <= z <= y \/ y <= z <= x) -> cells b inc z = cells b inc x.
Proof.
  intros Hinc Heq Hz. unfold cells in *.
  destruct Hz as [[H1 H2]|[H1 H2]].
  - pose proof (Z.quot_le_mono (x - b) (z - b) inc Hinc ltac:(lia)).
    pose proof (Z.quot_le_mono (z - b) (y - b) inc Hinc ltac:(lia)). lia.
  - pose proof (Z.quot_le_mono (y - b) (z - b) inc Hinc ltac:(lia)).
    pose proof (Z.quot_le_mono (z - b) (x - b) inc Hinc ltac:(lia)). lia.
Qed.

Lemma clamp_between mn mx w y :
  0 <= mn -> 0 <= mx -> 0 <= y ->
  let x := clamp mn mx w in
  (x <= clamp mn mx y <= y \/ y <= clamp mn mx y <= x).
Proof.
  intros Hmn Hmx Hy x. unfold x, clamp. case_ltb; lia.
Qed.

Lemma clamp_cells_fixed mn mx b inc w :
  0 <= mn -> 0 <= mx -> 0 <= b -> 0 < inc ->
  let x := clamp mn mx w in
  let y := cells b inc x * inc + b in
  cells b inc (clamp mn mx y) = cells b inc x.
Proof.
  intros Hmn Hmx Hb Hinc x y.
  assert (Hx : 0 <= x).
  { unfold x, clamp. case_ltb; lia. }
  pose proof (quot_sandwich b inc x Hinc) as Hs. cbv zeta in Hs. fold y in Hs.
  assert (Hyx : cells b inc x = cells b inc y).
  { unfold y at 1. unfold cells at 2.
    replace (cells b inc x * inc + b - b) with (cells b inc x * inc) by lia.
    rewrite Z.quot_mul; lia. }
  apply cells_between with (y := y); auto.
  pose proof (clamp_between mn mx w y Hmn Hmx ltac:(lia)) as Hc.
  cbv zeta in Hc. fold x in Hc. lia.
Qed.

Lemma cells_range b inc x :
  0 <= b < 2 ^ 31 -> 0 < inc -> 0 <= x < 2 ^ 31 ->
  - 2 ^ 31 <= cells b inc x < 2 ^ 31 /\ 0 <= cells b inc x * inc + b < 2 ^ 31.
Proof.
  intros Hb Hinc Hx.
  pose proof (quot_sandwich b inc x Hinc) as Hs. cbv zeta in Hs.
  split; [|lia]. nia.
Qed.

(** Without an aspect constraint the function is the integer path. *)
Lemma applySizeHints_no_aspect h w ht m :
  hints_in_int_range h -> no_aspect h ->
  - 2 ^ 31 <= w < 2 ^ 31 -> - 2 ^ 31 <= ht < 2 ^ 31 ->
  applySizeHints h w ht m =
    (let x := clamp (min_width h) (max_width h) w in
     let y := clamp (min_height h) (max_height h) ht in
     (cells (base_width h) (width_inc h) x * width_inc h + base_width h,
      cells (base_height h) (height_inc h) y * height_inc h + base_height h,
      cells (base_width h) (width_inc h) x,
      cells (base_height h) (height_inc h) y)).
Proof.
  intros (Hmw & HMw & Hmh & HMh & Hbw & Hbh & Hiw & Hih) Hasp Hw Hht.
  unfold applySizeHints.
  assert (Hoff : (0 <? min_aspect_y h) && (0 <? max_aspect_y h)
                 && (0 <? to_unsigned
                      ((if (0 <? max_height h)
                           && (to_signed (max_height h) <?
                               (if (ht <? 0) || (ht <? to_signed (min_height h))
                                then to_signed (min_height h) else ht))
                        then to_signed (max_height h)
                        else if (ht <? 0) || (ht <? to_signed (min_height h))
                             then to_signed (min_height h) else ht)
                       - base_height h)) = false).
  { destruct Hasp as [-> | ->]; simpl; [reflexivity|].
    rewrite andb_false_r. reflexivity. }
  cbv zeta. rewrite Hoff.
  rewrite !(to_signed_id (min_width h)), !(to_signed_id (max_width h)),
    !(to_signed_id (min_height h)), !(to_signed_id (max_height h)),
    !(to_signed_id (base_width h)), !(to_signed_id (base_height h)),
    !(to_signed_id (width_inc h)), !(to_signed_id (height_inc h)) by lia.
  fold (clamp (min_width h) (max_width h) w).
  fold (clamp (min_height h) (max_height h) ht).
  pose proof (clamp_range (min_width h) (max_width h) w Hmw HMw ltac:(lia)) as Hx.
  pose proof (clamp_range (min_height h) (max_height h) ht Hmh HMh ltac:(lia)) as Hy.
  set (x := clamp (min_width h) (max_width h) w) in *.
  set (y := clamp (min_height h) (max_height h) ht) in *.
  destruct (cells_range (base_width h) (width_inc h) x Hbw ltac:(lia) Hx) as [Hc1 Hc2].
  destruct (cells_range (base_height h) (height_inc h) y Hbh ltac:(lia) Hy) as [Hc3 Hc4].
  rewrite (to_signed_id (x - base_width h)) by lia.
  rewrite (to_signed_id (y - base_height h)) by lia.
  fold (cells (base_width h) (width_inc h) x).
  fold (cells (base_height h) (height_inc h) y).
  rewrite (to_signed_id (cells (base_width h) (width_inc h) x)) by lia.
  rewrite (to_signed_id (cells (base_height h) (height_inc h) y)) by lia.
  rewrite !to_signed_id by lia.
  reflexivity.
Qed.

(** C7.  For a hint set without an aspect constraint whose fields fit an
    [int] and whose increments are positive, [applySizeHints] is
    idempotent: applied to its own output width and height it returns
    the same width, height and cell counts. *)
Theorem applySizeHints_idempotent_no_aspect h w ht m :
  hints_in_int_range h -> no_aspect h ->
  - 2 ^ 31 <= w < 2 ^ 31 -> - 2 ^ 31 <= ht < 2 ^ 31 ->
  idempotent_at h w ht m.
Proof.
  intros Hr Hasp Hw Hht. unfold idempotent_at.
  rewrite (applySizeHints_no_aspect h w ht m Hr Hasp Hw Hht). cbv zeta.
  destruct Hr as (Hmw & HMw & Hmh & HMh & Hbw & Hbh & Hiw & Hih).
  pose proof (clamp_range (min_width h) (max_width h) w Hmw HMw ltac:(lia)) as Hx.
  pose proof (clamp_range (min_height h) (max_height h) ht Hmh HMh ltac:(lia)) as Hy.
  destruct (cells_range (base_width h) (width_inc h) _ Hbw ltac:(lia) Hx) as [Hc1 Hc2].
  destruct (cells_range (base_height h) (height_inc h) _ Hbh ltac:(lia) Hy) as [Hc3 Hc4].
  rewrite applySizeHints_no_aspect; try lia; auto;
    [|repeat split; lia].
  cbv zeta.
  pose proof (clamp_cells_fixed (min_width h) (max_width h) (base_width h)
                (width_inc h) w) as Hfw.
  pose proof (clamp_cells_fixed (min_height h) (max_height h) (base_height h)
                (height_inc h) ht) as Hfh.
  cbv zeta in Hfw, Hfh.
  rewrite Hfw, Hfh by lia. reflexivity.
Qed.

(** C8.  [checkSizeHints] compares against [max_width] and
    [max_height] without the guard for the value 0: with an unbounded
    maximum width every positive width is rejected. *)
Theorem checkSizeHints_rejects_unbounded h width height :
  max_width h = 0 → 0 < width → checkSizeHints h width height = false.
Proof.
  intros Hmax Hw. unfold checkSizeHints.
  destruct ((width <? min_width h) || (height <? min_height h)); [done|].
  rewrite Hmax. by destruct (Z.ltb_spec 0 width); [|lia].
Qed.

(** * fbrun: the command history *)

Section FbRunHistory.
Import FbRun.

Variable setText : list Ascii.ascii -> TextBox -> TextBox.
Hypothesis text_setText : ∀ s tb, text (setText s tb) = s.

Set Default Proof Using "Type*".

Lemma find_prefix (s p : list Ascii.ascii) : find s p = Some O ↔ p `prefix_of` s.
Proof.
  destruct s as [|c s]; simpl.
  - destruct (decide (p `prefix_of` [])); [tauto|].
    split; [done|tauto].
  - destruct (decide (p `prefix_of` c :: s)); [tauto|].
    split; [|tauto]. by destruct (find s p).
Qed.

Lemma show_step r i e :
  (i <= length (m_history r))%nat → e = entry_at r i →
  cursor_ok (show setText i e r) ∧ history_step r (show setText i e r).
Proof.
  intros Hi ->. split; [exact Hi|]. right.
  split; [done|]. split; [done|]. split; [exact Hi|].
  simpl. by rewrite text_setText.
Qed.

Lemma bell_step r : cursor_ok r → cursor_ok (XBell r) ∧ history_step r (XBell r).
Proof. intros H. split; [exact H|by left]. Qed.

Lemma entry_at_lookup r i e : m_history r !! i = Some e → e = entry_at r i.
Proof. unfold entry_at. by intros ->. Qed.

Lemma entry_at_end r : [] = entry_at r (length (m_history r)).
Proof. unfold entry_at. by rewrite lookup_ge_None_2. Qed.

Lemma tab_scan_spec history prefix k :
  (k <= length history)%nat →
  (∃ i e, tab_scan history prefix k = Some (Some i) ∧ (i < k)%nat ∧
          history !! i = Some e ∧ prefix `prefix_of` e ∧
          ∀ j e', (i < j < k)%nat → history !! j = Some e' → ¬ prefix `prefix_of` e')
  ∨ (tab_scan history prefix k = Some None ∧
     ∀ j e', (j < k)%nat → history !! j = Some e' → ¬ prefix `prefix_of` e').
Proof.
  induction k as [|k IH]; intros Hk.
  - right. split; [done|]. intros; lia.
  - simpl. destruct (lookup_lt_is_Some_2 history k) as [e He]; [lia|].
    rewrite He. simpl. destruct (decide (find e prefix = Some O)) as [Hf|Hf].
    + left. exists k, e. split; [done|]. split; [lia|]. split; [done|].
      split; [by apply find_prefix|]. intros; lia.
    + rewrite find_prefix in Hf.
      destruct IH as [(i & e' & Hs & Hi & Hl & Hp & Hno)|[Hs Hno]]; [lia| |].
      * left. exists i, e'. split; [done|]. split; [lia|]. split; [done|].
        split; [done|]. intros j e'' Hj Hj'.
        destruct (decide (j = k)) as [->|]; [congruence|]. apply (Hno j); [lia|done].
      * right. split; [done|]. intros j e' Hj Hj'.
        destruct (decide (j = k)) as [->|]; [congruence|]. apply (Hno j); [lia|done].
Qed.

(** X1.  With the cursor inside the history, each of the five history
    commands returns, and it either rings the bell and changes nothing
    else, or leaves the history as it is, keeps the cursor inside it and
    shows the entry under the cursor (nothing at the position one past
    the end). *)
Theorem history_commands_step r op :
  cursor_ok r →
  op ∈ [prevHistoryItem setText; nextHistoryItem setText; firstHistoryItem setText;
        lastHistoryItem setText; tabCompleteHistory setText] →
  ∃ r', op r = Some r' ∧ cursor_ok r' ∧ history_step r r'.
Proof.
  intros Hok Hop. unfold cursor_ok in Hok.
  repeat (apply elem_of_cons in Hop as [->|Hop]); [| | | | |by apply elem_of_nil in Hop].
  - unfold prevHistoryItem.
    destruct (_ || _) eqn:Hb; [eexists; split; [done|by apply bell_step]|].
    apply orb_false_iff in Hb as [H1 H2]. apply Nat.eqb_neq in H1, H2.
    destruct (lookup_lt_is_Some_2 (m_history r) (m_current_history_item r - 1))
      as [e He]; [lia|].
    rewrite He. eexists. split; [done|].
    apply show_step; [lia|by apply entry_at_lookup].
  - unfold nextHistoryItem.
    destruct (_ =? _)%nat eqn:Hb; [eexists; split; [done|by apply bell_step]|].
    apply Nat.eqb_neq in Hb. cbv zeta.
    destruct (S _ =? _)%nat eqn:Hb'.
    + eexists. split; [done|]. apply show_step; [lia|apply entry_at_end].
    + apply Nat.eqb_neq in Hb'.
      destruct (lookup_lt_is_Some_2 (m_history r) (S (m_current_history_item r)))
        as [e He]; [lia|].
      rewrite He. eexists. split; [done|].
      apply show_step; [lia|by apply entry_at_lookup].
  - unfold firstHistoryItem.
    destruct (_ || _) eqn:Hb; [eexists; split; [done|by apply bell_step]|].
    apply orb_false_iff in Hb as [H1 H2]. apply Nat.eqb_neq in H1, H2.
    destruct (lookup_lt_is_Some_2 (m_history r) O) as [e He]; [lia|].
    rewrite He. eexists. split; [done|].
    apply show_step; [lia|by apply entry_at_lookup].
  - unfold lastHistoryItem.
    destruct (_ =? _)%nat eqn:Hb; [eexists; split; [done|by apply bell_step]|].
    eexists. split; [done|]. apply show_step; [lia|apply entry_at_end].
  - unfold tabCompleteHistory.
    destruct (_ =? _)%nat eqn:Hb; [eexists; split; [done|by apply bell_step]|].
    cbv zeta.
    destruct (tab_scan_spec (m_history r)
                (take (cursorPosition (box r)) (text (box r)))
                (m_current_history_item r) Hok)
      as [(i & e & Hs & Hi & Hl & _)|[Hs _]]; rewrite Hs; simpl.
    + rewrite Hl. eexists. split; [done|].
      apply show_step; [lia|by apply entry_at_lookup].
    + eexists. split; [done|by apply bell_step].
Qed.

(** X2.  [prevHistoryItem] and [nextHistoryItem] undo each other: from a
    cursor that is not at the first entry, going back and forth returns
    to the same position and shows what that position holds, without a
    bell; and likewise forth and back from a cursor that is not one past
    the end. *)
Theorem history_back_and_forth r :
  cursor_ok r →
  ((0 < m_current_history_item r)%nat →
   ∃ r1 r2, prevHistoryItem setText r = Some r1 ∧
     nextHistoryItem setText r1 = Some r2 ∧
     m_current_history_item r2 = m_current_history_item r ∧
     text (box r2) = entry_at r (m_current_history_item r) ∧
     bells r2 = bells r) ∧
  ((m_current_history_item r < length (m_history r))%nat →
   ∃ r1 r2, nextHistoryItem setText r = Some r1 ∧
     prevHistoryItem setText r1 = Some r2 ∧
     m_current_history_item r2 = m_current_history_item r ∧
     text (box r2) = entry_at r (m_current_history_item r) ∧
     bells r2 = bells r).
Proof.
  intros Hok. unfold cursor_ok in Hok. split; intros Hc.
  - unfold prevHistoryItem at 1.
    assert ((length (m_history r) =? 0)%nat = false) as -> by (apply Nat.eqb_neq; lia).
    assert ((m_current_history_item r =? 0)%nat = false) as ->
      by (apply Nat.eqb_neq; lia).
    simpl orb. cbv iota zeta.
    destruct (lookup_lt_is_Some_2 (m_history r) (m_current_history_item r - 1))
      as [e He]; [lia|].
    rewrite He. cbn [mbind option_bind].
    exists (show setText (m_current_history_item r - 1) e r).
    unfold nextHistoryItem. cbn [show m_history m_current_history_item].
    assert ((m_current_history_item r - 1 =? length (m_history r))%nat = false) as ->
      by (apply Nat.eqb_neq; lia).
    cbv zeta.
    replace (S (m_current_history_item r - 1)) with (m_current_history_item r) by lia.
    destruct (_ =? _)%nat eqn:Hb.
    + apply Nat.eqb_eq in Hb. eexists. split; [done|]. split; [done|].
      simpl. rewrite text_setText, Hb. split; [done|]. split; [apply entry_at_end|done].
    + apply Nat.eqb_neq in Hb.
      destruct (lookup_lt_is_Some_2 (m_history r) (m_current_history_item r))
        as [e' He']; [lia|].
      rewrite He'. simpl. eexists. split; [done|]. split; [done|].
      simpl. rewrite text_setText. split; [done|].
      split; [by apply entry_at_lookup|done].
  - unfold nextHistoryItem at 1.
    assert ((m_current_history_item r =? length (m_history r))%nat = false) as ->
      by (apply Nat.eqb_neq; lia).
    cbv zeta.
    destruct (lookup_lt_is_Some_2 (m_history r) (m_current_history_item r))
      as [e He]; [lia|].
    assert (∃ r1, (if (S (m_current_history_item r) =? length (m_history r))%nat
                   then Some (show setText (length (m_history r)) [] r)
                   else e ← m_history r !! S (m_current_history_item r);
                        Some (show setText (S (m_current_history_item r)) e r))
                  = Some r1 ∧ m_history r1 = m_history r ∧
                  m_current_history_item r1 = S (m_current_history_item r) ∧
                  bells r1 = bells r) as (r1 & -> & Hh & Hc1 & Hb1).
    { destruct (_ =? _)%nat eqn:Hb.
      - apply Nat.eqb_eq in Hb. eexists. split; [done|]. by rewrite <- Hb.
      - apply Nat.eqb_neq in Hb.
        destruct (lookup_lt_is_Some_2 (m_history r) (S (m_current_history_item r)))
          as [e' He']; [lia|].
        rewrite He'. simpl. by eexists. }
    exists r1. unfold prevHistoryItem. rewrite Hh, Hc1.
    assert ((length (m_history r) =? 0)%nat = false) as -> by (apply Nat.eqb_neq; lia).
    simpl. rewrite Nat.sub_0_r, He. simpl.
    eexists. split; [done|]. split; [done|]. simpl. rewrite text_setText.
    split; [done|]. split; [by apply entry_at_lookup|done].
Qed.

(** X3.  Tab completion looks backwards from the cursor for an entry
    that starts with the text left of the text cursor: it selects and
    shows the nearest such entry before the history cursor, and when no
    earlier entry starts with that text it rings the bell and changes
    nothing else. *)
Theorem tabCompleteHistory_nearest r :
  cursor_ok r →
  let typed := take (cursorPosition (box r)) (text (box r)) in
  (∀ i e, (i < m_current_history_item r)%nat → m_history r !! i = Some e →
          typed `prefix_of` e →
          (∀ j e', (i < j < m_current_history_item r)%nat →
                   m_history r !! j = Some e' → ¬ typed `prefix_of` e') →
          tabCompleteHistory setText r = Some (show setText i e r)) ∧
  ((∀ j e', (j < m_current_history_item r)%nat → m_history r !! j = Some e' →
            ¬ typed `prefix_of` e') →
   tabCompleteHistory setText r = Some (XBell r)).
Proof.
  intros Hok typed. unfold cursor_ok in Hok.
  pose proof (tab_scan_spec (m_history r) typed (m_current_history_item r) Hok) as Hs.
  split.
  - intros i e Hi He Hp Hnear. unfold tabCompleteHistory.
    assert ((m_current_history_item r =? 0)%nat = false) as ->
      by (apply Nat.eqb_neq; lia).
    cbv zeta. fold typed.
    destruct Hs as [(i' & e' & -> & Hi' & Hl' & Hp' & Hno')|[_ Hno]].
    + simpl. assert (i' = i) as ->.
      { destruct (Nat.lt_trichotomy i i') as [H|[H|H]]; [|done|].
        - exfalso. by apply (Hnear i' e').
        - exfalso. by apply (Hno' i e). }
      rewrite He. simpl. done.
    + exfalso. by apply (Hno i e).
  - intros Hnone. unfold tabCompleteHistory.
    destruct (_ =? _)%nat eqn:Hb; [done|]. cbv zeta. fold typed.
    destruct Hs as [(i' & e' & _ & Hi' & Hl' & Hp' & _)|[-> _]]; [|done].
    exfalso. by apply (Hnone i' e').
Qed.

(** X4.  With the text cursor at the start of the line nothing is typed
    before it, and tab completion is the same as [prevHistoryItem]. *)
Theorem tabCompleteHistory_at_line_start r :
  cursor_ok r → cursorPosition (box r) = O →
  tabCompleteHistory setText r = prevHistoryItem setText r.
Proof using Type.
  intros Hok H0. unfold cursor_ok in Hok.
  unfold tabCompleteHistory, prevHistoryItem. rewrite H0. simpl take.
  destruct (m_current_history_item r) as [|k] eqn:Hc.
  { simpl. by rewrite orb_true_r. }
  assert ((length (m_history r) =? 0)%nat = false) as -> by (apply Nat.eqb_neq; lia).
  simpl. rewrite Nat.sub_0_r.
  destruct (lookup_lt_is_Some_2 (m_history r) k) as [e He]; [lia|].
  rewrite He. simpl.
  destruct (decide (find e _ = Some O)) as [|Hn]; [simpl; by rewrite He|].
  exfalso. apply Hn. apply find_prefix. apply prefix_nil.
Qed.

End FbRunHistory.

Set Default Proof Using "Type".

(** * fbrun: the history file *)

Section FbRunFile.
Import FbRun.

Lemma history_file_app hs1 hs2 :
  history_file (hs1 ++ hs2) = history_file hs1 ++ history_file hs2.
Proof. unfold history_file. by rewrite map_app, concat_app. Qed.

Lemma history_file_cons e hs :
  history_file (e :: hs) = e ++ newline :: history_file hs.
Proof. unfold history_file. simpl. by rewrite <- app_assoc. Qed.

Lemma getline_line (l rest : list Ascii.ascii) :
  newline ∉ l → getline (l ++ newline :: rest) = (l, rest, false).
Proof.
  induction l as [|c l IH]; intros Hl; simpl.
  - done.
  - rewrite not_elem_of_cons in Hl. destruct Hl as [Hc Hl].
    rewrite decide_False by done. by rewrite IH.
Qed.

Lemma getline_last (l : list Ascii.ascii) :
  newline ∉ l → getline l = (l, [], true).
Proof.
  induction l as [|c l IH]; intros Hl; simpl; [done|].
  rewrite not_elem_of_cons in Hl. destruct Hl as [Hc Hl].
  rewrite decide_False by done. by rewrite IH.
Qed.

Lemma getline_spec (s : list Ascii.ascii) :
  ∃ l rest e, getline s = (l, rest, e) ∧ (newline ∉ l) ∧
    (length rest <= length s)%nat ∧ (e = false → length rest < length s)%nat.
Proof.
  induction s as [|c s IH]; simpl; [|destruct IH as (l & rest & e & Hg & Hl & Hlen & He)].
  - exists [], [], true. split; [done|]. split; [apply not_elem_of_nil|].
    split; [done|done].
  - destruct (decide (c = newline)).
    + exists [], s, false. split; [done|]. split; [apply not_elem_of_nil|].
      simpl. split; lia.
    + rewrite Hg. exists (c :: l), rest, e. split; [done|].
      split; [by apply not_elem_of_cons|]. simpl. split; [lia|].
      intros H. specialize (He H). lia.
Qed.

Lemma read_history_total fuel rest eof history :
  eof = true ∨ (length rest < fuel)%nat →
  Forall command_line history →
  ∃ h, read_history fuel rest eof history = Some h ∧ Forall command_line h.
Proof.
  revert rest eof history. induction fuel as [|n IH]; intros rest eof history Hf Hh.
  - destruct Hf as [->|Hf]; [|lia]. by exists history.
  - simpl. destruct eof; [by exists history|].
    destruct Hf as [Hf|Hf]; [done|].
    destruct (getline_spec rest) as (l & rest' & e & -> & Hl & Hlen & He).
    apply IH.
    + destruct e; [by left|]. right. specialize (He eq_refl). lia.
    + destruct (length l =? 0)%nat eqn:Hz; [done|].
      apply Forall_app. split; [done|]. apply Forall_singleton.
      split; [|done]. intros ->. done.
Qed.

Lemma read_history_lines fuel hs l history :
  Forall (λ e, newline ∉ e) hs → newline ∉ l →
  (length (history_file hs ++ l) < fuel)%nat →
  read_history fuel (history_file hs ++ l) false history
  = Some (history ++ filter (λ e, e ≠ []) (hs ++ [l])).
Proof.
  intros Hhs Hl. revert fuel history.
  induction Hhs as [|e hs He Hhs IH]; intros fuel history Hf.
  - destruct fuel as [|n]; [lia|]. simpl. rewrite (getline_last l Hl).
    destruct n; destruct l; simpl; by rewrite ?app_nil_r.
  - destruct fuel as [|n]; [lia|].
    rewrite history_file_cons in Hf |- *. rewrite <- app_assoc in Hf |- *.
    rewrite <- app_comm_cons in Hf |- *.
    cbn [read_history]. rewrite (getline_line e _ He). rewrite IH.
    + rewrite <- app_comm_cons.
      destruct e; simpl.
      * rewrite filter_cons_False by (intros H; by apply H). done.
      * rewrite filter_cons_True by done. by rewrite <- app_assoc.
    + rewrite length_app in Hf. simpl in Hf. lia.
Qed.

(** X5.  [loadHistory] on a readable file returns true and always comes
    back: the history then holds no empty command and no command with a
    newline in it, and nothing is selected (the cursor is one past the
    end); when the file cannot be read the call returns false, keeps the
    old history and still remembers the file name for saving. *)
Theorem loadHistory_result name r :
  (∀ file, ∃ r', loadHistory (Some name) (Some file) r = Some (true, r') ∧
     Forall command_line (m_history r') ∧
     m_current_history_item r' = length (m_history r') ∧
     m_history_file r' = name) ∧
  (∃ r', loadHistory (Some name) None r = Some (false, r') ∧
     m_history r' = m_history r ∧ m_history_file r' = name).
Proof.
  split.
  - intros file. unfold loadHistory.
    destruct (read_history_total (S (length file)) file false [])
      as (h & -> & Hh); [right; lia|constructor|].
    simpl. by eexists.
  - by eexists.
Qed.

Lemma loadHistory_lines name hs l r :
  Forall (λ e, newline ∉ e) hs → newline ∉ l →
  ∃ r', loadHistory (Some name) (Some (history_file hs ++ l)) r = Some (true, r') ∧
    m_history r' = filter (λ e, e ≠ []) (hs ++ [l]).
Proof.
  intros Hhs Hl. unfold loadHistory.
  rewrite (read_history_lines _ hs l [] Hhs Hl) by lia.
  simpl. by eexists.
Qed.

(** X6.  A file of lines, each line ended by a newline except possibly
    the last, is read back line by line: the history is the list of the
    lines that are not empty, in the order of the file. *)
Theorem loadHistory_reads_lines name hs l r :
  Forall (λ e, newline ∉ e) hs → newline ∉ l →
  ∃ r', loadHistory (Some name) (Some (history_file hs ++ l)) r = Some (true, r') ∧
    m_history r' = filter (λ e, e ≠ []) (hs ++ [l]).
Proof.
  intros Hhs Hl. by apply loadHistory_lines.
Qed.

Lemma fs_write_app s1 s2 f :
  eofbit f = false → failbit f = false → (pos f <= length (contents f))%nat →
  fs_write s2 (fs_write s1 f) = fs_write (s1 ++ s2) f.
Proof.
  intros He Hf Hp. unfold fs_write. rewrite He, Hf. simpl.
  assert (Hlen : length (take (pos f) (contents f)) = pos f)
    by (rewrite length_take; lia).
  f_equal; [|rewrite length_app; lia].
  rewrite (app_assoc _ s1). rewrite take_app_length'
    by (rewrite length_app; lia).
  rewrite <- !app_assoc. f_equal. f_equal. f_equal.
  rewrite (app_assoc _ s1).
  rewrite drop_app_add' by (rewrite length_app; lia).
  rewrite drop_drop. f_equal. rewrite length_app. lia.
Qed.

Lemma fs_write_good s f :
  eofbit f = false → failbit f = false → (pos f <= length (contents f))%nat →
  eofbit (fs_write s f) = false ∧ failbit (fs_write s f) = false ∧
  (pos (fs_write s f) <= length (contents (fs_write s f)))%nat.
Proof.
  intros He Hf Hp. unfold fs_write. rewrite He, Hf. simpl.
  split; [done|]. split; [done|].
  rewrite !length_app, length_take. lia.
Qed.

Lemma write_lines ls f :
  eofbit f = false → failbit f = false → (pos f <= length (contents f))%nat →
  foldl (λ f e, write_line e f) f ls = fs_write (history_file ls) f.
Proof.
  revert f. induction ls as [|e ls IH]; intros f He Hf Hp.
  - simpl. unfold fs_write. rewrite He, Hf. simpl.
    rewrite Nat.add_0_r, take_drop. destruct f. simpl in *. by subst.
  - simpl. unfold write_line at 2. rewrite fs_write_app by done.
    destruct (fs_write_good (e ++ [newline]) f He Hf Hp) as (He' & Hf' & Hp').
    rewrite IH by done. rewrite fs_write_app by done.
    rewrite history_file_cons. by rewrite <- app_assoc.
Qed.

Lemma read_past_lines hs k i :
  Forall (λ e, newline ∉ e) hs → (i + k <= length hs)%nat →
  read_past k i (mkFstream (history_file hs)
                   (length (history_file (take i hs))) false false)
  = ((i + k)%nat, mkFstream (history_file hs)
                    (length (history_file (take (i + k) hs))) false false).
Proof.
  intros Hhs. revert i. induction k as [|k IH]; intros i Hik.
  - simpl. by rewrite Nat.add_0_r.
  - simpl. unfold fs_getline. simpl.
    destruct (lookup_lt_is_Some_2 hs i) as [e He]; [lia|].
    assert (Hsplit : history_file hs
                     = history_file (take i hs) ++ e ++ newline
                       :: history_file (drop (S i) hs)).
    { rewrite <- (take_drop_middle hs i e He) at 1.
      by rewrite history_file_app, history_file_cons. }
    rewrite Hsplit at 1. rewrite drop_app_length.
    rewrite getline_line by (eapply Forall_lookup_1 in Hhs; [exact Hhs|exact He]).
    simpl.
    assert (Hpos : (length (history_file hs) - length (history_file (drop (S i) hs))
                    = length (history_file (take (S i) hs)))%nat).
    { rewrite (take_S_r hs i e He). rewrite Hsplit.
      rewrite history_file_app, history_file_cons. simpl.
      rewrite !length_app. simpl. rewrite ?length_app. simpl. lia. }
    rewrite Hpos. rewrite IH by lia. by replace (S i + k)%nat with (i + S k)%nat by lia.
Qed.

Lemma first_duplicate_spec t hs :
  (first_duplicate t hs <= length hs)%nat ∧
  (t ∈ hs → hs !! first_duplicate t hs = Some t) ∧
  (t ∉ hs → first_duplicate t hs = length hs).
Proof.
  induction hs as [|e hs (IH1 & IH2 & IH3)]; simpl.
  - split; [done|]. split; [by intros ?%elem_of_nil|done].
  - destruct (decide (e = t)) as [->|Hne]; simpl.
    + split; [lia|]. split; [done|]. intros H. exfalso. apply H. left.
    + split; [lia|]. split.
      * intros [?|H]%elem_of_cons; [congruence|by apply IH2].
      * intros H. rewrite IH3; [done|]. intros ?. apply H. by right.
Qed.

Lemma duplicate_spec r :
  (duplicate r <= length (m_history r))%nat ∧
  (text (box r) ∈ m_history r → m_history r !! duplicate r = Some (text (box r))) ∧
  (text (box r) ∉ m_history r → duplicate r = length (m_history r)).
Proof.
  unfold duplicate.
  destruct (first_duplicate_spec (text (box r)) (m_history r)) as (H1 & H2 & H3).
  destruct (_ && _) eqn:Hb; [|done].
  apply andb_true_iff in Hb as [Hlt Heq].
  apply Nat.ltb_lt in Hlt. apply bool_decide_eq_true in Heq.
  split; [lia|]. split; [done|].
  intros Hn. exfalso. apply Hn. by eapply list_elem_of_lookup_2.
Qed.

Lemma save_history_file hs d t :
  Forall (λ e, newline ∉ e) hs → (d <= length hs)%nat →
  (d < length hs → hs !! d = Some t)%nat →
  contents (save_history hs d t (fs_open (history_file hs)))
  = history_file (delete d hs ++ [t]).
Proof.
  intros Hhs Hd Hdup. unfold save_history, fs_open.
  pose proof (read_past_lines hs d O Hhs) as Hr. simpl in Hr.
  rewrite Hr by done. clear Hr.
  set (f := mkFstream _ _ _ _).
  assert (Hp : (pos f <= length (contents f))%nat).
  { simpl. rewrite <- (take_drop d hs) at 2. rewrite history_file_app, length_app. lia. }
  rewrite write_lines by done.
  destruct (fs_write_good (history_file (drop (S d) hs)) f eq_refl eq_refl Hp)
    as (He' & Hf' & Hp').
  unfold write_line. rewrite fs_write_app by done. rewrite fs_write_app by done.
  unfold fs_write. simpl.
  assert (Hsplit : history_file hs
                   = history_file (take d hs) ++ history_file (drop d hs))
    by (by rewrite <- history_file_app, take_drop).
  rewrite Hsplit at 1 2. rewrite take_app_length.
  rewrite drop_app_add' by done.
  rewrite delete_take_drop, !history_file_app.
  assert (Htail : drop (length (history_file (drop (S d) hs) ++ t ++ [newline]))
                    (history_file (drop d hs)) = []).
  { apply drop_ge. destruct (decide (d < length hs)%nat) as [Hlt|Hge].
    - rewrite (drop_S hs t d (Hdup Hlt)), history_file_cons.
      rewrite !length_app. simpl. rewrite ?length_app. simpl. lia.
    - rewrite (drop_ge hs d) by lia. simpl. lia. }
  rewrite Htail, app_nil_r. rewrite <- !app_assoc. f_equal. f_equal.
  unfold history_file. simpl. by rewrite app_nil_r.
Qed.

Lemma run_file command r :
  Forall (λ e, newline ∉ e) (m_history r) → text (box r) ≠ [] →
  run command (Some (history_file (m_history r))) r
  = (mkFbRun (m_history r) (duplicate r) (m_history_file r) true (box r)
       (bells r) (spawned r ++ [command]),
     Some (history_file (delete (duplicate r) (m_history r) ++ [text (box r)]))).
Proof.
  intros Hhs Ht. destruct (duplicate_spec r) as (Hd & Hin & Hout).
  unfold run. simpl.
  destruct (length (text (box r)) =? 0)%nat eqn:Hz.
  { apply Nat.eqb_eq in Hz. by destruct (text (box r)). }
  assert (Hdup : duplicate
            (mkFbRun (m_history r) (m_current_history_item r) (m_history_file r)
               true (box r) (bells r) (spawned r ++ [command])) = duplicate r)
    by done.
  rewrite Hdup. f_equal. f_equal.
  apply save_history_file; [done|done|].
  intros Hlt. destruct (decide (text (box r) ∈ m_history r)) as [H|H]; [by apply Hin|].
  specialize (Hout H). lia.
Qed.

(** X7.  [run] with a text that is not empty ends the dialog, hands the
    command to the shell and rewrites the history file in place: for a
    file that holds the loaded history, one command to a line, the file
    afterwards holds the same commands without the one at the position
    [run] settles on, followed by the text as the last line.  That
    position holds a copy of the text if the history has one, and is
    one past the end if it has none. *)
Theorem run_saves_history command r :
  Forall (λ e, newline ∉ e) (m_history r) → text (box r) ≠ [] →
  run command (Some (history_file (m_history r))) r
  = (mkFbRun (m_history r) (duplicate r) (m_history_file r) true (box r)
       (bells r) (spawned r ++ [command]),
     Some (history_file (delete (duplicate r) (m_history r) ++ [text (box r)]))) ∧
  (text (box r) ∈ m_history r →
   m_history r !! duplicate r = Some (text (box r))) ∧
  (text (box r) ∉ m_history r → duplicate r = length (m_history r)).
Proof.
  intros Hhs Ht. destruct (duplicate_spec r) as (Hd & Hin & Hout).
  split; [by apply run_file|done].
Qed.

(** X8.  Saving and loading agree: after [run] with a text that is a
    well-formed command line, [loadHistory] on the rewritten file yields
    the old history without the copy [run] settled on, with the text as
    its last entry; a history without repetitions stays without
    repetitions. *)
Theorem run_then_loadHistory command name r r0 :
  Forall command_line (m_history r) → command_line (text (box r)) →
  ∃ r1 file r2,
    run command (Some (history_file (m_history r))) r = (r1, Some file) ∧
    loadHistory (Some name) (Some file) r0 = Some (true, r2) ∧
    m_history r2 = delete (duplicate r) (m_history r) ++ [text (box r)] ∧
    (NoDup (m_history r) → NoDup (m_history r2)).
Proof.
  intros Hhs [Ht Htn].
  assert (Hnl : Forall (λ e, newline ∉ e) (m_history r)).
  { eapply Forall_impl; [exact Hhs|]. by intros e [_ ?]. }
  pose proof (run_file command r Hnl Ht) as Hrun.
  destruct (duplicate_spec r) as (Hd & Hin & Hout).
  eexists _, _. rewrite Hrun.
  set (h := delete (duplicate r) (m_history r)).
  assert (Hh : Forall command_line h).
  { unfold h. rewrite delete_take_drop. apply Forall_app.
    split; [by apply Forall_take|by apply Forall_drop]. }
  destruct (loadHistory_lines name (h ++ [text (box r)]) [] r0)
    as (r2 & Hload & Hr2).
  { apply Forall_app. split; [|by apply Forall_singleton].
    eapply Forall_impl; [exact Hh|]. by intros e [_ ?]. }
  { apply not_elem_of_nil. }
  rewrite app_nil_r in Hload. exists r2. split; [done|]. split; [exact Hload|].
  assert (Hfilter : filter (λ e, e ≠ []) ((h ++ [text (box r)]) ++ [[]])
                    = h ++ [text (box r)]).
  { rewrite !filter_app. rewrite (filter_cons_True _ (text (box r)) []) by done.
    rewrite filter_nil. rewrite filter_cons_False by (intros H; by apply H).
    rewrite filter_nil, app_nil_r. f_equal.
    clear -Hh. induction Hh as [|e l [He _] _ IH]; [done|].
    rewrite filter_cons_True by done. by rewrite IH. }
  rewrite Hr2, Hfilter. split; [done|].
  intros Hnd. destruct (decide (text (box r) ∈ m_history r)) as [Hi|Hni].
  - specialize (Hin Hi). apply delete_Permutation in Hin.
    rewrite Hin in Hnd. fold h in Hnd.
    by rewrite <- Permutation_cons_append.
  - assert (h = m_history r) as ->.
    { unfold h. rewrite (Hout Hni), delete_take_drop.
      rewrite take_ge, drop_ge by lia. by rewrite app_nil_r. }
    apply NoDup_app. split; [done|]. split; [|apply NoDup_singleton].
    intros x Hx ->%list_elem_of_singleton. done.
Qed.

End FbRunFile.

(** * Decorations *)

Lemma mask_bit_testbit mask n : 0 <= n → mask_bit mask (2 ^ n) = Z.testbit mask n.
Proof.
  intros Hn. unfold mask_bit.
  assert (Hbits : ∀ k, 0 <= k →
            Z.testbit (Z.land mask (2 ^ n)) k = Z.testbit mask k && (n =? k)).
  { intros k Hk. by rewrite Z.land_spec, Z.pow2_bits_eqb. }
  destruct (Z.testbit mask n) eqn:Hb.
  - destruct (Z.eqb_spec (Z.land mask (2 ^ n)) 0) as [H0|]; [|done].
    specialize (Hbits n Hn). rewrite H0, Z.bits_0, Hb, Z.eqb_refl in Hbits. done.
  - assert (Z.land mask (2 ^ n) = 0) as ->; [|done].
    apply Z.bits_inj'. intros k Hk. rewrite Hbits, Z.bits_0 by done.
    destruct (Z.eqb_spec n k) as [->|]; [by rewrite Hb|by rewrite andb_false_r].
Qed.

Lemma testbit_set_if (b : bool) ret n m :
  0 <= m →
  Z.testbit (if b then Z.lor ret (2 ^ m) else ret) n
  = Z.testbit ret n || (b && (m =? n)).
Proof.
  intros Hm. destruct b; simpl; [|by rewrite orb_false_r].
  by rewrite Z.lor_spec, Z.pow2_bits_eqb.
Qed.

Lemma decorationMask_testbit n1 n2 n3 n4 n5 n6 n7 n8 n9 n10 n11 w n :
  Forall (λ k, 0 <= k) [n1; n2; n3; n4; n5; n6; n7; n8; n9; n10; n11] →
  Z.testbit (decorationMask (2 ^ n1) (2 ^ n2) (2 ^ n3) (2 ^ n4) (2 ^ n5) (2 ^ n6)
               (2 ^ n7) (2 ^ n8) (2 ^ n9) (2 ^ n10) (2 ^ n11) w) n
  = foldl (λ acc '(flag, k), acc || (flag && (k =? n))) false
      (zip [dec_titlebar (decorations w); dec_handle (decorations w);
            dec_border (decorations w); dec_iconify (decorations w);
            dec_maximize (decorations w); dec_close (decorations w);
            dec_menu (decorations w); dec_sticky (decorations w);
            dec_shade (decorations w); dec_tab (decorations w);
            dec_enabled (decorations w)]
         [n1; n2; n3; n4; n5; n6; n7; n8; n9; n10; n11]).
Proof.
  rewrite !Forall_cons.
  intros (? & ? & ? & ? & ? & ? & ? & ? & ? & ? & ? & _).
  unfold decorationMask. cbv zeta.
  rewrite !testbit_set_if by done. by rewrite Z.bits_0.
Qed.

Lemma foldl_flag_acc (k : Z) (l : list (bool * Z)) (acc : bool) :
  foldl (λ acc '(flag, k'), acc || (flag && (k' =? k))) acc l
  = acc || foldl (λ acc '(flag, k'), acc || (flag && (k' =? k))) false l.
Proof.
  revert acc. induction l as [|[flag k'] l IH]; intros acc; simpl.
  - by rewrite orb_false_r.
  - rewrite IH. rewrite (IH (flag && _)). by rewrite orb_assoc.
Qed.

Lemma foldl_flag_absent (k : Z) (flags : list bool) (ns : list Z) :
  k ∉ ns →
  foldl (λ acc '(flag, k'), acc || (flag && (k' =? k))) false (zip flags ns) = false.
Proof.
  revert flags. induction ns as [|n ns IH]; intros flags Hk.
  - by destruct flags.
  - destruct flags as [|flag flags]; [done|]. simpl.
    apply not_elem_of_cons in Hk as [Hkn Hk].
    rewrite (proj2 (Z.eqb_neq n k)) by done. rewrite andb_false_r. simpl.
    by apply IH.
Qed.

(** of the flags encoded at different positions the one at position
    [k] is read back *)
Lemma foldl_flag_pick (flags : list bool) (ns : list Z) (i : nat) (k : Z) :
  NoDup ns → length flags = length ns → ns !! i = Some k →
  foldl (λ acc '(flag, k'), acc || (flag && (k' =? k))) false (zip flags ns)
  = default false (flags !! i).
Proof.
  intros Hnd. revert flags i. induction Hnd as [|n ns Hn Hnd IH]; intros flags i Hlen Hi.
  - done.
  - destruct flags as [|flag flags]; [done|]. simpl. rewrite foldl_flag_acc.
    destruct i as [|i]; simpl in *.
    + injection Hi as <-. rewrite Z.eqb_refl, andb_true_r.
      by rewrite foldl_flag_absent, orb_false_r.
    + assert (n ≠ k) by (intros ->; apply Hn; by eapply list_elem_of_lookup_2).
      rewrite (proj2 (Z.eqb_neq n k)) by done. rewrite andb_false_r. simpl.
      apply IH; [congruence|done].
Qed.

(** X16.  The decoration mask is a faithful encoding: when the mask
    constants are different single bits, [setDecorationMask] applied to
    the value of [decorationMask] sets every decoration flag to what it
    was, and commits the flags to the frame. *)
Theorem setDecorationMask_decorationMask bw t h b i m c mn s sh tb e w :
  single_bits [t; h; b; i; m; c; mn; s; sh; tb; e] →
  setDecorationMask bw t h b i m c mn s sh tb e
    (decorationMask t h b i m c mn s sh tb e w) w
  = applyDecorations bw w.
Proof.
  intros (ns & Hnd & Hpos & Hmasks).
  destruct ns as [|n1 [|n2 [|n3 [|n4 [|n5 [|n6 [|n7 [|n8 [|n9 [|n10 [|n11 [|? ?]]]]]]]]]]]];
    try done.
  injection Hmasks as -> -> -> -> -> -> -> -> -> -> ->.
  assert (Hbit : ∀ i k,
            [n1; n2; n3; n4; n5; n6; n7; n8; n9; n10; n11] !! i = Some k →
            mask_bit (decorationMask (2 ^ n1) (2 ^ n2) (2 ^ n3) (2 ^ n4) (2 ^ n5)
                        (2 ^ n6) (2 ^ n7) (2 ^ n8) (2 ^ n9) (2 ^ n10) (2 ^ n11) w)
              (2 ^ k)
            = default false
                ([dec_titlebar (decorations w); dec_handle (decorations w);
                  dec_border (decorations w); dec_iconify (decorations w);
                  dec_maximize (decorations w); dec_close (decorations w);
                  dec_menu (decorations w); dec_sticky (decorations w);
                  dec_shade (decorations w); dec_tab (decorations w);
                  dec_enabled (decorations w)] !! i)).
  { intros i k Hk.
    rewrite mask_bit_testbit
      by (eapply (Forall_lookup_1 _ _ _ _ Hpos); exact Hk).
    rewrite decorationMask_testbit by done.
    by apply foldl_flag_pick. }
  unfold setDecorationMask. f_equal.
  transitivity (with_decorations (decorations w) w); [|by destruct w].
  f_equal.
  rewrite (Hbit 0%nat n1), (Hbit 1%nat n2), (Hbit 2%nat n3), (Hbit 3%nat n4),
    (Hbit 4%nat n5), (Hbit 5%nat n6), (Hbit 6%nat n7), (Hbit 7%nat n8),
    (Hbit 8%nat n9), (Hbit 9%nat n10), (Hbit 10%nat n11) by done.
  by destruct (decorations w).
Qed.

Lemma setDecoration_frame bw d w :
  frame_decor (setDecoration bw d w)
  = mkFrameDecor (dec_titlebar (decorations (setDecoration bw d w)))
      (dec_handle (decorations (setDecoration bw d w)))
      (if dec_border (decorations (setDecoration bw d w)) then bw else 0).
Proof. by destruct d. Qed.

(** X17.  Switching the decorations off and on again does not bring
    the tab flag back: for a window that is not shaded and has its
    decorations enabled, two calls of [toggleDecoration] leave the
    window with the flags and functions of its remembered decoration
    (the normal one if none is remembered) and decorations enabled, but
    with the tab flag cleared; and every further pair of calls leaves
    that state as it is. *)
Theorem toggleDecoration_twice bw w :
  shaded w = false → dec_enabled (decorations w) = true →
  let d := match m_old_decoration w with DECOR_NONE => DECOR_NORMAL | d => d end in
  let w2 := toggleDecoration bw (toggleDecoration bw w) in
  dec_tab (decorations w2) = false ∧
  dec_enabled (decorations w2) = true ∧
  decoration_flags (decorations w2)
  = decoration_flags (decorations (setDecoration bw d w)) ∧
  functions w2 = functions (setDecoration bw d w) ∧
  frame_decor w2 = frame_decor (setDecoration bw d w) ∧
  toggleDecoration bw (toggleDecoration bw w2) = w2.
Proof.
  intros Hsh Hen. destruct w as [dw fw old sh fr]. simpl in *. subst.
  unfold toggleDecoration. simpl. rewrite Hen. simpl.
  destruct old; simpl; repeat split; try done.
Qed.

(** * Window gravity *)

Lemma to_signed_mod a b : (a - b) mod 2 ^ 32 = 0 → to_signed a = to_signed b.
Proof.
  intros H. unfold to_signed.
  assert (a mod 2 ^ 32 = b mod 2 ^ 32) as ->; [|done].
  replace a with (b + (a - b)) at 1 by lia.
  rewrite Z.add_mod, H, Z.add_0_r, Z.mod_mod by lia. done.
Qed.

Lemma to_signed_add_l a b : to_signed (to_signed a + b) = to_signed (a + b).
Proof.
  apply to_signed_mod. unfold to_signed.
  destruct (a mod 2 ^ 32 <? 2 ^ 31).
  - replace (a mod 2 ^ 32 + b - (a + b)) with (a mod 2 ^ 32 - a) by lia.
    rewrite Zminus_mod_idemp_l. by replace (a - a) with 0 by lia.
  - replace (a mod 2 ^ 32 - 2 ^ 32 + b - (a + b))
      with (a mod 2 ^ 32 - a + -1 * 2 ^ 32) by lia.
    rewrite Z.mod_add by lia.
    rewrite Zminus_mod_idemp_l. by replace (a - a) with 0 by lia.
Qed.

(** X15.  [restoreGravity] undoes [setGravityOffsets]: for every window
    gravity, once [setGravityOffsets] has placed the frame,
    [restoreGravity] computes for a client as large as the client area
    the position the frame had before. *)
Theorem restoreGravity_setGravityOffsets win_gravity fr :
  - 2 ^ 31 <= frame_x fr < 2 ^ 31 → - 2 ^ 31 <= frame_y fr < 2 ^ 31 →
  restoreGravity win_gravity (setGravityOffsets win_gravity fr)
    (clientArea_width fr) (clientArea_height fr)
  = (frame_x fr, frame_y fr).
Proof.
  intros Hx Hy. unfold setGravityOffsets. cbv zeta.
  set (newx := if eastward win_gravity then _ else _).
  set (newy := if southbound win_gravity then _ else _).
  assert (Hmoved : ∀ P : FrameGeometry → Prop,
            P (frame_move newx newy fr) →
            P (if negb (frame_x fr =? newx) || negb (frame_y fr =? newy)
               then frame_move newx newy fr else fr)).
  { intros P HP. destruct (Z.eqb_spec (frame_x fr) newx) as [Ex|];
      destruct (Z.eqb_spec (frame_y fr) newy) as [Ey|]; simpl; try done.
    unfold frame_move in HP. rewrite <- Ex, <- Ey in HP. by destruct fr. }
  apply Hmoved. unfold restoreGravity, frame_move, newx, newy. simpl.
  destruct (eastward win_gravity), (southbound win_gravity); f_equal;
    match goal with
    | |- to_signed (to_signed ?a + ?b - ?c) = ?x =>
        replace (to_signed a + b - c) with (to_signed a + (b - c)) by lia;
        rewrite to_signed_add_l;
        replace (a + (b - c)) with x by lia; by apply to_signed_id
    | _ => done
    end.
Qed.

(** * WM_NORMAL_HINTS and the size-hint arithmetic *)

Lemma to_unsigned_range z : 0 <= to_unsigned z < 2 ^ 32.
Proof. unfold to_unsigned. apply Z.mod_pos_bound. lia. Qed.

Lemma to_unsigned_id z : 0 <= z < 2 ^ 31 → to_unsigned z = z.
Proof. intros Hz. unfold to_unsigned. apply Z.mod_small. lia. Qed.

(** X9.  Whatever the WM_NORMAL_HINTS property holds, and also when it
    cannot be read, [updateWMNormalHints] never stores a zero size
    increment, and the hints it stores do not depend on the hints stored
    before. *)
Theorem updateWMNormalHints_increments old old' flags prop :
  let h := (updateWMNormalHints old flags prop).1.1 in
  width_inc h ≠ 0 ∧ height_inc h ≠ 0 ∧
  (updateWMNormalHints old' flags prop).1.1 = h.
Proof.
  destruct prop as [p|]; [|done]. unfold updateWMNormalHints.
  destruct (has_flag p PMinSize), (has_flag p PBaseSize), (has_flag p PMaxSize),
    (has_flag p PResizeInc), (has_flag p PAspect); simpl;
    repeat match goal with
           | |- context [ ?a =? 0 ] => destruct (Z.eqb_spec a 0)
           end; simpl; done.
Qed.

(** X10.  For a property whose size fields are non-negative, the stored
    hints are within the range of [int] with increments of at least 1;
    they declare no aspect ratio unless the property carries PAspect, no
    maximum unless it carries PMaxSize, and the base size is not above
    the minimum size unless the property gives both of them. *)
Theorem updateWMNormalHints_natural old flags p :
  natural_sizes p →
  let h := (updateWMNormalHints old flags (Some p)).1.1 in
  hints_in_int_range h ∧
  (has_flag p PAspect = false → no_aspect h) ∧
  (has_flag p PMaxSize = false → max_width h = 0 ∧ max_height h = 0) ∧
  (has_flag p PMinSize && has_flag p PBaseSize = false →
   base_width h <= min_width h ∧ base_height h <= min_height h).
Proof.
  unfold natural_sizes. rewrite !Forall_cons.
  intros (H1 & H2 & H3 & H4 & H5 & H6 & H7 & H8 & _).
  unfold updateWMNormalHints, hints_in_int_range, no_aspect.
  destruct (has_flag p PMinSize), (has_flag p PBaseSize), (has_flag p PMaxSize),
    (has_flag p PResizeInc), (has_flag p PAspect); simpl;
    rewrite ?to_unsigned_id by done;
    repeat match goal with
           | |- context [ ?a =? 0 ] => destruct (Z.eqb_spec a 0)
           end; simpl; intuition (try done; try lia).
Qed.

Lemma clamp_bounds mn mx x :
  0 <= mn →
  mn <= clamp mn mx x ∨ (0 < mx < mn ∧ clamp mn mx x = mx).
Proof. intros Hmn. unfold clamp. case_ltb; lia. Qed.

Lemma clamp_max mn mx x : 0 < mx → clamp mn mx x <= mx.
Proof. intros Hmx. unfold clamp. case_ltb; lia. Qed.

Lemma clamp_request mn mx x : 0 <= mn → clamp mn mx x <= Z.max x mn.
Proof. intros Hmn. unfold clamp. case_ltb; lia. Qed.

Lemma cells_grid b inc x :
  0 < inc → b <= x →
  let y := cells b inc x * inc + b in
  b <= y <= x ∧ x - inc < y ∧ Z.rem (y - b) inc = 0 ∧ 0 <= cells b inc x.
Proof.
  intros Hinc Hx y. unfold y, cells.
  pose proof (Z.quot_rem' (x - b) inc) as Hqr.
  pose proof (Z.rem_bound_pos_pos (x - b) inc Hinc ltac:(lia)).
  pose proof (Z.quot_pos (x - b) inc ltac:(lia) Hinc).
  split; [nia|]. split; [nia|]. split; [|done].
  replace ((x - b) ÷ inc * inc + b - b) with ((x - b) ÷ inc * inc) by lia.
  apply Z.rem_mul. lia.
Qed.

Lemma cells_above b inc x mn :
  0 < inc → b <= mn → mn <= x → Z.rem (mn - b) inc = 0 →
  mn <= cells b inc x * inc + b.
Proof.
  intros Hinc Hb Hx Hrem. unfold cells.
  pose proof (Z.quot_rem' (mn - b) inc) as Hqr. rewrite Hrem in Hqr.
  pose proof (Z.quot_le_mono (mn - b) (x - b) inc Hinc ltac:(lia)). nia.
Qed.

(** X11.  Without an aspect constraint and with a base size that is not
    above the minimum size, [applySizeHints] rounds down onto the grid
    of the increments: the width it returns is the base width plus the
    displayed number of cells times the increment, it lies less than
    one increment below the request after the request was clamped
    between minimum and maximum, it never exceeds the larger of request
    and minimum, nor the maximum where one is set; the same holds for
    the height. *)
Theorem applySizeHints_grid h w ht m :
  hints_in_int_range h → no_aspect h →
  base_width h <= min_width h → base_height h <= min_height h →
  min_width h <= max_width h ∨ max_width h = 0 →
  min_height h <= max_height h ∨ max_height h = 0 →
  - 2 ^ 31 <= w < 2 ^ 31 → - 2 ^ 31 <= ht < 2 ^ 31 →
  ∃ w' h' i j, applySizeHints h w ht m = (w', h', i, j) ∧
    w' = base_width h + i * width_inc h ∧ h' = base_height h + j * height_inc h ∧
    0 <= i ∧ 0 <= j ∧
    clamp (min_width h) (max_width h) w - width_inc h < w'
      <= clamp (min_width h) (max_width h) w ∧
    clamp (min_height h) (max_height h) ht - height_inc h < h'
      <= clamp (min_height h) (max_height h) ht ∧
    w' <= Z.max w (min_width h) ∧ h' <= Z.max ht (min_height h) ∧
    (0 < max_width h → w' <= max_width h) ∧
    (0 < max_height h → h' <= max_height h).
Proof.
  intros Hr Hasp Hbw Hbh Hmw Hmh Hw Hht.
  rewrite (applySizeHints_no_aspect h w ht m Hr Hasp Hw Hht). cbv zeta.
  destruct Hr as (Hmw' & HMw & Hmh' & HMh & Hbw' & Hbh' & Hiw & Hih).
  pose proof (clamp_bounds (min_width h) (max_width h) w ltac:(lia)) as Hcx.
  pose proof (clamp_bounds (min_height h) (max_height h) ht ltac:(lia)) as Hcy.
  pose proof (clamp_request (min_width h) (max_width h) w ltac:(lia)) as Hrx.
  pose proof (clamp_request (min_height h) (max_height h) ht ltac:(lia)) as Hry.
  pose proof (clamp_max (min_width h) (max_width h) w) as HMx.
  pose proof (clamp_max (min_height h) (max_height h) ht) as HMy.
  set (x := clamp (min_width h) (max_width h) w) in *.
  set (y := clamp (min_height h) (max_height h) ht) in *.
  destruct (cells_grid (base_width h) (width_inc h) x ltac:(lia) ltac:(lia))
    as (Hx1 & Hx2 & _ & Hx3).
  destruct (cells_grid (base_height h) (height_inc h) y ltac:(lia) ltac:(lia))
    as (Hy1 & Hy2 & _ & Hy3).
  eexists _, _, _, _. split; [done|].
  repeat split; lia.
Qed.

(** X12.  The two size-hint functions agree on hints with a declared
    maximum: without aspect fields, with a minimum size that lies on
    the increment grid above the base size and below the maximum,
    every size that [applySizeHints] returns passes
    [checkSizeHints]. *)
Theorem checkSizeHints_accepts_applied h w ht m :
  hints_in_int_range h → min_aspect_y h = 0 → max_aspect_y h = 0 →
  base_width h <= min_width h <= max_width h →
  base_height h <= min_height h <= max_height h →
  0 < min_width h → 0 < min_height h →
  Z.rem (min_width h - base_width h) (width_inc h) = 0 →
  Z.rem (min_height h - base_height h) (height_inc h) = 0 →
  - 2 ^ 31 <= w < 2 ^ 31 → - 2 ^ 31 <= ht < 2 ^ 31 →
  ∃ w' h' i j, applySizeHints h w ht m = (w', h', i, j) ∧
    checkSizeHints h w' h' = true.
Proof.
  intros Hr Hay1 Hay2 Hbw Hbh Hpw Hph Hgw Hgh Hw Hht.
  rewrite (applySizeHints_no_aspect h w ht m Hr (or_introl Hay1) Hw Hht). cbv zeta.
  destruct Hr as (Hmw' & HMw & Hmh' & HMh & Hbw' & Hbh' & Hiw & Hih).
  pose proof (clamp_bounds (min_width h) (max_width h) w ltac:(lia)) as Hcx.
  pose proof (clamp_bounds (min_height h) (max_height h) ht ltac:(lia)) as Hcy.
  pose proof (clamp_max (min_width h) (max_width h) w ltac:(lia)) as HMx.
  pose proof (clamp_max (min_height h) (max_height h) ht ltac:(lia)) as HMy.
  set (x := clamp (min_width h) (max_width h) w) in *.
  set (y := clamp (min_height h) (max_height h) ht) in *.
  assert (Hx : min_width h <= x <= max_width h) by lia.
  assert (Hy : min_height h <= y <= max_height h) by lia.
  destruct (cells_grid (base_width h) (width_inc h) x ltac:(lia) ltac:(lia))
    as (Hx1 & _ & Hx2 & _).
  destruct (cells_grid (base_height h) (height_inc h) y ltac:(lia) ltac:(lia))
    as (Hy1 & _ & Hy2 & _).
  pose proof (cells_above (base_width h) (width_inc h) x (min_width h)
                ltac:(lia) ltac:(lia) ltac:(lia) Hgw) as Hx3.
  pose proof (cells_above (base_height h) (height_inc h) y (min_height h)
                ltac:(lia) ltac:(lia) ltac:(lia) Hgh) as Hy3.
  eexists _, _, _, _. split; [done|].
  set (w' := cells (base_width h) (width_inc h) x * width_inc h + base_width h) in *.
  set (h' := cells (base_height h) (height_inc h) y * height_inc h + base_height h) in *.
  unfold checkSizeHints.
  destruct (Z.ltb_spec w' (min_width h)); [lia|].
  destruct (Z.ltb_spec h' (min_height h)); [lia|].
  destruct (Z.ltb_spec (max_width h) w'); [lia|].
  destruct (Z.ltb_spec (max_height h) h'); [lia|]. simpl.
  rewrite !to_unsigned_id by lia. rewrite Hx2, Hy2. simpl.
  rewrite Hay1, Hay2. done.
Qed.

(** * Edge snapping *)

Lemma snap_edge_exact limit a b :
  - 2 ^ 30 <= a < 2 ^ 30 → - 2 ^ 30 <= b < 2 ^ 30 → - 2 ^ 30 <= limit <= 2 ^ 30 →
  snap_edge limit a b = if Z.abs (a - b) <? Z.abs limit then b - a else limit.
Proof.
  intros Ha Hb Hl. unfold snap_edge, int_distance, int_offset.
  rewrite (to_signed_id (a - b)) by lia.
  rewrite (to_signed_id (Z.abs (a - b))) by lia.
  rewrite (to_signed_id (Z.abs limit)) by lia.
  rewrite (to_signed_id (- (a - b))) by lia.
  destruct (Z.ltb_spec (Z.abs (a - b)) (Z.abs limit)); [lia|done].
Qed.

Lemma snap_edge_offset theirs mine d0 d a b :
  - 2 ^ 30 <= a < 2 ^ 30 → - 2 ^ 30 <= b < 2 ^ 30 → - 2 ^ 30 <= d0 <= 2 ^ 30 →
  a ∈ mine → b ∈ theirs →
  snap_offset theirs mine d0 d → snap_offset theirs mine d0 (snap_edge d a b).
Proof.
  intros Ha Hb Hd0 Hmine Htheirs Hd.
  assert (Hd' : - 2 ^ 30 <= d <= 2 ^ 30) by (destruct Hd as [->|[? _]]; lia).
  rewrite snap_edge_exact by done.
  destruct (Z.ltb_spec (Z.abs (a - b)) (Z.abs d)); [|done].
  right. split; [destruct Hd as [->|[? _]]; lia|]. by exists b, a.
Qed.

Lemma snapToWindow_offset Ex Ey dx0 dy0 dx dy left right top bottom
    oleft oright otop obottom :
  Forall (λ z, - 2 ^ 30 <= z < 2 ^ 30) [left; right; top; bottom] →
  Forall (λ z, - 2 ^ 30 <= z < 2 ^ 30) [oleft; oright; otop; obottom] →
  - 2 ^ 30 <= dx0 <= 2 ^ 30 → - 2 ^ 30 <= dy0 <= 2 ^ 30 →
  oleft ∈ Ex → oright ∈ Ex → otop ∈ Ey → obottom ∈ Ey →
  snap_offset Ex [left; right] dx0 dx → snap_offset Ey [top; bottom] dy0 dy →
  snap_offset Ex [left; right] dx0
    (snapToWindow dx dy left right top bottom oleft oright otop obottom).1 ∧
  snap_offset Ey [top; bottom] dy0
    (snapToWindow dx dy left right top bottom oleft oright otop obottom).2.
Proof.
  rewrite !Forall_cons.
  intros (Hl & Hr & Ht & Hb & _) (Hol & Hor & Hot & Hob & _)
    Hx0 Hy0 H1 H2 H3 H4 Hdx Hdy.
  assert (Hleft : left ∈ [left; right]) by apply list_elem_of_here.
  assert (Hright : right ∈ [left; right])
    by apply list_elem_of_further, list_elem_of_here.
  assert (Htop : top ∈ [top; bottom]) by apply list_elem_of_here.
  assert (Hbottom : bottom ∈ [top; bottom])
    by apply list_elem_of_further, list_elem_of_here.
  unfold snapToWindow. simpl. split.
  - destruct (_ && _); [|done]. by repeat apply snap_edge_offset.
  - destruct (_ && _); [|done]. by repeat apply snap_edge_offset.
Qed.

Lemma snap_heads_offset Ex Ey dx0 dy0 left right top bottom heads :
  Forall (λ z, - 2 ^ 30 <= z < 2 ^ 30) [left; right; top; bottom] →
  - 2 ^ 30 <= dx0 <= 2 ^ 30 → - 2 ^ 30 <= dy0 <= 2 ^ 30 →
  Forall (λ '(l, r, t, b), (0 <= l < 2 ^ 28 ∧ 0 <= r < 2 ^ 28 ∧
                            0 <= t < 2 ^ 28 ∧ 0 <= b < 2 ^ 28) ∧
                           l ∈ Ex ∧ r ∈ Ex ∧ t ∈ Ey ∧ b ∈ Ey) heads →
  ∀ d d',
    foldl (λ '(dx, dy) '(l, r, t, b),
             snapToWindow dx dy left right top bottom
               (to_signed l) (to_signed r) (to_signed t) (to_signed b))
      d heads = d' →
    snap_offset Ex [left; right] dx0 d.1 → snap_offset Ey [top; bottom] dy0 d.2 →
    snap_offset Ex [left; right] dx0 d'.1 ∧ snap_offset Ey [top; bottom] dy0 d'.2.
Proof.
  intros Hrange Hx0 Hy0 Hheads.
  induction Hheads as [|[[[l r] t] b] heads ((H1 & H2 & H3 & H4) & E1 & E2 & E3 & E4) _ IH];
    intros [dx dy] d' <- Hdx Hdy; [done|].
  cbn [foldl]. rewrite !to_signed_id by lia.
  destruct (snapToWindow_offset Ex Ey dx0 dy0 dx dy left right top bottom l r t b)
    as [Ha Hb]; try done.
  { repeat constructor; lia. }
  by eapply IH.
Qed.

Lemma snap_windows_offset Ex Ey dx0 dy0 left right top bottom bw wins :
  Forall (λ z, - 2 ^ 30 <= z < 2 ^ 30) [left; right; top; bottom] →
  - 2 ^ 30 <= dx0 <= 2 ^ 30 → - 2 ^ 30 <= dy0 <= 2 ^ 30 → 0 <= bw < 2 ^ 28 →
  Forall (λ '(is_this, (x, y, w, h)),
            (on_screen x ∧ on_screen y ∧ 0 <= w < 2 ^ 28 ∧ 0 <= h < 2 ^ 28) ∧
            (is_this = false →
             x ∈ Ex ∧ x + w + 2 * bw ∈ Ex ∧ y ∈ Ey ∧ y + h + 2 * bw ∈ Ey)) wins →
  ∀ d d',
    foldl (λ '(dx, dy) '(is_this, (x, y, w, h)),
             if is_this : bool then (dx, dy)
             else snapToWindow dx dy left right top bottom
                    x (to_signed (x + w + 2 * bw))
                    y (to_signed (y + h + 2 * bw)))
      d wins = d' →
    snap_offset Ex [left; right] dx0 d.1 → snap_offset Ey [top; bottom] dy0 d.2 →
    snap_offset Ex [left; right] dx0 d'.1 ∧ snap_offset Ey [top; bottom] dy0 d'.2.
Proof.
  intros Hrange Hx0 Hy0 Hbw Hwins.
  unfold on_screen in Hwins.
  induction Hwins as [|[is_this [[[x y] w] h]] wins ((H1 & H2 & H3 & H4) & HE) _ IH];
    intros [dx dy] d' <- Hdx Hdy; [done|].
  cbn [foldl]. destruct is_this; [by eapply IH|].
  destruct (HE eq_refl) as (E1 & E2 & E3 & E4).
  rewrite !to_signed_id by lia.
  destruct (snapToWindow_offset Ex Ey dx0 dy0 dx dy left right top bottom
              x (x + w + 2 * bw) y (y + h + 2 * bw)) as [Ha Hb]; try done.
  { repeat constructor; lia. }
  by eapply IH.
Qed.

Lemma elem_of_flat_map_2 {A B} (f : A → list B) (l : list A) x y :
  x ∈ l → y ∈ f x → y ∈ flat_map f l.
Proof. intros Hx Hy. apply list_elem_of_In, in_flat_map. exists x. by rewrite <- !list_elem_of_In. Qed.

(** the offsets that [doSnapping] commits *)
Lemma doSnapping_offsets env l t :
  snap_env_ok env → on_screen l → on_screen t → edgeSnapThreshold env ≠ 0 →
  ∃ dx dy,
    doSnapping env l t
    = (if dx <=? edgeSnapThreshold env then l + dx else l,
       if dy <=? edgeSnapThreshold env then t + dy else t) ∧
    snap_offset (x_edges env) [l; l + my_width env + 2 * borderWidth env]
      (edgeSnapThreshold env + 1) dx ∧
    snap_offset (y_edges env) [t; t + my_height env + 2 * borderWidth env]
      (edgeSnapThreshold env + 1) dy.
Proof.
  intros (HT & Hbw & Hw & Hh & Hsw & Hsh & Hheads & Hwins) Hl Ht HT0.
  unfold on_screen in *. unfold doSnapping.
  destruct (Z.eqb_spec (edgeSnapThreshold env) 0); [done|]. cbv zeta.
  rewrite !(to_signed_id (borderWidth env)) by lia.
  rewrite !(to_signed_id (edgeSnapThreshold env + 1)) by lia.
  rewrite (to_signed_id (l + _ + _)) by lia.
  rewrite (to_signed_id (t + _ + _)) by lia.
  set (right := l + my_width env + 2 * borderWidth env).
  set (bottom := t + my_height env + 2 * borderWidth env).
  set (T1 := edgeSnapThreshold env + 1).
  assert (Hrange : Forall (λ z, - 2 ^ 30 <= z < 2 ^ 30) [l; right; t; bottom]).
  { rewrite !Forall_cons. unfold right, bottom. repeat split; try done; lia. }
  assert (Hfirst : ∃ d,
    match xinerama_heads env with
    | Some heads =>
        foldl (λ '(dx, dy) '(l0, r, t0, b),
                 snapToWindow dx dy l right t bottom
                   (to_signed l0) (to_signed r) (to_signed t0) (to_signed b))
          (T1, T1) heads
    | None =>
        snapToWindow T1 T1 l right t bottom 0 (to_signed (screen_width env)) 0
          (to_signed (screen_height env))
    end = d ∧
    snap_offset (x_edges env) [l; right] T1 d.1 ∧
    snap_offset (y_edges env) [t; bottom] T1 d.2).
  { eexists. split; [done|]. unfold x_edges, y_edges.
    destruct (xinerama_heads env) as [heads|] eqn:Hh'.
    - eapply (snap_heads_offset _ _ T1 T1 l right t bottom heads Hrange);
        [unfold T1; lia|unfold T1; lia| |reflexivity|by left|by left].
      specialize (Hheads heads eq_refl).
      apply Forall_forall. intros [[[l0 r] t0] b] Hin.
      rewrite Forall_forall in Hheads. specialize (Hheads _ Hin). simpl in Hheads.
      split; [done|].
      repeat split; apply elem_of_app; left;
        (eapply elem_of_flat_map_2; [exact Hin|]);
        solve [apply list_elem_of_here
              |apply list_elem_of_further, list_elem_of_here].
    - rewrite !to_signed_id by lia.
      apply snapToWindow_offset; try done; try (unfold T1; lia); try (by left);
        try (apply elem_of_app; left;
             solve [apply list_elem_of_here
                   |apply list_elem_of_further, list_elem_of_here]).
      repeat constructor; lia. }
  destruct Hfirst as ([dx1 dy1] & -> & Hdx1 & Hdy1).
  destruct (snap_windows_offset (x_edges env) (y_edges env) T1 T1 l right t bottom
              (borderWidth env) (windowList env) Hrange
              ltac:(unfold T1; lia) ltac:(unfold T1; lia) Hbw) with
    (d := (dx1, dy1))
    (d' := foldl (λ '(dx, dy) '(is_this, (x, y, w, h)),
                    if is_this : bool then (dx, dy)
                    else snapToWindow dx dy l right t bottom
                           x (to_signed (x + w + 2 * borderWidth env))
                           y (to_signed (y + h + 2 * borderWidth env)))
            (dx1, dy1) (windowList env))
    as [Hdx Hdy]; [|reflexivity|done|done|].
  { apply Forall_forall. intros [is_this [[[x y] w] h]] Hin.
    rewrite Forall_forall in Hwins. specialize (Hwins _ Hin). simpl in Hwins.
    split; [done|]. intros ->. unfold x_edges, y_edges.
    repeat split; apply elem_of_app; right;
      (eapply elem_of_flat_map_2; [exact Hin|]);
      solve [apply list_elem_of_here
            |apply list_elem_of_further, list_elem_of_here]. }
  destruct (foldl _ _ _) as [dx dy]. simpl in Hdx, Hdy.
  exists dx, dy. split; [|done].
  assert (- 2 ^ 30 <= dx <= 2 ^ 30)
    by (destruct Hdx as [->|[? _]]; unfold T1 in *; lia).
  assert (- 2 ^ 30 <= dy <= 2 ^ 30)
    by (destruct Hdy as [->|[? _]]; unfold T1 in *; lia).
  by rewrite !to_signed_id by lia.
Qed.

(** X13.  Snapping never moves a window further than the snap
    threshold: on a screen with a threshold of T pixels the position
    that [doSnapping] returns differs from the requested position by at
    most T in each direction (and not at all when the threshold is
    0). *)
Theorem doSnapping_within_threshold env l t :
  snap_env_ok env → on_screen l → on_screen t →
  Z.abs ((doSnapping env l t).1 - l) <= edgeSnapThreshold env ∧
  Z.abs ((doSnapping env l t).2 - t) <= edgeSnapThreshold env.
Proof.
  intros Hok Hl Ht.
  destruct (decide (edgeSnapThreshold env = 0)) as [H0|H0].
  { unfold doSnapping. rewrite H0. simpl. lia. }
  destruct (doSnapping_offsets env l t Hok Hl Ht H0) as (dx & dy & -> & Hdx & Hdy).
  destruct Hok as (HT & _). simpl.
  split.
  - destruct (Z.leb_spec dx (edgeSnapThreshold env)); [|lia].
    destruct Hdx as [->|[? _]]; lia.
  - destruct (Z.leb_spec dy (edgeSnapThreshold env)); [|lia].
    destruct Hdy as [->|[? _]]; lia.
Qed.

(** X14.  A window that snapping moves ends on one of the lines that
    [doSnapping] compares it with: when the returned horizontal
    position differs from the requested one, the left or the right
    outer edge of the window at its new position lies on a vertical
    edge of the screen or of a Xinerama head, on the left position [x]
    of another window of the workspace, or on the line that the code
    takes for the far side of that window, [x] plus its width plus
    twice the border width of the moved window (Window.cc:2885; it is
    the far outer edge of the other window when both have the same
    border width); and likewise for the vertical position, with [y]
    and the height. *)
Theorem doSnapping_aligns env l t :
  snap_env_ok env → on_screen l → on_screen t →
  let l' := (doSnapping env l t).1 in
  let t' := (doSnapping env l t).2 in
  (l' ≠ l → l' ∈ x_edges env
            ∨ l' + my_width env + 2 * borderWidth env ∈ x_edges env) ∧
  (t' ≠ t → t' ∈ y_edges env
            ∨ t' + my_height env + 2 * borderWidth env ∈ y_edges env).
Proof.
  intros Hok Hl Ht.
  destruct (decide (edgeSnapThreshold env = 0)) as [H0|H0].
  { unfold doSnapping. rewrite H0. simpl. done. }
  destruct (doSnapping_offsets env l t Hok Hl Ht H0) as (dx & dy & -> & Hdx & Hdy).
  simpl. split.
  - destruct (Z.leb_spec dx (edgeSnapThreshold env)); [|done]. intros _.
    destruct Hdx as [->|(_ & e & a & He & Ha & ->)]; [lia|].
    apply elem_of_cons in Ha as [->|Ha].
    + left. by replace (l + (e - l)) with e by lia.
    + apply list_elem_of_singleton in Ha as ->. right.
      match goal with |- ?x ∈ _ => replace x with e by lia end. done.
  - destruct (Z.leb_spec dy (edgeSnapThreshold env)); [|done]. intros _.
    destruct Hdy as [->|(_ & e & a & He & Ha & ->)]; [lia|].
    apply elem_of_cons in Ha as [->|Ha].
    + left. by replace (t + (e - t)) with e by lia.
    + apply list_elem_of_singleton in Ha as ->. right.
      match goal with |- ?x ∈ _ => replace x with e by lia end. done.
Qed.

(** ** The properties at concrete windows *)

(** decides a closed proposition by evaluation *)
Ltac by_compute := apply (bool_decide_unpack _); vm_compute; exact I.

Lemma graph_inv_waiting : graph_inv waiting_state.
Proof.
  apply (run_inv 1 [EvRegister 20 None true false] (init_state {[ 20 := 10 ]}));
    [apply graph_inv_init|by vm_compute].
Qed.

Lemma graph_inv_named : graph_inv named_state.
Proof.
  apply (run_inv 1 [EvRegister 30 None true false; EvRegister 20 None true false]
           (init_state {[ 20 := 10; 10 := 30 ]}));
    [apply graph_inv_init|by vm_compute].
Qed.

Lemma graph_inv_chain : graph_inv chain_state.
Proof.
  destruct (run 1 (init_state {[ 20 := 10; 30 := 20 ]})
              [EvRegister 10 (Some 1%nat) true false;
               EvRegister 20 (Some 2%nat) true false;
               EvRegister 30 (Some 3%nat) true false]) as [s|] eqn:Hs;
    [|by vm_compute in Hs].
  pose proof (run_inv 1 _ _ _ (graph_inv_init _) Hs) as Hinv.
  vm_compute in Hs. injection Hs as <-.
  revert Hinv. by apply graph_inv_clients.
Qed.

(** the sequence that C++ leaves undefined: 20 waits for 10, names 30
    instead, and 10 is registered before 20 is re-resolved *)
Lemma walk_requeue_undefined :
  run 1 (init_state {[ 20 := 10 ]})
    [EvRegister 20 None true false; EvHint 20 (Some 30);
     EvRegister 10 None true false] = None.
Proof. by vm_compute. Qed.

Lemma transient_relation_acyclic_witness :
  (∃ s, run 1 (init_state {[ 20 := 10 ]})
          [EvRegister 20 None true false; EvHint 20 (Some 30); EvRelink 20;
           EvRegister 10 None true false] = Some s ∧ acyclic s) ∧
  (∃ es1 e es2 s1,
     [EvRegister 20 None true false; EvHint 20 (Some 30);
      EvRegister 10 None true false] = es1 ++ e :: es2 ∧
     run 1 (init_state {[ 20 := 10 ]}) es1 = Some s1 ∧ acyclic s1 ∧
     walk_undefined 1 s1 e).
Proof.
  split.
  - apply (transient_relation_acyclic 1 {[ 20 := 10 ]}
             [EvRegister 20 None true false; EvHint 20 (Some 30); EvRelink 20;
              EvRegister 10 None true false]).
    simpl. by split.
  - apply (transient_relation_acyclic 1 {[ 20 := 10 ]}
             [EvRegister 20 None true false; EvHint 20 (Some 30);
              EvRegister 10 None true false]).
    exact walk_requeue_undefined.
Defined.

Lemma wait_then_link_witness :
  ∃ s1, updateTransientInfo 1 named_state 20 = Some s1 ∧
    (∃ l, s_transient_wait s1 !! 10 = Some (l ++ [20]) ∧ 20 ∉ l) ∧
    (∀ k l, k ≠ 10 → s_transient_wait s1 !! k = Some l → 20 ∉ l) ∧
    ∃ s2, WinClient_new 1 s1 10 None true false = Some s2 ∧
      s_transient_wait s2 !! 10 = None ∧
      transientFor s2 20 = Some 10 ∧ 20 ∈ transientList s2 10.
Proof.
  apply (wait_then_link 1 named_state 10 20 None true false).
  - exact graph_inv_named.
  - by eexists.
  - reflexivity.
  - lia.
  - lia.
  - reflexivity.
  - intros l t [= <-] Ht Hne. by apply list_elem_of_singleton in Ht.
  - intros w [= <-] _ _ Hpath.
    destruct (rtc_inv _ _ Hpath) as [?|(y & [Hy|[Hy _]] & _)]; [lia|..];
      vm_compute in Hy; discriminate Hy.
Defined.

(** C5, as stated, fails when the window that registers names its own
    waiter: the loop check clears the waiter's link. *)
Lemma wait_then_link_mutual :
  ∃ s1 s2, updateTransientInfo 1 mutual_state 20 = Some s1 ∧
    s_transient_wait s1 !! 10 = Some [20] ∧
    WinClient_new 1 s1 10 None true false = Some s2 ∧
    transientFor s2 20 = None ∧ transientFor s2 10 = Some 20.
Proof.
  eexists _, _. split; [by vm_compute|]. split; [by vm_compute|].
  split; [by vm_compute|]. split; by vm_compute.
Qed.

(** with a waiter of 10 that has named another window without
    WinClient, the walk of the constructor of 10 is undefined *)
Lemma wait_then_link_undefined :
  ∃ s1, updateTransientInfo 1 crowded_state 20 = Some s1 ∧
    s_transient_wait s1 !! 10 = Some [40; 20] ∧
    WinClient_new 1 s1 10 None true false = None.
Proof. eexists. split; [by vm_compute|]. split; by vm_compute. Qed.

Lemma modal_without_modal_transient_witness :
  setInputFocus modal_mark icccm_mode 1 (modal_state false) 1
  = Some (false, modal_state false).
Proof.
  apply (modal_without_modal_transient modal_mark icccm_mode 0
           (modal_state false) 1%nat (frame [10] 10 2) 10
           (client None [20] (Some 1%nat) true)).
  - reflexivity.
  - reflexivity.
  - reflexivity.
  - reflexivity.
  - discriminate.
  - intros t Ht. apply list_elem_of_singleton in Ht as ->.
    exists (client (Some 10) [] (Some 2%nat) false). by split.
Defined.

Lemma modal_override_witness :
  setInputFocus modal_mark icccm_mode 1 (modal_state true) 1
  = setCurrentClient modal_mark icccm_mode 0 (modal_state true) 2 20 true ∧
  ∃ b s', setInputFocus modal_mark icccm_mode 2 (modal_state true) 1
          = Some (b, s') ∧
    m_client <$> frames s' !! 2%nat = Some (Some 20) ∧
    ∀ e, e ∈ x_log s' →
         e ∈ x_log (modal_state true)
         ∨ e ∈ [XRaiseWindow 20; XSetInputFocus 20;
                SetFocusedWindow 2 20; XSendTakeFocus 20].
Proof.
  destruct (modal_override modal_mark icccm_mode 0 (modal_state true)
              1%nat (frame [10] 10 2) 10 (client None [20] (Some 1%nat) true)
              [] 20 [] (client (Some 10) [] (Some 2%nat) true) 2%nat
              (frame [20] 20 2)) as [H1 H2].
  - reflexivity.
  - reflexivity.
  - by vm_compute.
  - reflexivity.
  - reflexivity.
  - reflexivity.
  - intros x Hx. by apply elem_of_nil in Hx.
  - reflexivity.
  - reflexivity.
  - reflexivity.
  - reflexivity.
  - split; [exact H1|exact (H2 eq_refl)].
Defined.





Lemma attachClient_witness :
  (∃ s' f', attachClient attach_state 1 20 = Some s' ∧
     frames s' !! 1%nat = Some f' ∧
     m_clientlist f' = [10; 20; 30] ∧ m_client f' = Some 10 ∧
     frames s' !! 2%nat = None ∧
     x_group_left s' !! 20 = Some 10 ∧ x_group_left s' !! 30 = Some 20 ∧
     last (x_log s') = Some (XRaiseWindow 10)) ∧
  (∃ s' f', attachClient attach_state 1 40 = Some s' ∧
     frames s' !! 1%nat = Some f' ∧
     m_clientlist f' = [10; 40] ∧ m_client f' = Some 10 ∧
     x_group_left s' !! 40 = Some 10).
Proof.
  split.
  - destruct (attachClient_spec attach_state 1%nat 20
                (client None [] (Some 2%nat) false) (frame [10] 10 2) 10)
      as [H _]; [reflexivity|reflexivity|discriminate|reflexivity|].
    destruct (H 2%nat (frame [20; 30] 30 2) eq_refl eq_refl)
      as (s' & f' & Hs' & Hf' & Hl & Ha & Hold & _ & Hleft & Hlog).
    { apply Forall_forall. by_compute. }
    destruct (Hleft eq_refl) as [Hother Hown].
    exists s', f'. split; [done|]. split; [done|]. split; [done|].
    split; [done|]. split; [done|]. split; [by apply Hown|].
    split; [|done]. by rewrite Hother.
  - destruct (attachClient_spec attach_state 1%nat 40
                (client None [] None false) (frame [10] 10 2) 10)
      as [_ H]; [reflexivity|reflexivity|discriminate|reflexivity|].
    destruct (H eq_refl) as (s' & f' & Hs' & Hf' & Hl & Ha & _ & _ & Hown & _).
    exists s', f'. split; [done|]. split; [done|]. split; [done|].
    split; [done|]. by apply Hown.
Defined.

(** C4, as stated, fails: the attached client 40 is neither made the
    active client nor raised; 10 stays active and is the one raised. *)
Lemma attachClient_keeps_active :
  ∃ s' f', attachClient attach_state 1 40 = Some s' ∧
    frames s' !! 1%nat = Some f' ∧
    m_client f' = Some 10 ∧ x_log s' = [XRaiseWindow 10].
Proof.
  eexists _, _. split; [by vm_compute|]. split; [by vm_compute|].
  split; reflexivity.
Qed.

Lemma destroy_orphans_transients_witness :
  ∃ s', WinClient_delete modal_mark icccm_mode 5 family_state 20 = Some s' ∧
    (∀ t, t ∈ [30] → transientFor s' t = None) ∧
    (∀ x, x ≠ 20 → (live s' x ↔ live family_state x)) ∧
    ¬ live s' 20 ∧
    (∀ p, Some 10 = Some p → 20 ∉ transientList s' p) ∧
    s_transient_wait s' !! 20 = None ∧
    (∀ k l, s_transient_wait s' !! k = Some l → 20 ∉ l).
Proof.
  destruct (destroy_orphans_transients modal_mark icccm_mode 5 family_state 20
              (client (Some 10) [30] (Some 1%nat) false)) as [Hpost Hret].
  - reflexivity.
  - discriminate.
  - intros p [= <-]. split; [lia|by eexists].
  - apply Forall_forall. by_compute.
  - destruct Hret as [s' Hs'].
    + intros w [= <-]. eexists. split; [reflexivity|]. apply Forall_forall.
      by_compute.
    + apply (listed_ranked family_state (λ x, Z.to_nat (100 - x))). by_compute.
    + apply listed_have_frames. by_compute.
    + vm_compute. lia.
    + exists s'. split; [exact Hs'|]. by apply Hpost.
Defined.

Lemma wf_frames_chain : wf_frames chain_state.
Proof. by_compute. Qed.




Lemma applySizeHints_idempotent_witness :
  applySizeHints grid_hints 107 54 false = (100, 50, 10, 5) ∧
  idempotent_at grid_hints 107 54 false.
Proof.
  split; [by vm_compute|].
  apply (applySizeHints_idempotent_no_aspect grid_hints 107 54 false).
  - unfold hints_in_int_range. simpl. lia.
  - by left.
  - lia.
  - lia.
Defined.

(** C7, as stated, fails for a hint set with an aspect ratio: with the
    ratio 3/2 the size 10x10 is mapped to 11x7, and 11x7 to 10x7. *)
Lemma applySizeHints_aspect_not_idempotent :
  applySizeHints aspect_hints 10 10 false = (11, 7, 11, 7) ∧
  applySizeHints aspect_hints 11 7 false = (10, 7, 10, 7) ∧
  ¬ idempotent_at aspect_hints 10 10 false.
Proof.
  split; [by vm_compute|]. split; [by vm_compute|].
  unfold idempotent_at.
  assert (applySizeHints aspect_hints 10 10 false = (11, 7, 11, 7)) as ->
    by (by vm_compute).
  assert (applySizeHints aspect_hints 11 7 false = (10, 7, 10, 7)) as ->
    by (by vm_compute).
  discriminate.
Qed.

Lemma checkSizeHints_rejects_unbounded_witness :
  checkSizeHints default_hints 100 100 = false.
Proof.
  apply (checkSizeHints_rejects_unbounded default_hints 100 100).
  - reflexivity.
  - lia.
Defined.

(** ** More properties at concrete inputs *)

Lemma history_commands_step_witness :
  ∃ r', FbRun.tabCompleteHistory FbRun.setText_end FbRun.three_commands = Some r' ∧
    FbRun.cursor_ok r' ∧ FbRun.history_step FbRun.three_commands r'.
Proof.
  apply (history_commands_step FbRun.setText_end (λ _ _, eq_refl)
           FbRun.three_commands).
  - unfold FbRun.cursor_ok. simpl. lia.
  - do 4 apply list_elem_of_further. apply list_elem_of_here.
Defined.

Lemma history_back_and_forth_witness :
  (∃ r1 r2, FbRun.prevHistoryItem FbRun.setText_end FbRun.browsing = Some r1 ∧
     FbRun.nextHistoryItem FbRun.setText_end r1 = Some r2 ∧
     FbRun.m_current_history_item r2 = 1%nat ∧
     FbRun.text (FbRun.box r2) = FbRun.cmd_make ∧ FbRun.bells r2 = O) ∧
  (∃ r1 r2, FbRun.nextHistoryItem FbRun.setText_end FbRun.browsing = Some r1 ∧
     FbRun.prevHistoryItem FbRun.setText_end r1 = Some r2 ∧
     FbRun.m_current_history_item r2 = 1%nat ∧
     FbRun.text (FbRun.box r2) = FbRun.cmd_make ∧ FbRun.bells r2 = O).
Proof.
  destruct (history_back_and_forth FbRun.setText_end (λ _ _, eq_refl) FbRun.browsing)
    as [H1 H2].
  - unfold FbRun.cursor_ok. simpl. lia.
  - split; [apply H1|apply H2]; simpl; lia.
Defined.

Lemma tabCompleteHistory_nearest_witness :
  FbRun.tabCompleteHistory FbRun.setText_end FbRun.three_commands
  = Some (FbRun.show FbRun.setText_end 2 (FbRun.cmd_man) FbRun.three_commands).
Proof.
  destruct (tabCompleteHistory_nearest FbRun.setText_end (λ _ _, eq_refl)
              FbRun.three_commands) as [H _].
  - unfold FbRun.cursor_ok. simpl. lia.
  - apply H.
    + simpl. lia.
    + reflexivity.
    + by exists (drop 1 FbRun.cmd_man).
    + simpl. intros j e' Hj. lia.
Defined.

Lemma tabCompleteHistory_at_line_start_witness :
  FbRun.tabCompleteHistory FbRun.setText_end FbRun.at_line_start
  = FbRun.prevHistoryItem FbRun.setText_end FbRun.at_line_start.
Proof.
  apply (tabCompleteHistory_at_line_start FbRun.setText_end FbRun.at_line_start).
  - unfold FbRun.cursor_ok. simpl. lia.
  - reflexivity.
Defined.

Lemma loadHistory_reads_lines_witness :
  ∃ r', FbRun.loadHistory (Some (FbRun.history_name))
          (Some (FbRun.history_file FbRun.old_file_lines ++ FbRun.old_file_tail))
          FbRun.three_commands = Some (true, r') ∧
    FbRun.m_history r'
    = filter (λ e, e ≠ []) (FbRun.old_file_lines ++ [FbRun.old_file_tail]).
Proof.
  apply (loadHistory_reads_lines (FbRun.history_name) FbRun.old_file_lines
           FbRun.old_file_tail FbRun.three_commands).
  - by_compute.
  - by_compute.
Defined.

Lemma run_saves_history_witness :
  FbRun.run (FbRun.cmd_make)
    (Some (FbRun.history_file (FbRun.m_history FbRun.make_again))) FbRun.make_again
  = (FbRun.mkFbRun (FbRun.m_history FbRun.make_again)
       (FbRun.duplicate FbRun.make_again) (FbRun.m_history_file FbRun.make_again)
       true (FbRun.box FbRun.make_again) (FbRun.bells FbRun.make_again)
       (FbRun.spawned FbRun.make_again ++ [FbRun.cmd_make]),
     Some (FbRun.history_file
             (delete (FbRun.duplicate FbRun.make_again)
                (FbRun.m_history FbRun.make_again)
              ++ [FbRun.text (FbRun.box FbRun.make_again)]))) ∧
  (FbRun.text (FbRun.box FbRun.make_again) ∈ FbRun.m_history FbRun.make_again →
   FbRun.m_history FbRun.make_again !! FbRun.duplicate FbRun.make_again
   = Some (FbRun.text (FbRun.box FbRun.make_again))) ∧
  (FbRun.text (FbRun.box FbRun.make_again) ∉ FbRun.m_history FbRun.make_again →
   FbRun.duplicate FbRun.make_again = length (FbRun.m_history FbRun.make_again)).
Proof.
  apply (run_saves_history (FbRun.cmd_make) FbRun.make_again).
  - by_compute.
  - discriminate.
Defined.

Lemma run_then_loadHistory_witness :
  ∃ r1 file r2,
    FbRun.run (FbRun.cmd_make)
      (Some (FbRun.history_file (FbRun.m_history FbRun.make_again)))
      FbRun.make_again = (r1, Some file) ∧
    FbRun.loadHistory (Some (FbRun.history_name)) (Some file) FbRun.three_commands
    = Some (true, r2) ∧
    FbRun.m_history r2
    = delete (FbRun.duplicate FbRun.make_again) (FbRun.m_history FbRun.make_again)
      ++ [FbRun.text (FbRun.box FbRun.make_again)] ∧
    (NoDup (FbRun.m_history FbRun.make_again) → NoDup (FbRun.m_history r2)).
Proof.
  apply (run_then_loadHistory (FbRun.cmd_make) (FbRun.history_name)
           FbRun.make_again FbRun.three_commands).
  - simpl. repeat apply Forall_cons_2; try apply Forall_nil_2;
      (split; [discriminate|by_compute]).
  - split; [discriminate|by_compute].
Defined.

Lemma updateWMNormalHints_natural_witness :
  let h := (updateWMNormalHints default_hints 0 (Some terminal_hints)).1.1 in
  hints_in_int_range h ∧
  (has_flag terminal_hints PAspect = false → no_aspect h) ∧
  (has_flag terminal_hints PMaxSize = false → max_width h = 0 ∧ max_height h = 0) ∧
  (has_flag terminal_hints PMinSize && has_flag terminal_hints PBaseSize = false →
   base_width h <= min_width h ∧ base_height h <= min_height h).
Proof.
  apply (updateWMNormalHints_natural default_hints 0 terminal_hints).
  unfold natural_sizes. repeat constructor; simpl; lia.
Defined.

Lemma grid_hints_in_range : hints_in_int_range grid_hints.
Proof. unfold hints_in_int_range. simpl. lia. Qed.

Lemma applySizeHints_grid_witness :
  ∃ w' h' i j, applySizeHints grid_hints 107 54 false = (w', h', i, j) ∧
    w' = base_width grid_hints + i * width_inc grid_hints ∧
    h' = base_height grid_hints + j * height_inc grid_hints ∧
    0 <= i ∧ 0 <= j ∧
    clamp (min_width grid_hints) (max_width grid_hints) 107 - width_inc grid_hints
      < w' <= clamp (min_width grid_hints) (max_width grid_hints) 107 ∧
    clamp (min_height grid_hints) (max_height grid_hints) 54 - height_inc grid_hints
      < h' <= clamp (min_height grid_hints) (max_height grid_hints) 54 ∧
    w' <= Z.max 107 (min_width grid_hints) ∧ h' <= Z.max 54 (min_height grid_hints) ∧
    (0 < max_width grid_hints → w' <= max_width grid_hints) ∧
    (0 < max_height grid_hints → h' <= max_height grid_hints).
Proof.
  apply (applySizeHints_grid grid_hints 107 54 false).
  - exact grid_hints_in_range.
  - by left.
  - simpl. lia.
  - simpl. lia.
  - by right.
  - by right.
  - lia.
  - lia.
Defined.

Lemma checkSizeHints_accepts_applied_witness :
  ∃ w' h' i j, applySizeHints boxed_hints 1000 54 false = (w', h', i, j) ∧
    checkSizeHints boxed_hints w' h' = true.
Proof.
  apply (checkSizeHints_accepts_applied boxed_hints 1000 54 false);
    try reflexivity; try (simpl; lia).
  unfold hints_in_int_range. simpl. lia.
Defined.

Lemma snap_env_ok_desk : snap_env_ok desk.
Proof.
  unfold snap_env_ok. simpl. repeat split; try lia; try done.
  repeat constructor; unfold on_screen; lia.
Qed.

Lemma doSnapping_within_threshold_witness :
  Z.abs ((doSnapping desk 195 60).1 - 195) <= edgeSnapThreshold desk ∧
  Z.abs ((doSnapping desk 195 60).2 - 60) <= edgeSnapThreshold desk.
Proof.
  apply (doSnapping_within_threshold desk 195 60).
  - exact snap_env_ok_desk.
  - unfold on_screen. lia.
  - unfold on_screen. lia.
Defined.

Lemma doSnapping_aligns_witness :
  doSnapping desk 195 60 = (198, 60) ∧
  (198 ∈ x_edges desk ∨ 198 + my_width desk + 2 * borderWidth desk ∈ x_edges desk).
Proof.
  split; [by vm_compute|].
  destruct (doSnapping_aligns desk 195 60) as [H _].
  - exact snap_env_ok_desk.
  - unfold on_screen. lia.
  - unfold on_screen. lia.
  - apply H. by vm_compute.
Defined.

Lemma restoreGravity_setGravityOffsets_witness :
  restoreGravity SouthEastGravity (setGravityOffsets SouthEastGravity decorated_frame)
    300 200 = (100, 50).
Proof.
  apply (restoreGravity_setGravityOffsets SouthEastGravity decorated_frame);
    simpl; lia.
Defined.

Lemma setDecorationMask_decorationMask_witness :
  setDecorationMask 1 1 2 4 8 16 32 64 128 256 512 1024
    (decorationMask 1 2 4 8 16 32 64 128 256 512 1024 fresh_window) fresh_window
  = applyDecorations 1 fresh_window.
Proof.
  apply (setDecorationMask_decorationMask 1 1 2 4 8 16 32 64 128 256 512 1024
           fresh_window).
  exists decor_positions. split; [by_compute|].
  split; [|reflexivity]. unfold decor_positions. repeat constructor; lia.
Defined.

Lemma toggleDecoration_twice_witness :
  let w2 := toggleDecoration 1 (toggleDecoration 1 fresh_window) in
  dec_tab (decorations w2) = false ∧
  dec_enabled (decorations w2) = true ∧
  decoration_flags (decorations w2)
  = decoration_flags (decorations (setDecoration 1 DECOR_NORMAL fresh_window)) ∧
  functions w2 = functions (setDecoration 1 DECOR_NORMAL fresh_window) ∧
  frame_decor w2 = frame_decor (setDecoration 1 DECOR_NORMAL fresh_window) ∧
  toggleDecoration 1 (toggleDecoration 1 w2) = w2.
Proof.
  apply (toggleDecoration_twice 1 fresh_window); reflexivity.
Defined.

Lemma getRootTransientFor_root_witness :
  ∃ r, getRootTransientFor 4 chain_state 30 = Some r ∧
    rtc (edge (transientFor chain_state)) 30 r ∧
    transientFor chain_state r = None ∧
    (∀ r', rtc (edge (transientFor chain_state)) 30 r' →
           transientFor chain_state r' = None → r' = r) ∧
    (∀ a, rtc (edge (transientFor chain_state)) 30 a →
          getRootTransientFor 4 chain_state a = Some r).
Proof.
  destruct graph_inv_chain as (Hac & Htf & _).
  apply (getRootTransientFor_root chain_state 30 Hac Htf). by eexists.
Defined.

Lemma tf_listed_chain : tf_listed chain_state.
Proof.
  destruct (run 1 (init_state {[ 20 := 10; 30 := 20 ]})
              [EvRegister 10 (Some 1%nat) true false;
               EvRegister 20 (Some 2%nat) true false;
               EvRegister 30 (Some 3%nat) true false]) as [s|] eqn:Hs;
    [|by vm_compute in Hs].
  assert (Hl0 : ∀ hints, tf_listed (init_state hints)) by (intros hints c p H; done).
  destruct (run_listed 1 _ _ _ (graph_inv_init _) (Hl0 _) Hs) as [_ Hlisted].
  vm_compute in Hs. injection Hs as <-.
  revert Hlisted. by apply tf_listed_clients.
Qed.

Lemma cycle_break_keeps_list_entry_witness :
  ∃ s' c, updateTransientInfo 1 relink_state 10 = Some s' ∧
    transientFor s' 10 = Some 30 ∧
    transientFor relink_state c = Some 10 ∧ transientFor s' c = None ∧
    c ∈ transientList s' 10.
Proof.
  apply (cycle_break_keeps_list_entry 1 relink_state 10 30).
  - by apply (graph_inv_clients chain_state relink_state eq_refl eq_refl),
      graph_inv_chain.
  - by apply (tf_listed_clients chain_state relink_state eq_refl), tf_listed_chain.
  - by eexists.
  - by eexists.
  - reflexivity.
  - lia.
  - lia.
  - eapply rtc_l; [|eapply rtc_l; [|apply rtc_refl]]; reflexivity.
Defined.

Lemma family_state_inv : graph_inv family_state ∧ tf_listed family_state.
Proof.
  destruct (run 1 (init_state {[ 20 := 5; 30 := 20; 40 := 5 ]})
              [EvRegister 10 None true false;
               EvRegister 20 (Some 1%nat) true false;
               EvRegister 40 (Some 1%nat) true false;
               EvHint 20 (Some 10); EvRelink 20;
               EvRegister 30 None true false]) as [s|] eqn:Hs;
    [|by vm_compute in Hs].
  assert (Hl0 : ∀ hints, tf_listed (init_state hints)) by (intros hints c p H; done).
  destruct (run_listed 1 _ _ _ (graph_inv_init _) (Hl0 _) Hs) as [Hinv Hlisted].
  vm_compute in Hs. injection Hs as <-. split.
  - revert Hinv. by apply graph_inv_clients.
  - revert Hlisted. by apply tf_listed_clients.
Qed.

Lemma WinClient_delete_keeps_graph_witness :
  ∃ s', WinClient_delete modal_mark icccm_mode 1 family_state 20 = Some s' ∧
    graph_inv s' ∧ tf_listed s'.
Proof.
  apply (WinClient_delete_keeps_graph modal_mark icccm_mode 1 family_state 20
           (client (Some 10) [30] (Some 1%nat) false)).
  - reflexivity.
  - exact (proj1 family_state_inv).
  - exact (proj2 family_state_inv).
  - apply Forall_forall. by_compute.
  - intros s1 w Hs1 [= <-]. vm_compute in Hs1. injection Hs1 as <-.
    vm_compute. by eexists.
Defined.

Lemma setStateModal_round_trip_witness :
  (s1 ← setStateModal chain_state 20 true; setStateModal s1 20 false)
  = Some chain_state ∧
  setStateModal chain_state 20 false = Some chain_state.
Proof.
  apply (setStateModal_round_trip chain_state 20 (client (Some 10) [30] (Some 2%nat) false)).
  - reflexivity.
  - reflexivity.
  - intros p [= <-]. split; [lia|by eexists].
Defined.

Lemma raiseLayer_lowerLayer_family_witness :
  ∃ r wr, getRootTransientFor 4 chain_state 30 = Some r ∧
    clients chain_state !! r = Some wr ∧
    (m_layernum (frame [30] 30 6) = 0 + 1 →
     raiseLayer 0 grant_layer Z.succ chain_state 3 = Some chain_state) ∧
    (∀ win fw, m_win wr = Some win → frames chain_state !! win = Some fw →
       (m_layernum (frame [30] 30 6) ≠ 0 + 1 →
        ∃ s', raiseLayer 0 grant_layer Z.succ chain_state 3 = Some s' ∧
              family_on_layer chain_state s' wr (Z.succ (layeritem fw))) ∧
       (∃ s', lowerLayer grant_layer Z.pred chain_state 3 = Some s' ∧
              family_on_layer chain_state s' wr (Z.pred (layeritem fw)))).
Proof.
  destruct graph_inv_chain as (Hac & Htf & _).
  apply (raiseLayer_lowerLayer_family 0 grant_layer Z.succ Z.pred chain_state
           3%nat (frame [30] 30 6) 30 Hac Htf wf_frames_chain); reflexivity.
Defined.

Lemma nextClient_prevClient_witness :
  ∃ n s1 s2,
    head ([20; 30] ++ []) = Some n ∧
    nextClient modal_mark icccm_mode 1 (tabs_state false) 1 = Some s1 ∧
    frames s1 !! 1%nat = Some (fr_client (Some n) (frame [10; 20; 30] 10 2)) ∧
    prevClient modal_mark icccm_mode 1 s1 1 = Some s2 ∧
    frames s2 !! 1%nat = Some (frame [10; 20; 30] 10 2) ∧
    clients s2 = clients (tabs_state false).
Proof.
  apply (nextClient_prevClient modal_mark icccm_mode 0 (tabs_state false) 1%nat
           (frame [10; 20; 30] 10 2) [] 10 [20; 30]).
  - reflexivity.
  - reflexivity.
  - by_compute.
  - simpl. lia.
  - reflexivity.
  - intros x Hx. simpl in Hx.
    repeat (apply elem_of_cons in Hx as [->|Hx]);
      [..|by apply elem_of_nil in Hx];
      (eexists; split; [reflexivity|by left]).
Defined.

Lemma removeClient_active_tab_witness :
  ∃ s' f', removeClient modal_mark icccm_mode 1 (tabs_state false) 1 10
           = Some (true, s') ∧
    frames s' !! 1%nat = Some f' ∧
    m_clientlist f' = [] ++ [20; 30] ∧
    m_client f' = Some 20 ∧
    clients s' !! 10 = Some (wc_m_win None (client None [] (Some 1%nat) false)) ∧
    (∀ x, x ≠ 10 → clients s' !! x = clients (tabs_state false) !! x).
Proof.
  apply (removeClient_active_tab modal_mark icccm_mode 0 (tabs_state false) 1%nat
           (frame [10; 20; 30] 10 2) [] 10 [20; 30]
           (client None [] (Some 1%nat) false)).
  - reflexivity.
  - reflexivity.
  - by_compute.
  - reflexivity.
  - reflexivity.
  - reflexivity.
  - intros x Hx. simpl in Hx.
    repeat (apply elem_of_cons in Hx as [->|Hx]);
      [..|by apply elem_of_nil in Hx];
      (eexists; split; [reflexivity|by left]).
Defined.

Lemma transient_lists_cover_links_witness :
  ∃ s, run 1 (init_state {[ 20 := 10 ]})
         [EvRegister 20 None true false; EvHint 20 (Some 30); EvRelink 20;
          EvRegister 10 None true false] = Some s ∧
       ∀ c p, transientFor s c = Some p → c ∈ transientList s p.
Proof.
  apply (transient_lists_cover_links 1 {[ 20 := 10 ]}
           [EvRegister 20 None true false; EvHint 20 (Some 30); EvRelink 20;
            EvRegister 10 None true false]).
  simpl. by split.
Defined.
